(** * NodeModal: normaliser, path editor and field sync of the node editor

    A shallow embedding of [src/features/modals/NodeModal/index.tsx]:
    [normalizeNodeData], [jsonPathToString], [applyEdit] and the save handler
    [handleSave], whose keyed branch is the specification's [syncFields].

    The program is TypeScript, so the first part of the file is the fragment of
    the ECMAScript runtime the program runs on (module [JS]): completion
    records, numbers, values, property access, [Object.keys], [typeof],
    [Number], [String.prototype.toLowerCase], [JSON.stringify] and
    [JSON.parse].  The second part (module [NodeModal]) transcribes the
    program, statement by statement, on top of it.  The theorems follow.

    Scope of the runtime model.
    - Strings are byte strings (UTF-8 text); only ASCII bytes are interpreted
      (case mapping, white space, escapes).  Case mapping of other characters
      cannot produce the ASCII words the program compares against.
    - A number is NaN, an infinity, or an exact signed decimal.  Rounding to
      binary64 is not modelled: the model agrees with the runtime on every
      decimal of at most 15 significant digits in the normal range, and on
      which texts are numeric at all.
    - The code is module code, hence strict: an assignment that the runtime
      rejects throws [TypeError].
    - Property lookup covers own properties and the missing case.  A lookup
      that would be answered by a builtin prototype ([toString],
      [constructor], ...) ends in the third completion [Unmodelled], as does
      the installation of an object as a prototype and the assignment of an
      object or an array to the [length] of an array; nothing is proved
      about such runs beyond their being [Unmodelled].  The accessor
      [__proto__] and the [length] of an array are modelled for the values
      the fields assign (primitives and [null]).
    - The round trip of [JSON.parse] after [JSON.stringify] is proved for
      the documents whose numbers are written without an exponent. *)

From Stdlib Require Import String Ascii List ZArith NArith Bool Lia.
From Stdlib Require Import DecimalString DecimalN DecimalPos.
Import ListNotations.
Local Open Scope list_scope.
Local Open Scope string_scope.

Module JS.

(** ** Completion records *)

Inductive error :=
| SyntaxError
| TypeError
| RangeError
| Error (message : string).

Inductive outcome (A : Type) :=
| Ret (a : A)
| Throw (e : error)
| Unmodelled.

Arguments Ret {A} a.
Arguments Throw {A} e.
Arguments Unmodelled {A}.

Definition bind {A B : Type} (c : outcome A) (k : A -> outcome B) : outcome B :=
  match c with
  | Ret a => k a
  | Throw e => Throw e
  | Unmodelled => Unmodelled
  end.

Notation "x <- c ;; k" := (bind c (fun x => k))
  (at level 61, c at next level, right associativity).
Notation "' p <- c ;; k" := (bind c (fun p => k))
  (at level 61, p pattern, c at next level, right associativity).

(** [try { c } catch (e) { h }] *)
Definition try_catch {A : Type} (c : outcome A) (h : error -> outcome A) : outcome A :=
  match c with
  | Throw e => h e
  | _ => c
  end.

(** ** Characters and strings *)

Definition code (c : ascii) : N := N_of_ascii c.

Definition dquote : ascii := "034"%char.
Definition backslash : ascii := "092"%char.

(** Source texts are written with apostrophes where JSON has double quotes;
    [q] puts the double quotes back. *)
Fixpoint q (s : string) : string :=
  match s with
  | EmptyString => EmptyString
  | String c r => String (if (c =? "'")%char then dquote else c) (q r)
  end.

Definition is_digit (c : ascii) : bool := (48 <=? code c)%N && (code c <=? 57)%N.

Definition digit_value (c : ascii) : N := (code c - 48)%N.

Fixpoint all_chars (p : ascii -> bool) (s : string) : bool :=
  match s with
  | EmptyString => true
  | String c r => p c && all_chars p r
  end.

(** The longest prefix of characters satisfying [p], and the rest. *)
Fixpoint span (p : ascii -> bool) (s : string) : string * string :=
  match s with
  | EmptyString => (EmptyString, EmptyString)
  | String c r =>
      if p c then let (a, b) := span p r in (String c a, b)
      else (EmptyString, s)
  end.

Fixpoint repeat_char (c : ascii) (n : nat) : string :=
  match n with
  | O => EmptyString
  | S n' => String c (repeat_char c n')
  end.

Definition lower_char (c : ascii) : ascii :=
  if (65 <=? code c)%N && (code c <=? 90)%N then ascii_of_N (code c + 32) else c.

(** [String.prototype.toLowerCase] *)
Fixpoint toLowerCase (s : string) : string :=
  match s with
  | EmptyString => EmptyString
  | String c r => String (lower_char c) (toLowerCase r)
  end.

(** StrWhiteSpaceChar: TAB, LF, VT, FF, CR and SP. *)
Definition is_white_space (c : ascii) : bool :=
  ((9 <=? code c)%N && (code c <=? 13)%N) || (code c =? 32)%N.

Fixpoint trim_start (s : string) : string :=
  match s with
  | EmptyString => EmptyString
  | String c r => if is_white_space c then trim_start r else s
  end.

Fixpoint trim_end (s : string) : string :=
  match s with
  | EmptyString => EmptyString
  | String c r =>
      match trim_end r with
      | EmptyString => if is_white_space c then EmptyString else String c EmptyString
      | r' => String c r'
      end
  end.

Definition trim (s : string) : string := trim_end (trim_start s).

(** ** Numbers *)

(** [Finite neg ds p] is the decimal [0.ds * 10^p], negated when [neg]; its
    digit string has neither a leading nor a trailing zero, and zero is
    [Finite _ "" 0].  These are the [k] digits and the exponent [n] of
    Number::toString. *)
Inductive number :=
| NaN
| Infinity (negative : bool)
| Finite (negative : bool) (digits : string) (point : Z).

Definition Number_isNaN (n : number) : bool :=
  match n with NaN => true | _ => false end.

Definition zero : number := Finite false "" 0.

Fixpoint strip_leading_zeros (ds : string) (p : Z) : string * Z :=
  match ds with
  | String c r => if (c =? "0")%char then strip_leading_zeros r (p - 1) else (ds, p)
  | EmptyString => (EmptyString, p)
  end.

Fixpoint strip_trailing_zeros (ds : string) : string :=
  match ds with
  | EmptyString => EmptyString
  | String c r =>
      match strip_trailing_zeros r with
      | EmptyString => if (c =? "0")%char then EmptyString else String c EmptyString
      | r' => String c r'
      end
  end.

(** The number [0.ds * 10^p] for an arbitrary digit string. *)
Definition decimal (neg : bool) (ds : string) (p : Z) : number :=
  let (ds1, p1) := strip_leading_zeros ds p in
  match strip_trailing_zeros ds1 with
  | EmptyString => Finite neg "" 0
  | ds2 => Finite neg ds2 p1
  end.

Definition string_of_N (n : N) : string := NilZero.string_of_uint (N.to_uint n).

Definition number_of_N (n : N) : number :=
  let ds := string_of_N n in decimal false ds (Z.of_nat (String.length ds)).

(** The value of a digit string in the given radix. *)
Fixpoint radix_value (radix acc : N) (ds : string) : N :=
  match ds with
  | EmptyString => acc
  | String c r =>
      let d := if is_digit c then digit_value c
               else if (97 <=? code c)%N then (code c - 87)%N else (code c - 55)%N in
      radix_value radix (acc * radix + d)%N r
  end.

Definition is_radix_digit (radix : N) (c : ascii) : bool :=
  if is_digit c then (digit_value c <? radix)%N
  else if (97 <=? code c)%N && (code c <=? 102)%N then (code c - 87 <? radix)%N
  else if (65 <=? code c)%N && (code c <=? 70)%N then (code c - 55 <? radix)%N
  else false.

(** Number::toString, radix 10. *)
Definition number_to_string (x : number) : string :=
  match x with
  | NaN => "NaN"
  | Infinity neg => (if neg then "-" else "") ++ "Infinity"
  | Finite neg ds n =>
      match ds with
      | EmptyString => "0"
      | String d rest =>
          let k := Z.of_nat (String.length ds) in
          let body :=
            if (k <=? n)%Z && (n <=? 21)%Z then
              ds ++ repeat_char "0" (Z.to_nat (n - k))
            else if (0 <? n)%Z && (n <=? 21)%Z then
              substring 0 (Z.to_nat n) ds ++ "." ++
              substring (Z.to_nat n) (Z.to_nat (k - n)) ds
            else if (-6 <? n)%Z && (n <=? 0)%Z then
              "0." ++ repeat_char "0" (Z.to_nat (- n)) ++ ds
            else
              let e := (n - 1)%Z in
              let exponent := (if (e <? 0)%Z then "-" else "+") ++ string_of_N (Z.abs_N e) in
              match rest with
              | EmptyString => String d EmptyString ++ "e" ++ exponent
              | _ => String d EmptyString ++ "." ++ rest ++ "e" ++ exponent
              end in
          (if neg then "-" else "") ++ body
      end
  end.

(** ExponentPart of a numeric literal: the empty rest is exponent 0. *)
Definition exponent_part (s : string) : option Z :=
  match s with
  | EmptyString => Some 0%Z
  | String c r =>
      if (c =? "e")%char || (c =? "E")%char then
        let '(neg, r1) :=
          match r with
          | String "+" r' => (false, r')
          | String "-" r' => (true, r')
          | _ => (false, r)
          end in
        match r1 with
        | EmptyString => None
        | _ =>
            if all_chars is_digit r1 then
              let v := Z.of_N (radix_value 10 0 r1) in
              Some (if neg then (- v)%Z else v)
            else None
        end
      else None
  end.

(** StrUnsignedDecimalLiteral, without the [Infinity] alternative. *)
Definition unsigned_decimal (neg : bool) (s : string) : number :=
  let (ip, r1) := span is_digit s in
  let (fp, r2) :=
    match r1 with
    | String "." r => span is_digit r
    | _ => (EmptyString, r1)
    end in
  match ip ++ fp with
  | EmptyString => NaN
  | ds =>
      match exponent_part r2 with
      | Some e => decimal neg ds (Z.of_nat (String.length ip) + e)
      | None => NaN
      end
  end.

Definition non_decimal (radix : N) (ds : string) : number :=
  match ds with
  | EmptyString => NaN
  | _ => if all_chars (is_radix_digit radix) ds then number_of_N (radix_value radix 0 ds) else NaN
  end.

(** [Number(s)] on a string: StringToNumber. *)
Definition Number (s : string) : number :=
  match trim s with
  | EmptyString => zero
  | String c r as t =>
      if t =? "Infinity" then Infinity false
      else if t =? "+Infinity" then Infinity false
      else if t =? "-Infinity" then Infinity true
      else
        match t with
        | String "0" (String "x" ds) | String "0" (String "X" ds) => non_decimal 16 ds
        | String "0" (String "o" ds) | String "0" (String "O" ds) => non_decimal 8 ds
        | String "0" (String "b" ds) | String "0" (String "B" ds) => non_decimal 2 ds
        | String "+" u => unsigned_decimal false u
        | String "-" u => unsigned_decimal true u
        | _ => unsigned_decimal false t
        end
  end.

(** ** Values *)

(** What an object inherits from: [Object.prototype], as for every object
    literal and every object [JSON.parse] builds, or nothing, after
    [o.__proto__ = null]. *)
Inductive prototype := ObjectPrototype | NullPrototype.

(** An object lists its own enumerable properties in property order: array
    indices ascending, then the other keys in creation order.  An array lists
    its elements; a hole is [VUndefined] (nothing the program does after
    making a hole tells the two apart, see [Object_keys]). *)
#[local] Unset Elimination Schemes.
Inductive value :=
| VUndefined
| VNull
| VBool (b : bool)
| VNumber (n : number)
| VString (s : string)
| VArray (elements : list value)
| VObject (proto : prototype) (props : list (string * value)).
#[local] Set Elimination Schemes.

Definition properties := list (string * value).

(** [{}] *)
Definition empty_object : value := VObject ObjectPrototype [].

Definition typeof (v : value) : string :=
  match v with
  | VUndefined => "undefined"
  | VNull => "object"
  | VBool _ => "boolean"
  | VNumber _ => "number"
  | VString _ => "string"
  | VArray _ => "object"
  | VObject _ _ => "object"
  end.

(** ToString on the primitives, as a template literal applies it. *)
Definition ToString (v : value) : outcome string :=
  match v with
  | VUndefined => Ret "undefined"
  | VNull => Ret "null"
  | VBool b => Ret (if b then "true" else "false")
  | VNumber n => Ret (number_to_string n)
  | VString s => Ret s
  | VArray _ | VObject _ _ => Unmodelled
  end.

(** ** Property keys and property order *)

(** An array index is a canonical numeric string below 2^32 - 1. *)
Definition array_index (k : string) : option N :=
  match k with
  | EmptyString => None
  | _ =>
      if all_chars is_digit k then
        let i := radix_value 10 0 k in
        if (string_of_N i =? k) && (i <? 4294967295)%N then Some i else None
      else None
  end.

Fixpoint lookup (k : string) (ps : properties) : option value :=
  match ps with
  | [] => None
  | (k', x) :: r => if k' =? k then Some x else lookup k r
  end.

(** Overwrite the value of a key in place. *)
Fixpoint replace (k : string) (x : value) (ps : properties) : properties :=
  match ps with
  | [] => []
  | (k', x') :: r => if k' =? k then (k', x) :: r else (k', x') :: replace k x r
  end.

Definition remove (k : string) (ps : properties) : properties :=
  filter (fun kv => negb (fst kv =? k)) ps.

(** A new index key goes among the indices, in ascending order. *)
Fixpoint insert_index (i : N) (k : string) (x : value) (ps : properties) : properties :=
  match ps with
  | [] => [(k, x)]
  | (k', x') :: r =>
      match array_index k' with
      | Some j => if (j <? i)%N then (k', x') :: insert_index i k x r else (k, x) :: ps
      | None => (k, x) :: ps
      end
  end.

(** CreateDataProperty on a list of own properties. *)
Definition define (k : string) (x : value) (ps : properties) : properties :=
  match lookup k ps with
  | Some _ => replace k x ps
  | None =>
      match array_index k with
      | Some i => insert_index i k x ps
      | None => (ps ++ [(k, x)])%list
      end
  end.

(** Names that a builtin prototype answers (Object, Array, String, Number
    and Boolean prototypes, Annex B included). *)
Definition builtin_members : list string :=
  [ "constructor"; "hasOwnProperty"; "isPrototypeOf"; "propertyIsEnumerable";
    "toLocaleString"; "toString"; "valueOf"; "__proto__"; "__defineGetter__";
    "__defineSetter__"; "__lookupGetter__"; "__lookupSetter__";
    "at"; "concat"; "copyWithin"; "entries"; "every"; "fill"; "filter"; "find";
    "findIndex"; "findLast"; "findLastIndex"; "flat"; "flatMap"; "forEach";
    "includes"; "indexOf"; "join"; "keys"; "lastIndexOf"; "map"; "pop"; "push";
    "reduce"; "reduceRight"; "reverse"; "shift"; "slice"; "some"; "sort";
    "splice"; "toReversed"; "toSorted"; "toSpliced"; "unshift"; "values"; "with";
    "anchor"; "big"; "blink"; "bold"; "charAt"; "charCodeAt"; "codePointAt";
    "endsWith"; "fixed"; "fontcolor"; "fontsize"; "isWellFormed"; "italics";
    "link"; "localeCompare"; "match"; "matchAll"; "normalize"; "padEnd";
    "padStart"; "repeat"; "replace"; "replaceAll"; "search"; "small"; "split";
    "startsWith"; "strike"; "sub"; "substr"; "substring"; "sup";
    "toLocaleLowerCase"; "toLocaleUpperCase"; "toLowerCase"; "toUpperCase";
    "toWellFormed"; "trim"; "trimEnd"; "trimLeft"; "trimRight"; "trimStart";
    "toExponential"; "toFixed"; "toPrecision" ].

Definition inherited (k : string) : bool := existsb (String.eqb k) builtin_members.

(** The answer for a key that is no own property. *)
Definition missing (k : string) : outcome value :=
  if inherited k then Unmodelled else Ret VUndefined.

(** ** Property access *)

(** [v[k]] *)
Definition get (v : value) (k : string) : outcome value :=
  match v with
  | VUndefined | VNull => Throw TypeError
  | VBool _ | VNumber _ => missing k
  | VString s =>
      match array_index k with
      | Some i =>
          match String.get (N.to_nat i) s with
          | Some c => Ret (VString (String c EmptyString))
          | None => Ret VUndefined
          end
      | None =>
          if k =? "length" then Ret (VNumber (number_of_N (N.of_nat (String.length s))))
          else missing k
      end
  | VArray l =>
      match array_index k with
      | Some i => Ret (nth (N.to_nat i) l VUndefined)
      | None =>
          if k =? "length" then Ret (VNumber (number_of_N (N.of_nat (List.length l))))
          else missing k
      end
  | VObject p ps =>
      match lookup k ps with
      | Some x => Ret x
      | None =>
          match p with
          | ObjectPrototype => missing k
          | NullPrototype => Ret VUndefined
          end
      end
  end.

(** Element [i] of an array becomes [x]; an array that is too short grows,
    with holes up to [i]. *)
Fixpoint array_store (l : list value) (i : nat) (x : value) : list value :=
  match i, l with
  | O, [] => [x]
  | O, _ :: r => x :: r
  | S i', [] => VUndefined :: array_store [] i' x
  | S i', y :: r => y :: array_store r i' x
  end.

(** ToNumber on the primitives. *)
Definition ToNumber (v : value) : outcome number :=
  match v with
  | VUndefined => Ret NaN
  | VNull => Ret zero
  | VBool b => Ret (if b then number_of_N 1 else zero)
  | VNumber n => Ret n
  | VString s => Ret (Number s)
  | VArray _ | VObject _ _ => Unmodelled
  end.

(** The length a number is for an array: an integer from 0 to 2^32 - 1, the
    numbers that ToUint32 leaves as they are. *)
Definition array_length (n : number) : option N :=
  match n with
  | Finite neg ds p =>
      match ds with
      | EmptyString => Some 0%N
      | _ =>
          let k := Z.of_nat (String.length ds) in
          if negb neg && all_chars is_digit ds && (k <=? p)%Z && (p <=? 10)%Z then
            let len := (radix_value 10 0 ds * 10 ^ Z.to_N (p - k))%N in
            if (len <? 4294967296)%N then Some len else None
          else None
      end
  | _ => None
  end.

(** [a.length = x] (ArraySetLength): a value that is no array length is a
    [RangeError]; a shorter array loses its last elements and a longer one
    gets holes. *)
Definition set_length (l : list value) (x : value) : outcome value :=
  n <- ToNumber x ;;
  match array_length n with
  | Some len =>
      Ret (VArray (firstn (N.to_nat len) l
                   ++ repeat VUndefined (N.to_nat len - List.length l))%list)
  | None => Throw RangeError
  end.

(** The setter of [Object.prototype.__proto__], reached by an assignment to a
    key [__proto__] that is no own property.  It changes nothing unless an
    object is given [null] or an object as its prototype. *)
Definition set_prototype (v x : value) : outcome value :=
  match v with
  | VObject _ ps =>
      match x with
      | VNull => Ret (VObject NullPrototype ps)
      | VArray _ | VObject _ _ => Unmodelled
      | _ => Ret v
      end
  | VArray _ =>
      match x with
      | VNull | VArray _ | VObject _ _ => Unmodelled
      | _ => Ret v
      end
  | _ => Ret v
  end.

Arguments set_prototype : simpl never.

(** [v[k] = x] in strict code; the result is [v] after the assignment.  A
    named property on an array is not recorded: [JSON.stringify] does not
    serialise it and the program never reads one back. *)
Definition set (v : value) (k : string) (x : value) : outcome value :=
  match v with
  | VUndefined | VNull => Throw TypeError
  | VBool _ | VNumber _ | VString _ =>
      if k =? "__proto__" then set_prototype v x else Throw TypeError
  | VArray l =>
      match array_index k with
      | Some i => Ret (VArray (array_store l (N.to_nat i) x))
      | None =>
          if k =? "length" then set_length l x
          else if k =? "__proto__" then set_prototype v x
          else Ret v
      end
  | VObject p ps =>
      match lookup k ps with
      | Some _ => Ret (VObject p (replace k x ps))
      | None =>
          match p with
          | ObjectPrototype =>
              if k =? "__proto__" then set_prototype v x
              else Ret (VObject p (define k x ps))
          | NullPrototype => Ret (VObject p (define k x ps))
          end
      end
  end.

(** [delete v[k]] on an object or an array; the result is [v] afterwards. *)
Definition delete (v : value) (k : string) : outcome value :=
  match v with
  | VUndefined | VNull => Throw TypeError
  | VObject p ps => Ret (VObject p (remove k ps))
  | VArray l =>
      match array_index k with
      | Some i =>
          if (N.to_nat i <? List.length l)%nat
          then Ret (VArray (array_store l (N.to_nat i) VUndefined))
          else Ret v
      | None => if k =? "length" then Throw TypeError else Ret v
      end
  | VString s =>
      match array_index k with
      | Some i => if (N.to_nat i <? String.length s)%nat then Throw TypeError else Ret v
      | None => if k =? "length" then Throw TypeError else Ret v
      end
  | VBool _ | VNumber _ => Ret v
  end.

Fixpoint element_keys (i : N) (l : list value) : list string :=
  match l with
  | [] => []
  | VUndefined :: r => element_keys (i + 1) r
  | _ :: r => string_of_N i :: element_keys (i + 1) r
  end.

Fixpoint char_keys (i : N) (s : string) : list string :=
  match s with
  | EmptyString => []
  | String _ r => string_of_N i :: char_keys (i + 1) r
  end.

(** [Object.keys(v)] *)
Definition Object_keys (v : value) : outcome (list string) :=
  match v with
  | VUndefined | VNull => Throw TypeError
  | VBool _ | VNumber _ => Ret []
  | VString s => Ret (char_keys 0 s)
  | VArray l => Ret (element_keys 0 l)
  | VObject _ ps => Ret (map fst ps)
  end.

(** ** JSON.stringify *)

Definition newline : string := String "010"%char EmptyString.

Definition hex_digit (d : N) : ascii :=
  if (d <? 10)%N then ascii_of_N (48 + d) else ascii_of_N (87 + d).

(** QuoteJSONString, character by character. *)
Definition quote_char (c : ascii) : string :=
  if (c =? dquote)%char then String backslash (String dquote EmptyString)
  else if (c =? backslash)%char then String backslash (String backslash EmptyString)
  else if (code c =? 8)%N then "\b"
  else if (code c =? 12)%N then "\f"
  else if (code c =? 10)%N then "\n"
  else if (code c =? 13)%N then "\r"
  else if (code c =? 9)%N then "\t"
  else if (code c <? 32)%N then
    "\u00" ++ String (hex_digit (code c / 16)) (String (hex_digit (code c mod 16)) EmptyString)
  else String c EmptyString.

Fixpoint quote_chars (s : string) : string :=
  match s with
  | EmptyString => EmptyString
  | String c r => quote_char c ++ quote_chars r
  end.

Definition Quote (s : string) : string :=
  String dquote (quote_chars s) ++ String dquote EmptyString.

(** The last steps of SerializeJSONObject and SerializeJSONArray. *)
Definition brackets (opening closing gap indent inner : string) (partial : list string) : string :=
  match partial with
  | [] => opening ++ closing
  | _ =>
      if gap =? "" then opening ++ String.concat "," partial ++ closing
      else opening ++ newline ++ inner ++ String.concat ("," ++ newline ++ inner) partial
           ++ newline ++ indent ++ closing
  end.

(** SerializeJSONProperty; [None] is [undefined]. *)
Fixpoint serialize (gap indent : string) (v : value) {struct v} : option string :=
  match v with
  | VUndefined => None
  | VNull => Some "null"
  | VBool b => Some (if b then "true" else "false")
  | VNumber n =>
      Some (match n with Finite _ _ _ => number_to_string n | _ => "null" end)
  | VString s => Some (Quote s)
  | VArray l =>
      let inner := indent ++ gap in
      let partial :=
        (fix items (l : list value) : list string :=
           match l with
           | [] => []
           | x :: r =>
               match serialize gap inner x with
               | Some t => t
               | None => "null"
               end :: items r
           end) l in
      Some (brackets "[" "]" gap indent inner partial)
  | VObject _ ps =>
      let inner := indent ++ gap in
      let partial :=
        (fix members (ps : list (string * value)) : list string :=
           match ps with
           | [] => []
           | (k, x) :: r =>
               match serialize gap inner x with
               | Some t => (Quote k ++ ":" ++ (if gap =? "" then "" else " ") ++ t) :: members r
               | None => members r
               end
           end) ps in
      Some (brackets "{" "}" gap indent inner partial)
  end.

(** [JSON.stringify(v, null, space)]; [JSON.stringify(v)] is [space = 0].
    No value of this model makes it throw. *)
Definition JSON_stringify (space : nat) (v : value) : outcome (option string) :=
  Ret (serialize (repeat_char " " (Nat.min 10 space)) "" v).

(** ** JSON.parse *)

Definition is_json_white_space (c : ascii) : bool :=
  (code c =? 32)%N || (code c =? 9)%N || (code c =? 10)%N || (code c =? 13)%N.

Fixpoint skip_ws (s : string) : string :=
  match s with
  | EmptyString => EmptyString
  | String c r => if is_json_white_space c then skip_ws r else s
  end.

Fixpoint strip_prefix (p s : string) : option string :=
  match p, s with
  | EmptyString, _ => Some s
  | String a p', String b s' => if (a =? b)%char then strip_prefix p' s' else None
  | _, _ => None
  end.

Definition simple_escape (e : ascii) : option ascii :=
  if (e =? dquote)%char then Some dquote
  else if (e =? backslash)%char then Some backslash
  else if (e =? "/")%char then Some "/"%char
  else if (e =? "b")%char then Some "008"%char
  else if (e =? "f")%char then Some "012"%char
  else if (e =? "n")%char then Some "010"%char
  else if (e =? "r")%char then Some "013"%char
  else if (e =? "t")%char then Some "009"%char
  else None.

(** The characters of a string literal after its opening quote, and the text
    after its closing quote.  An escape [\uXXXX] above 007F is [Unmodelled]. *)
Fixpoint parse_string (s : string) : outcome (string * string) :=
  match s with
  | EmptyString => Throw SyntaxError
  | String c r =>
      if (c =? dquote)%char then Ret (EmptyString, r)
      else if (c =? backslash)%char then
        match r with
        | EmptyString => Throw SyntaxError
        | String e r1 =>
            match simple_escape e with
            | Some ch => '(t, rest) <- parse_string r1 ;; Ret (String ch t, rest)
            | None =>
                if (e =? "u")%char then
                  match r1 with
                  | String h1 (String h2 (String h3 (String h4 r2))) =>
                      let hs := String h1 (String h2 (String h3 (String h4 EmptyString))) in
                      if all_chars (is_radix_digit 16) hs then
                        let cp := radix_value 16 0 hs in
                        if (cp <? 128)%N
                        then '(t, rest) <- parse_string r2 ;; Ret (String (ascii_of_N cp) t, rest)
                        else Unmodelled
                      else Throw SyntaxError
                  | _ => Throw SyntaxError
                  end
                else Throw SyntaxError
            end
        end
      else if (code c <? 32)%N then Throw SyntaxError
      else '(t, rest) <- parse_string r ;; Ret (String c t, rest)
  end.

(** A JSON number after its sign: int frac? exp?, and the text after it. *)
Definition parse_unsigned_number (neg : bool) (s : string) : outcome (number * string) :=
  let (ip, r1) := span is_digit s in
  match ip with
  | EmptyString => Throw SyntaxError
  | String d more =>
      if (d =? "0")%char && negb (more =? "") then Throw SyntaxError
      else
        let '(fp, r2, frac_ok) :=
          match r1 with
          | EmptyString => (EmptyString, r1, true)
          | String c r =>
              if (c =? ".")%char
              then let (f, r') := span is_digit r in (f, r', negb (f =? ""))
              else (EmptyString, r1, true)
          end in
        if negb frac_ok then Throw SyntaxError
        else
          let point := Z.of_nat (String.length ip) in
          let plain := Ret (decimal neg (ip ++ fp) point, r2) in
          match r2 with
          | EmptyString => plain
          | String c r3 =>
              if (c =? "e")%char || (c =? "E")%char then
                let '(eneg, r4) :=
                  match r3 with
                  | EmptyString => (false, r3)
                  | String sgn r' =>
                      if (sgn =? "+")%char then (false, r')
                      else if (sgn =? "-")%char then (true, r')
                      else (false, r3)
                  end in
                let (ed, r5) := span is_digit r4 in
                match ed with
                | EmptyString => Throw SyntaxError
                | _ =>
                    let e := Z.of_N (radix_value 10 0 ed) in
                    Ret (decimal neg (ip ++ fp) (point + (if eneg then - e else e)), r5)
                end
              else plain
          end
  end.

(** A JSON number: [-]? int frac? exp?. *)
Definition parse_number (s : string) : outcome (number * string) :=
  match s with
  | EmptyString => Throw SyntaxError
  | String c r => if (c =? "-")%char then parse_unsigned_number true r
                  else parse_unsigned_number false s
  end.

(** One JSON value at the head of [s] and the text after it.  Every call
    consumes a character, so fuel beyond the length of the text is never
    used up. *)
Fixpoint parse_value (fuel : nat) (s : string) : outcome (value * string) :=
  match fuel with
  | O => Unmodelled
  | S fuel' =>
      match skip_ws s with
      | EmptyString => Throw SyntaxError
      | String c r as t =>
          if (c =? "{")%char then
            match skip_ws r with
            | EmptyString => Throw SyntaxError
            | String c' r' as t' =>
                if (c' =? "}")%char then Ret (VObject ObjectPrototype [], r')
                else parse_members fuel' [] t'
            end
          else if (c =? "[")%char then
            match skip_ws r with
            | EmptyString => Throw SyntaxError
            | String c' r' as t' =>
                if (c' =? "]")%char then Ret (VArray [], r')
                else parse_elements fuel' [] t'
            end
          else if (c =? dquote)%char then
            '(str, rest) <- parse_string r ;; Ret (VString str, rest)
          else if (c =? "-")%char || is_digit c then
            '(n, rest) <- parse_number t ;; Ret (VNumber n, rest)
          else
            match strip_prefix "null" t, strip_prefix "true" t, strip_prefix "false" t with
            | Some rest, _, _ => Ret (VNull, rest)
            | _, Some rest, _ => Ret (VBool true, rest)
            | _, _, Some rest => Ret (VBool false, rest)
            | _, _, _ => Throw SyntaxError
            end
      end
  end
with parse_elements (fuel : nat) (acc : list value) (s : string) : outcome (value * string) :=
  match fuel with
  | O => Unmodelled
  | S fuel' =>
      '(v, r) <- parse_value fuel' s ;;
      match skip_ws r with
      | EmptyString => Throw SyntaxError
      | String c r' =>
          if (c =? ",")%char then parse_elements fuel' (acc ++ [v])%list r'
          else if (c =? "]")%char then Ret (VArray (acc ++ [v])%list, r')
          else Throw SyntaxError
      end
  end
with parse_members (fuel : nat) (acc : properties) (s : string) : outcome (value * string) :=
  match fuel with
  | O => Unmodelled
  | S fuel' =>
      match skip_ws s with
      | EmptyString => Throw SyntaxError
      | String c r =>
          if (c =? dquote)%char then
            '(k, r1) <- parse_string r ;;
            match skip_ws r1 with
            | EmptyString => Throw SyntaxError
            | String c1 r2 =>
                if (c1 =? ":")%char then
                  '(v, r3) <- parse_value fuel' r2 ;;
                  let acc' := define k v acc in
                  match skip_ws r3 with
                  | EmptyString => Throw SyntaxError
                  | String c3 r4 =>
                      if (c3 =? ",")%char then parse_members fuel' acc' r4
                      else if (c3 =? "}")%char then Ret (VObject ObjectPrototype acc', r4)
                      else Throw SyntaxError
                  end
                else Throw SyntaxError
            end
          else Throw SyntaxError
      end
  end.

(** [JSON.parse(text)] *)
Definition JSON_parse (text : string) : outcome value :=
  '(v, rest) <- parse_value (2 * String.length text + 2) text ;;
  match skip_ws rest with
  | EmptyString => Ret v
  | _ => Throw SyntaxError
  end.

(** ** Induction on values *)

(** The induction principle of [value], with the elements of an array and the
    property values of an object as premises. *)
Section ValueInduction.

Variable P : value -> Prop.
Hypothesis Hundefined : P VUndefined.
Hypothesis Hnull : P VNull.
Hypothesis Hbool : forall b, P (VBool b).
Hypothesis Hnumber : forall n, P (VNumber n).
Hypothesis Hstring : forall s, P (VString s).
Hypothesis Harray : forall l, Forall P l -> P (VArray l).
Hypothesis Hobject : forall p ps, Forall (fun kv => P (snd kv)) ps -> P (VObject p ps).

Fixpoint value_ind (v : value) : P v :=
  match v with
  | VUndefined => Hundefined
  | VNull => Hnull
  | VBool b => Hbool b
  | VNumber n => Hnumber n
  | VString s => Hstring s
  | VArray l =>
      Harray l ((fix all (l : list value) : Forall P l :=
                   match l with
                   | [] => Forall_nil _
                   | x :: r => Forall_cons x (value_ind x) (all r)
                   end) l)
  | VObject p ps =>
      Hobject p ps ((fix all (ps : list (string * value)) : Forall (fun kv => P (snd kv)) ps :=
                       match ps with
                       | [] => Forall_nil _
                       | kv :: r => Forall_cons kv (value_ind (snd kv)) (all r)
                       end) ps)
  end.

End ValueInduction.

(** ** JSON values and their texts *)

(** The number of [parse_value] calls that read a value back. *)
Fixpoint size (v : value) : nat :=
  match v with
  | VArray l =>
      2 + (fix sum (l : list value) : nat :=
             match l with [] => 0 | x :: r => size x + sum r end) l
  | VObject _ ps =>
      2 + (fix sum (ps : list (string * value)) : nat :=
             match ps with [] => 0 | kv :: r => size (snd kv) + sum r end) ps
  | _ => 1
  end.

Definition sizes (l : list value) : nat := fold_right (fun x n => size x + n)%nat 0%nat l.

(** The digits of a non-zero number in lowest terms: digits only, no leading
    and no trailing zero. *)
Definition canonical (ds : string) : bool :=
  match ds with
  | EmptyString => false
  | String d _ =>
      all_chars is_digit ds && negb (d =? "0")%char && (strip_trailing_zeros ds =? ds)
  end.

(** The numbers [Number::toString] writes without an exponent (the decimal
    point within 21 digits and at most 6 zeros after it) and [JSON.parse]
    reads back as written: +0 and the non-zero numbers in lowest terms.
    (-0 is written as 0, and read back as +0.) *)
Definition plain_number (n : number) : bool :=
  match n with
  | Finite neg ds p =>
      match ds with
      | EmptyString => negb neg && (p =? 0)%Z
      | _ => canonical ds && (-6 <? p)%Z && (p <=? 21)%Z
      end
  | _ => false
  end.

(** The order of [OrdinaryOwnPropertyKeys]: [k'] may come before [k] when
    both are array indices in ascending order, or [k'] is one and [k] is
    not, or both are other names, and different. *)
Definition precedes (k' k : string) : bool :=
  match array_index k', array_index k with
  | Some i, Some j => (i <? j)%N
  | Some _, None => true
  | None, Some _ => false
  | None, None => negb (k' =? k)
  end.

Fixpoint ordered (ks : list string) : bool :=
  match ks with
  | [] => true
  | k :: r => forallb (precedes k) r && ordered r
  end.

(** The values that are JSON documents as [JSON.parse] builds them: no
    [undefined], plain numbers, ordinary objects with their keys in property
    order and without duplicates. *)
Fixpoint json_value (v : value) : bool :=
  match v with
  | VUndefined => false
  | VNull | VBool _ | VString _ => true
  | VNumber n => plain_number n
  | VArray l =>
      (fix all (l : list value) : bool :=
         match l with [] => true | x :: r => json_value x && all r end) l
  | VObject p ps =>
      match p with ObjectPrototype => true | NullPrototype => false end
      && ordered (map fst ps)
      && (fix all (ps : list (string * value)) : bool :=
            match ps with [] => true | kv :: r => json_value (snd kv) && all r end) ps
  end.

(** The text of a value that has one. *)
Definition text_of (gap indent : string) (v : value) : string :=
  match serialize gap indent v with Some t => t | None => "null" end.

(** One member of an object's text. *)
Definition member_text (gap inner : string) (kv : string * value) : string :=
  Quote (fst kv) ++ ":" ++ (if gap =? "" then "" else " ") ++ text_of gap inner (snd kv).

(** White space of the JSON grammar only. *)
Definition blank (ws : string) : Prop := all_chars is_json_white_space ws = true.

(** The text after a number stops the number: it cannot continue the digits,
    the fraction or the exponent. *)
Definition number_end (r : string) : bool :=
  match r with
  | EmptyString => true
  | String c _ =>
      negb (is_digit c) && negb (c =? ".")%char && negb (c =? "e")%char && negb (c =? "E")%char
  end.

(** The indentation unit of [JSON.stringify(v, null, 2)]. *)
Definition gap2 : string := "  ".

(** The round trip of one value: its text, followed by a text that ends a
    number, parses back to the value. *)
Definition round_trip (v : value) : Prop :=
  json_value v = true ->
  forall fuel ind rest,
    (size v <= fuel)%nat -> blank ind -> number_end rest = true ->
    parse_value fuel (text_of gap2 ind v ++ rest) = Ret (v, rest).

End JS.

Module NodeModal.
Import JS.

(** ** Data *)

(** Modelled from the spec: the row type [NodeData["text"]] is declared in
    [types/graph], which is not among the sources.  A row has a [key]
    (a string, or [null] when the node is a bare scalar), a [value] (the
    primitive's runtime value, or a summary for a nested child) and a [type]
    tag. *)
Inductive scalar :=
| SNull
| SBool (b : bool)
| SNumber (n : number)
| SString (s : string).

Definition scalar_value (p : scalar) : value :=
  match p with
  | SNull => VNull
  | SBool b => VBool b
  | SNumber n => VNumber n
  | SString s => VString s
  end.

Module Row.
Record t := make { key : option string; value : scalar; type : string }.
End Row.

(** The edit-mode rows, [fields] of the component's state (line 47). *)
Module Field.
Record t := make { key : option string; value : string; type : string }.
End Field.

(** A path segment is an object key or an array index. *)
Inductive segment :=
| Key (s : string)
| Index (n : N).

Record NodeData := { text : list Row.t; path : option (list segment) }.

(** ToPropertyKey of a segment. *)
Definition property_key (seg : segment) : string :=
  match seg with
  | Key s => s
  | Index n => number_to_string (number_of_N n)
  end.

(** [!key] for a key that is a string or [null]. *)
Definition no_key (k : option string) : bool :=
  match k with
  | None => true
  | Some s => s =? ""
  end.

(** [l.forEach(body)], the state the body updates threaded through. *)
Fixpoint forEach {A S : Type} (l : list A) (body : A -> S -> outcome S) (s : S) : outcome S :=
  match l with
  | [] => Ret s
  | a :: r => s' <- body a s ;; forEach r body s'
  end.

(** ** normalizeNodeData (lines 11-30) *)

Section Normalizer.

(** [JSON.stringify], with its number of spaces first.  It is a variable so
    that the [catch] of line 18 can be stated for a serialiser that throws;
    the program's is [JSON_stringify]. *)
Variable stringify : nat -> value -> outcome (option string).

(** Lines 23-28: the object built from the rows. *)
Definition rowsObject (nodeRows : list Row.t) : outcome value :=
  forEach nodeRows
    (fun row obj =>
       if negb (Row.type row =? "array") && negb (Row.type row =? "object") then
         match Row.key row with
         | Some k => if k =? "" then Ret obj else set obj k (scalar_value (Row.value row))
         | None => Ret obj
         end
       else Ret obj)
    empty_object.

Definition normalizeNodeData_with (nodeRows : list Row.t) : outcome (option string) :=
  match nodeRows with
  | [] => Ret (Some "{}")
  | row0 :: _ =>
      if (List.length nodeRows =? 1)%nat && no_key (Row.key row0) then
        let v := scalar_value (Row.value row0) in
        try_catch (stringify 0 v) (fun _ => t <- ToString v ;; Ret (Some t))
      else
        obj <- rowsObject nodeRows ;;
        stringify 2 obj
  end.

End Normalizer.

Definition normalizeNodeData : list Row.t -> outcome (option string) :=
  normalizeNodeData_with JSON_stringify.

(** ** jsonPathToString (lines 33-37) *)

Definition jsonPathToString (path : option (list segment)) : string :=
  match path with
  | None | Some [] => "$"
  | Some path =>
      let segments :=
        map (fun seg =>
               match seg with
               | Index _ => property_key seg
               | Key s => String dquote s ++ String dquote EmptyString
               end) path in
      "$[" ++ String.concat "][" segments ++ "]"
  end.

(** ** applyEdit (lines 74-97) *)

Definition InvalidPath : error := Error "Invalid path".

(** [for (const seg of path) v = v[seg]] *)
Fixpoint walk (v : value) (path : list segment) : outcome value :=
  match path with
  | [] => Ret v
  | seg :: rest => v' <- get v (property_key seg) ;; walk v' rest
  end.

Fixpoint store_property (k : string) (f : value -> value) (ps : properties) : properties :=
  match ps with
  | [] => []
  | (k', x) :: r => if k' =? k then (k', f x) :: r else (k', x) :: store_property k f r
  end.

Fixpoint store_element (i : nat) (f : value -> value) (l : list value) : list value :=
  match i, l with
  | _, [] => []
  | O, x :: r => f x :: r
  | S i', x :: r => x :: store_element i' f r
  end.

(** The parsed tree has no sharing, so the object that [walk root path]
    returns is the subtree at [path], and an assignment to one of its
    properties shows in [root] as that subtree replaced: [store root path x]
    is [root] with [x] at [path].  Where the walk left the tree (the value it
    returned was a copy of a primitive) nothing in the tree changes. *)
Fixpoint store (root : value) (path : list segment) (x : value) : value :=
  match path with
  | [] => x
  | seg :: rest =>
      match root with
      | VObject p ps =>
          VObject p (store_property (property_key seg) (fun c => store c rest x) ps)
      | VArray l =>
          match array_index (property_key seg) with
          | Some i => VArray (store_element (N.to_nat i) (fun c => store c rest x) l)
          | None => root
          end
      | _ => root
      end
  end.

Definition applyEdit (rawJson : string) (path : option (list segment)) (newValue : value)
  : outcome (option string) :=
  root <- JSON_parse rawJson ;;
  match path with
  | None | Some [] =>
      (* editing root *)
      JSON_stringify 2 newValue
  | Some (seg0 :: more) =>
      let path := seg0 :: more in
      let parentPath := removelast path in
      let last := List.last path seg0 in
      parent <- walk root parentPath ;;
      (* If parent is undefined, throw *)
      if typeof parent =? "undefined" then Throw InvalidPath
      else
        (* Set based on last *)
        parent' <- set parent (property_key last) newValue ;;
        JSON_stringify 2 (store root parentPath parent')
  end.

(** ** handleSave (lines 99-177) *)

(** Lines 116-125: the typed value of a field's text. *)
Definition coerce (f : Field.t) : value :=
  if Field.type f =? "number" then
    let n := Number (Field.value f) in
    if Number_isNaN n then VString (Field.value f) else VNumber n
  else if Field.type f =? "boolean" then
    let low := toLowerCase (Field.value f) in
    if low =? "true" then VBool true
    else if low =? "false" then VBool false
    else VString (Field.value f)
  else if Field.type f =? "null" then VNull
  else VString (Field.value f).

(** Lines 112-127: the object built from the fields. *)
Definition updatedObj (fields : list Field.t) : outcome value :=
  forEach fields
    (fun f obj =>
       match Field.key f with
       | Some k => if k =? "" then Ret obj else set obj k (coerce f)
       | None => Ret obj
       end)
    empty_object.

(** [fields.some(f => f.key === k)] *)
Definition some_field_has_key (fields : list Field.t) (k : string) : bool :=
  existsb (fun f => match Field.key f with Some s => s =? k | None => false end) fields.

(** [val === null || typeof val !== "object"] *)
Definition primitive_valued (val : value) : bool :=
  match val with
  | VNull => true
  | _ => negb (typeof val =? "object")
  end.

Definition path_or_root (path : option (list segment)) : list segment :=
  match path with
  | None => []
  | Some p => p
  end.

(** Lines 110-159, the branch taken when the node has keyed rows: the
    specification's [syncFields].  The result is the new document text. *)
Definition syncFields (currentJson : string) (path : option (list segment))
    (fields : list Field.t) : outcome (option string) :=
  updatedObj <- updatedObj fields ;;
  root <- JSON_parse currentJson ;;
  (* navigate to target *)
  target <- walk root (path_or_root path) ;;
  if negb (typeof target =? "object") || (match target with VNull => true | _ => false end) then
    (* replace direct value *)
    applyEdit currentJson path updatedObj
  else
    (* modify primitive keys on target *)
    ks <- Object_keys target ;;
    keysToDelete <-
      forEach ks
        (fun k acc =>
           val <- get target k ;;
           if primitive_valued val then
             if negb (some_field_has_key fields k) then Ret (acc ++ [k])%list else Ret acc
           else Ret acc)
        [] ;;
    target <- forEach keysToDelete (fun k t => delete t k) target ;;
    uks <- Object_keys updatedObj ;;
    target <- forEach uks (fun k t => x <- get updatedObj k ;; set t k x) target ;;
    JSON_stringify 2 (store root (path_or_root path) target).

(** The body of the [try] of [handleSave]. *)
Definition save (nodeData : NodeData) (currentJson : string) (fields : list Field.t)
    (editText : string) : outcome (option string) :=
  let hasKeys :=
    existsb (fun r => match Row.key r with Some _ => true | None => false end) (text nodeData) in
  if hasKeys then syncFields currentJson (path nodeData) fields
  else
    (* single primitive value *)
    parsedValue <- try_catch (JSON_parse editText) (fun _ => Ret (VString editText)) ;;
    applyEdit currentJson (path nodeData) parsedValue.

(** What a save does to the stores: nothing without a selected node, the new
    contents handed to [setContents], or the error handed to [setError]. *)
Inductive effect :=
| NoEffect
| SetContents (contents : option string)
| SetError (e : error).

Definition handleSave (nodeData : option NodeData) (currentJson : string)
    (fields : list Field.t) (editText : string) : outcome effect :=
  match nodeData with
  | None => Ret NoEffect
  | Some node =>
      try_catch
        (updated <- save node currentJson fields editText ;; Ret (SetContents updated))
        (fun e => Ret (SetError e))
  end.

(** ** The editable fields (lines 50-65) *)

(** [String(v ?? "")] on the value of a row. *)
Definition value_text (v : scalar) : string :=
  match v with
  | SNull => ""
  | SBool b => if b then "true" else "false"
  | SNumber n => number_to_string n
  | SString s => s
  end.

(** Lines 56-64 of the effect that runs when the selection changes: the
    editable fields, made from the rows of primitive type. *)
Definition initialFields (rows : list Row.t) : list Field.t :=
  let prims := filter (fun r => negb (Row.type r =? "array") && negb (Row.type r =? "object"))
                      rows in
  match prims with
  | [] => []
  | r0 :: _ =>
      if (List.length prims =? 1)%nat && no_key (Row.key r0) then
        [Field.make None (value_text (Row.value r0)) (Row.type r0)]
      else
        map (fun r => Field.make (Row.key r) (value_text (Row.value r)) (Row.type r)) prims
  end.

(** ** The updaters of the field list (lines 179-185) *)

(** [Partial<{ key; value; type }>]: each property present or not. *)
Record patch := {
  patch_key : option (option string);
  patch_value : option string;
  patch_type : option string
}.

(** [{ ...f, ...patch }] *)
Definition spread (f : Field.t) (p : patch) : Field.t :=
  Field.make (match patch_key p with Some k => k | None => Field.key f end)
             (match patch_value p with Some v => v | None => Field.value f end)
             (match patch_type p with Some t => t | None => Field.type f end).

(** [l.map((a, i) => g(a, i))], the index counted from [i]. *)
Fixpoint map_index {A B : Type} (g : A -> nat -> B) (i : nat) (l : list A) : list B :=
  match l with
  | [] => []
  | a :: r => g a i :: map_index g (S i) r
  end.

(** [l.filter((a, i) => keep(a, i))], the index counted from [i]. *)
Fixpoint filter_index {A : Type} (keep : A -> nat -> bool) (i : nat) (l : list A) : list A :=
  match l with
  | [] => []
  | a :: r => if keep a i then a :: filter_index keep (S i) r else filter_index keep (S i) r
  end.

(** The state updaters of lines 179-185, as functions of the previous
    fields. *)
Definition updateField (index : nat) (p : patch) (prev : list Field.t) : list Field.t :=
  map_index (fun f i => if (i =? index)%nat then spread f p else f) 0 prev.

Definition addField (prev : list Field.t) : list Field.t :=
  (prev ++ [Field.make
              (Some ("key" ++ number_to_string
                                (number_of_N (N.of_nat (List.length prev + 1))))%string)
              "" "string"])%list.

Definition removeField (index : nat) (prev : list Field.t) : list Field.t :=
  filter_index (fun _ i => negb (i =? index)%nat) 0 prev.

(** ** The state and the controls of the component (lines 45-48, 187-273) *)

(** The state of the component (lines 45-48).  [error] holds the error whose
    message line 175 stores. *)
Module State.
Record t := make {
  editing : bool;
  editText : string;
  fields : list Field.t;
  error : option JS.error
}.
End State.

(** What the user does in the open modal, the selection staying as it is:
    the buttons Edit and Cancel, the inputs of a field, the buttons Remove
    and Add field, and the text area. *)
Inductive event :=
| EditClicked
| CancelClicked
| KeyChanged (i : nat) (k : string)
| ValueChanged (i : nat) (v : string)
| RemoveClicked (i : nat)
| AddFieldClicked
| TextChanged (t : string).

(** The controls that lines 196-271 render in a state: Edit outside edit
    mode and Cancel in it; in edit mode, the inputs of the fields and Add
    field when there are fields, the text area when there are none; a field
    whose key is [null] has a value input only. *)
Definition offered (s : State.t) (e : event) : bool :=
  match e with
  | EditClicked => negb (State.editing s)
  | CancelClicked => State.editing s
  | ValueChanged i _ =>
      State.editing s &&
      match nth_error (State.fields s) i with Some _ => true | None => false end
  | KeyChanged i _ | RemoveClicked i =>
      State.editing s &&
      match nth_error (State.fields s) i with
      | Some f => match Field.key f with Some _ => true | None => false end
      | None => false
      end
  | AddFieldClicked =>
      State.editing s && negb (List.length (State.fields s) =? 0)%nat
  | TextChanged _ =>
      State.editing s && (List.length (State.fields s) =? 0)%nat
  end.

(** The handlers of those controls. *)
Definition handle (s : State.t) (e : event) : State.t :=
  let with_editing b := State.make b (State.editText s) (State.fields s) (State.error s) in
  let with_fields l := State.make (State.editing s) (State.editText s) l (State.error s) in
  match e with
  | EditClicked => with_editing true
  | CancelClicked => with_editing false
  | KeyChanged i k =>
      with_fields (updateField i {| patch_key := Some (Some k); patch_value := None;
                                    patch_type := None |} (State.fields s))
  | ValueChanged i v =>
      with_fields (updateField i {| patch_key := None; patch_value := Some v;
                                    patch_type := None |} (State.fields s))
  | RemoveClicked i => with_fields (removeField i (State.fields s))
  | AddFieldClicked => with_fields (addField (State.fields s))
  | TextChanged t => State.make (State.editing s) t (State.fields s) (State.error s)
  end.

(** ** Notions the theorems are stated with *)

(** The value at a location of a document tree: locations are the own
    properties of objects and the elements of arrays. *)
Fixpoint locate (v : value) (path : list segment) : option value :=
  match path with
  | [] => Some v
  | seg :: rest =>
      match v with
      | VObject _ ps =>
          match lookup (property_key seg) ps with
          | Some c => locate c rest
          | None => None
          end
      | VArray l =>
          match array_index (property_key seg) with
          | Some i =>
              match nth_error l (N.to_nat i) with
              | Some c => locate c rest
              | None => None
              end
          | None => None
          end
      | _ => None
      end
  end.

(** Two paths part ways: at some depth, below a common prefix, they name
    different properties. *)
Fixpoint apart (p o : list segment) : bool :=
  match p, o with
  | s :: p', t :: o' =>
      if property_key s =? property_key t then apart p' o' else true
  | _, _ => false
  end.

(** The values the guard of line 136 sends to [applyEdit]: everything but
    objects and arrays. *)
Definition scalar_or_undefined (v : value) : bool :=
  match v with
  | VArray _ | VObject _ _ => false
  | _ => true
  end.

(** A parent that takes a new property [k]: an object without own [k] (and
    without the inherited accessor under that name), or an array shorter than
    the index [k]. *)
Definition takes_new (parent : value) (k : string) : bool :=
  match parent with
  | VObject p ps =>
      match lookup k ps with
      | Some _ => false
      | None => match p with ObjectPrototype => negb (k =? "__proto__") | NullPrototype => true end
      end
  | VArray l =>
      match array_index k with
      | Some i => (List.length l <=? N.to_nat i)%nat
      | None => false
      end
  | _ => false
  end.



Definition keyed (k : option string) : bool := negb (no_key k).

(** Lines 148-149: [k] is a key of [ps] with a primitive value that no field
    has; these are the keys line 153 deletes. *)
Definition to_delete (fields : list Field.t) (ps : properties) (k : string) : bool :=
  match lookup k ps with
  | Some val => primitive_valued val && negb (some_field_has_key fields k)
  | None => false
  end.

(** The properties of the target after lines 144-154, read as a map: the
    coerced mapping [ops] where it has the key, else the old properties [ps]
    without the deleted keys. *)
Definition merged (fields : list Field.t) (ps ops : properties) (k : string) : option value :=
  match lookup k ops with
  | Some x => Some x
  | None => if to_delete fields ps k then None else lookup k ps
  end.

Definition is_object (v : value) : Prop :=
  match v with VObject _ _ => True | _ => False end.

(** An object or an array. *)
Definition container (v : value) : Prop := scalar_or_undefined v = false.

(** A computation that does not throw, and whose result satisfies [P] when
    it completes. *)
Definition safe {A : Type} (P : A -> Prop) (c : outcome A) : Prop :=
  match c with
  | Ret a => P a
  | Throw _ => False
  | Unmodelled => True
  end.

(** Abbreviations for the examples: a number by its text, an object literal,
    a keyed field, and the pretty-printed text of a document written
    compactly. *)
Definition num (s : string) : value := VNumber (Number s).

Definition object (ps : properties) : value := VObject ObjectPrototype ps.

Definition field (k v t : string) : Field.t := Field.make (Some k) v t.

Definition pretty (s : string) : outcome (option string) :=
  v <- JSON_parse (q s) ;; JSON_stringify 2 v.

Definition own_properties (v : value) : properties :=
  match v with VObject _ ps => ps | _ => [] end.

(** The text of a segment between its brackets, and the segment in its
    brackets. *)
Definition segment_text (seg : segment) : string :=
  match seg with
  | Index _ => property_key seg
  | Key s => String dquote s ++ String dquote EmptyString
  end.

Definition bracketed (seg : segment) : string := "[" ++ segment_text seg ++ "]".

(** A key without a double quote; a segment whose text ends where it should:
    such a key, or the index of an array element. *)
Definition quote_free (s : string) : bool := all_chars (fun c => negb (c =? dquote)%char) s.

Definition plain_segment (seg : segment) : bool :=
  match seg with
  | Key k => quote_free k
  | Index n =>
      match array_index (property_key seg) with
      | Some m => (m =? n)%N
      | None => false
      end
  end.

(** The rows that are no array and no object: lines 25 and 57. *)
Definition is_primitive_row (r : Row.t) : bool :=
  negb (Row.type r =? "array") && negb (Row.type r =? "object").

(** The row sets the key [k] of the object built from the rows. *)
Definition sets_key (r : Row.t) (k : string) : bool :=
  is_primitive_row r &&
  match Row.key r with
  | Some s => negb (s =? "") && (s =? k)
  | None => false
  end.

(** The value the rows show under [k]: that of the last row that sets it. *)
Definition shown (rows : list Row.t) (k : string) : option value :=
  fold_left (fun acc r => if sets_key r k then Some (scalar_value (Row.value r)) else acc)
            rows None.

(** A row as a JSON document has it: a value that JSON can write and read
    back, under a key other than the accessor name [__proto__]. *)
Definition json_row (r : Row.t) : bool :=
  json_value (scalar_value (Row.value r)) &&
  match Row.key r with
  | Some s => negb (s =? "__proto__")
  | None => true
  end.

(** One round of the loop of lines 24-28 on the properties of an ordinary
    object. *)
Definition rows_step (ps : properties) (r : Row.t) : properties :=
  if is_primitive_row r then
    match Row.key r with
    | Some k => if k =? "" then ps else define k (scalar_value (Row.value r)) ps
    | None => ps
    end
  else ps.

(** The type tag of a value. *)
Definition type_tag (v : scalar) : string :=
  match v with
  | SNull => "null"
  | SBool _ => "boolean"
  | SNumber _ => "number"
  | SString _ => "string"
  end.

(** A row of primitive type carries the tag of its value. *)
Definition typed_row (r : Row.t) : bool :=
  negb (is_primitive_row r) || (Row.type r =? type_tag (Row.value r)).

(** The properties of an object target after lines 144-154: the keys to
    delete removed, then the keys of the coerced mapping defined, in order. *)
Definition merge_properties (fields : list Field.t) (ps ops : properties) : properties :=
  fold_left (fun t k => match lookup k ops with Some x => define k x t | None => t end)
            (map fst ops)
            (fold_left (fun t k => remove k t) (filter (to_delete fields ps) (map fst ps)) ps).

(** The characters of a number written without an exponent, the sign apart. *)
Definition numeric_char (c : ascii) : bool := is_digit c || (c =? ".")%char.

(** The states the user can reach from a state, by controls rendered in the
    state they are used in. *)
Inductive reaches : State.t -> list event -> State.t -> Prop :=
| reaches_nil s : reaches s [] s
| reaches_cons s e es s' :
    offered s e = true -> reaches (handle s e) es s' -> reaches s (e :: es) s'.

(** The state lines 52-64 set for a selected node. *)
Definition initial (rows : list Row.t) (s : State.t) : Prop :=
  State.editing s = false /\
  normalizeNodeData rows = Ret (Some (State.editText s)) /\
  State.fields s = initialFields rows /\
  State.error s = None.

(** The first field has no key: the field of a bare scalar. *)
Definition first_unkeyed (l : list Field.t) : Prop :=
  match l with
  | f :: _ => Field.key f = None
  | [] => False
  end.

(** The controls that change the fields or the text. *)
Definition is_input (e : event) : bool :=
  match e with
  | EditClicked | CancelClicked => false
  | _ => true
  end.

End NodeModal.

Import JS NodeModal.

(** * Facts about the runtime model *)

Section PropertyLists.

Implicit Types (k : string) (x : value) (ps : properties).

Lemma lookup_replace_same k x ps :
  lookup k ps <> None -> lookup k (replace k x ps) = Some x.
Proof.
  induction ps as [|[k' x'] r IH]; simpl; [congruence|].
  destruct (String.eqb_spec k' k) as [->|Hne]; simpl.
  - now rewrite String.eqb_refl.
  - intros H. destruct (String.eqb_spec k' k); [contradiction|]. now apply IH.
Qed.

Lemma lookup_replace_other k k' x ps :
  k' <> k -> lookup k' (replace k x ps) = lookup k' ps.
Proof.
  intros Hne. induction ps as [|[k0 x0] r IH]; simpl; [reflexivity|].
  destruct (String.eqb_spec k0 k) as [->|Hk]; simpl.
  - destruct (String.eqb_spec k k'); [congruence|reflexivity].
  - now rewrite IH.
Qed.

Lemma lookup_remove_same k ps : lookup k (remove k ps) = None.
Proof.
  induction ps as [|[k' x'] r IH]; simpl; [reflexivity|].
  destruct (String.eqb_spec k' k) as [->|Hne]; simpl; [exact IH|].
  destruct (String.eqb_spec k' k); [contradiction|exact IH].
Qed.

Lemma lookup_remove_other k k' ps :
  k' <> k -> lookup k' (remove k ps) = lookup k' ps.
Proof.
  intros Hne. induction ps as [|[k0 x0] r IH]; simpl; [reflexivity|].
  destruct (String.eqb_spec k0 k) as [->|Hk]; simpl.
  - destruct (String.eqb_spec k k'); [congruence|exact IH].
  - now rewrite IH.
Qed.

Lemma lookup_app k ps qs :
  lookup k (ps ++ qs)%list =
  match lookup k ps with Some x => Some x | None => lookup k qs end.
Proof.
  induction ps as [|[k' x'] r IH]; simpl; [reflexivity|].
  now destruct (k' =? k).
Qed.

Lemma lookup_insert_index i k k' x ps :
  lookup k ps = None ->
  lookup k' (insert_index i k x ps) = if k =? k' then Some x else lookup k' ps.
Proof.
  induction ps as [|[k0 x0] r IH]; simpl; [reflexivity|].
  destruct (String.eqb_spec k0 k) as [->|Hk]; [discriminate|]. intros Hr.
  destruct (array_index k0) as [j|]; simpl; [|reflexivity].
  destruct (j <? i)%N; simpl; [|reflexivity].
  rewrite (IH Hr). destruct (String.eqb_spec k0 k') as [->|]; [|reflexivity].
  destruct (String.eqb_spec k k'); [congruence|reflexivity].
Qed.

Lemma lookup_define k k' x ps :
  lookup k' (define k x ps) = if k =? k' then Some x else lookup k' ps.
Proof.
  unfold define. destruct (lookup k ps) as [y|] eqn:Hk.
  - destruct (String.eqb_spec k k') as [<-|Hne].
    + apply lookup_replace_same. congruence.
    + apply lookup_replace_other. congruence.
  - destruct (array_index k) as [i|].
    + now apply lookup_insert_index.
    + rewrite lookup_app. simpl.
      destruct (String.eqb_spec k k') as [<-|Hne].
      * now rewrite Hk.
      * now destruct (lookup k' ps).
Qed.

Lemma lookup_In k x ps : lookup k ps = Some x -> In k (map fst ps).
Proof.
  induction ps as [|[k' x'] r IH]; simpl; [discriminate|].
  destruct (String.eqb_spec k' k); auto.
Qed.

Lemma In_lookup k ps : In k (map fst ps) -> exists x, lookup k ps = Some x.
Proof.
  induction ps as [|[k' x'] r IH]; simpl; [contradiction|].
  destruct (String.eqb_spec k' k) as [->|Hne]; [eauto|].
  intros [H|H]; [contradiction|auto].
Qed.

Lemma lookup_store_property k k' f ps :
  lookup k' (store_property k f ps) =
  if k =? k' then option_map f (lookup k' ps) else lookup k' ps.
Proof.
  induction ps as [|[k0 x0] r IH]; simpl; [now destruct (k =? k')|].
  destruct (String.eqb_spec k0 k) as [->|Hk]; simpl.
  - now destruct (k =? k').
  - rewrite IH. destruct (String.eqb_spec k0 k') as [->|]; [|reflexivity].
    destruct (String.eqb_spec k k'); [congruence|reflexivity].
Qed.

Lemma store_property_replace k x ps :
  store_property k (fun _ => x) ps = replace k x ps.
Proof.
  induction ps as [|[k0 x0] r IH]; simpl; [reflexivity|].
  destruct (k0 =? k); [reflexivity|now rewrite IH].
Qed.

End PropertyLists.

Section Arrays.

Implicit Types (l : list value) (x : value) (i j : nat).

Lemma array_index_key k n : array_index k = Some n -> k = string_of_N n.
Proof.
  unfold array_index. destruct k as [|c r]; [discriminate|].
  destruct (all_chars is_digit (String c r)); [|discriminate].
  destruct (String.eqb_spec (string_of_N (radix_value 10 0 (String c r))) (String c r)) as [E|];
    simpl; [|discriminate].
  destruct (_ <? _)%N; [|discriminate].
  intros H. injection H as <-. now symmetry.
Qed.

Lemma array_index_inj k k' n :
  array_index k = Some n -> array_index k' = Some n -> k = k'.
Proof.
  intros H H'. apply array_index_key in H, H'. congruence.
Qed.

Lemma nth_error_nth l i c : nth_error l i = Some c -> nth i l VUndefined = c.
Proof.
  revert i. induction l as [|y r IH]; intros [|i]; simpl; try discriminate.
  - congruence.
  - apply IH.
Qed.

Lemma nth_error_none_nth l i : nth_error l i = None -> nth i l VUndefined = VUndefined.
Proof.
  revert i. induction l as [|y r IH]; intros [|i]; simpl; try discriminate; auto.
Qed.

Lemma nth_error_store_element i j f l :
  nth_error (store_element i f l) j =
  if (i =? j)%nat then option_map f (nth_error l j) else nth_error l j.
Proof.
  revert i j. induction l as [|y r IH]; intros i j.
  - destruct i, j; simpl; try reflexivity. now destruct (i =? j)%nat.
  - destruct i, j; simpl; try reflexivity. apply IH.
Qed.

Lemma array_store_existing l i x :
  (i < List.length l)%nat -> array_store l i x = store_element i (fun _ => x) l.
Proof.
  revert i. induction l as [|y r IH]; intros [|i]; simpl; try lia; auto.
  intros H. f_equal. apply IH. lia.
Qed.

Lemma nth_error_array_store_same l i x : nth_error (array_store l i x) i = Some x.
Proof.
  revert l. induction i as [|i IH]; intros [|y r]; simpl; auto.
Qed.

Lemma nth_error_array_store_other l i j x w :
  j <> i -> nth_error l j = Some w -> nth_error (array_store l i x) j = Some w.
Proof.
  revert l j. induction i as [|i IH]; intros [|y r] [|j]; simpl; try discriminate; try congruence.
  intros Hne. apply IH. congruence.
Qed.

Lemma store_element_ext i f g l c :
  nth_error l i = Some c -> f c = g c -> store_element i f l = store_element i g l.
Proof.
  revert i. induction l as [|y r IH]; intros [|i]; simpl; try discriminate.
  - intros [= ->] ->. reflexivity.
  - intros H E. f_equal. now apply IH.
Qed.

Lemma store_property_ext k f g ps c :
  lookup k ps = Some c -> f c = g c -> store_property k f ps = store_property k g ps.
Proof.
  induction ps as [|[k0 x0] r IH]; simpl; [discriminate|].
  destruct (k0 =? k).
  - intros [= ->] ->. reflexivity.
  - intros H E. f_equal. now apply IH.
Qed.

End Arrays.

(** * Walking, locating and storing *)

Section Locations.

Implicit Types (root v x : value) (p o : list segment).

Lemma locate_app root p1 p2 :
  locate root (p1 ++ p2)%list =
  match locate root p1 with Some c => locate c p2 | None => None end.
Proof.
  revert root. induction p1 as [|seg rest IH]; intros root; simpl; [reflexivity|].
  destruct root; try reflexivity.
  - destruct (array_index _); [|reflexivity]. destruct (nth_error _ _); [apply IH|reflexivity].
  - destruct (lookup _ _); [apply IH|reflexivity].
Qed.

(** A location of the tree is what the walk of line 86 reaches. *)
Lemma locate_walk root p v : locate root p = Some v -> walk root p = Ret v.
Proof.
  revert root. induction p as [|seg rest IH]; intros root; simpl.
  - congruence.
  - destruct root; try discriminate.
    + destruct (array_index _) as [i|] eqn:Hi; [|discriminate].
      destruct (nth_error _ _) as [c|] eqn:Hc; [|discriminate].
      intros H. simpl. rewrite Hi, (nth_error_nth _ _ _ Hc). simpl. now apply IH.
    + destruct (lookup _ _) as [c|] eqn:Hc; [|discriminate].
      intros H. simpl. rewrite Hc. simpl. now apply IH.
Qed.

Lemma missing_scalar k w : missing k = Ret w -> w = VUndefined.
Proof. unfold missing. destruct (inherited k); congruence. Qed.

Lemma get_scalar v k w :
  scalar_or_undefined v = true -> get v k = Ret w -> scalar_or_undefined w = true.
Proof.
  destruct v; simpl; try discriminate; intros _.
  - intros H. apply missing_scalar in H. now subst.
  - intros H. apply missing_scalar in H. now subst.
  - destruct (array_index k).
    + destruct (String.get _ _); intros [= <-]; reflexivity.
    + destruct (k =? "length"); [intros [= <-]; reflexivity|].
      intros H. apply missing_scalar in H. now subst.
Qed.

(** A walk that enters a scalar stays among scalars. *)
Lemma walk_scalar v p w :
  scalar_or_undefined v = true -> walk v p = Ret w -> scalar_or_undefined w = true.
Proof.
  revert v. induction p as [|seg rest IH]; intros v Hv; simpl.
  - congruence.
  - destruct (get v (property_key seg)) as [c| |] eqn:Hg; simpl; try discriminate.
    apply IH. eapply get_scalar; eauto.
Qed.

(** An object or an array that a walk returns sits in the tree, at the path
    walked. *)
Lemma walk_container_locate root p w :
  walk root p = Ret w -> scalar_or_undefined w = false -> locate root p = Some w.
Proof.
  revert root. induction p as [|seg rest IH]; intros root; simpl.
  - congruence.
  - destruct (get root (property_key seg)) as [c| |] eqn:Hg; simpl; try discriminate.
    intros Hw Hs.
    assert (Hc : scalar_or_undefined c = false).
    { destruct (scalar_or_undefined c) eqn:E; [|reflexivity].
      rewrite (walk_scalar _ _ _ E Hw) in Hs. discriminate. }
    destruct root;
      try (apply get_scalar in Hg; [congruence|reflexivity]);
      simpl in Hg.
    + destruct (array_index _) as [i|].
      * destruct (nth_error elements (N.to_nat i)) as [c'|] eqn:Hn.
        -- rewrite (nth_error_nth _ _ _ Hn) in Hg. injection Hg as ->. now apply IH.
        -- rewrite (nth_error_none_nth _ _ Hn) in Hg. injection Hg as <-. discriminate.
      * destruct (_ =? "length"); [injection Hg as <-; discriminate|].
        apply missing_scalar in Hg. subst. discriminate.
    + destruct (lookup _ _) as [c'|].
      * injection Hg as ->. now apply IH.
      * destruct proto; [apply missing_scalar in Hg|injection Hg as Hg]; subst; discriminate.
Qed.

Lemma locate_store_same root p old x :
  locate root p = Some old -> locate (store root p x) p = Some x.
Proof.
  revert root. induction p as [|seg rest IH]; intros root; simpl; [reflexivity|].
  destruct root; try discriminate.
  - destruct (array_index _) as [i|] eqn:Hi; [|discriminate].
    destruct (nth_error _ _) as [c|] eqn:Hc; [|discriminate].
    intros H. rewrite nth_error_store_element, Nat.eqb_refl, Hc. simpl. now apply IH.
  - destruct (lookup _ _) as [c|] eqn:Hc; [|discriminate].
    intros H. rewrite lookup_store_property, String.eqb_refl, Hc. simpl. now apply IH.
Qed.

(** Frame: a store at [p] changes no location apart from [p]. *)
Lemma locate_store_apart root p o x :
  apart p o = true -> locate (store root p x) o = locate root o.
Proof.
  revert root o. induction p as [|seg rest IH]; intros root [|t o']; simpl; try discriminate.
  destruct (String.eqb_spec (property_key seg) (property_key t)) as [E|Hne]; intros Ha.
  - destruct root; try reflexivity.
    + rewrite E. destruct (array_index (property_key t)) as [i|] eqn:Hi; [|reflexivity].
      rewrite nth_error_store_element, Nat.eqb_refl.
      destruct (nth_error _ _); simpl; [now apply IH|reflexivity].
    + rewrite lookup_store_property, E, String.eqb_refl.
      destruct (lookup _ _); simpl; [now apply IH|reflexivity].
  - destruct root; try reflexivity.
    + destruct (array_index (property_key seg)) as [i|] eqn:Hi; [|reflexivity].
      destruct (array_index (property_key t)) as [j|] eqn:Hj; [|reflexivity].
      rewrite nth_error_store_element.
      destruct (Nat.eqb_spec (N.to_nat i) (N.to_nat j)) as [Eij|]; [|reflexivity].
      apply N2Nat.inj in Eij. subst j. elim Hne. eapply array_index_inj; eauto.
    + rewrite lookup_store_property.
      destruct (String.eqb_spec (property_key seg) (property_key t)); [contradiction|reflexivity].
Qed.

Lemma store_app root p1 p2 c x :
  locate root p1 = Some c -> store root (p1 ++ p2)%list x = store root p1 (store c p2 x).
Proof.
  revert root. induction p1 as [|seg rest IH]; intros root; simpl.
  - congruence.
  - destruct root; try discriminate.
    + destruct (array_index _) as [i|]; [|discriminate].
      destruct (nth_error _ _) as [c0|] eqn:Hc; [|discriminate].
      intros H. f_equal. eapply store_element_ext; eauto.
    + destruct (lookup _ _) as [c0|] eqn:Hc; [|discriminate].
      intros H. f_equal. eapply store_property_ext; eauto.
Qed.

End Locations.

(** * The path editor *)

Section PathEditor.

Implicit Types (root parent v x : value) (p pp o : list segment) (last : segment).

Lemma applyEdit_root rawJson root x :
  JSON_parse rawJson = Ret root ->
  applyEdit rawJson None x = JSON_stringify 2 x /\
  applyEdit rawJson (Some []) x = JSON_stringify 2 x.
Proof. intros H. unfold applyEdit. rewrite H. now split. Qed.

(** [applyEdit] on a path with a last segment, the slices of lines 82-83
    resolved. *)
Lemma applyEdit_steps rawJson root pp last x :
  JSON_parse rawJson = Ret root ->
  applyEdit rawJson (Some (pp ++ [last])%list) x =
  (parent <- walk root pp ;;
   if typeof parent =? "undefined" then Throw InvalidPath
   else parent' <- set parent (property_key last) x ;;
        JSON_stringify 2 (store root pp parent')).
Proof.
  intros H. unfold applyEdit. rewrite H. cbn [bind].
  destruct (pp ++ [last])%list as [|seg0 more] eqn:E.
  - now destruct pp.
  - cbv beta iota zeta. rewrite <- E, removelast_last, last_last. reflexivity.
Qed.

Lemma container_typeof v : scalar_or_undefined v = false -> typeof v = "object".
Proof. destruct v; simpl; congruence. Qed.

(** An object or an array serialises to a text. *)
Lemma JSON_stringify_container space v :
  scalar_or_undefined v = false -> exists text, JSON_stringify space v = Ret (Some text).
Proof. destruct v; try discriminate; intros _; eexists; reflexivity. Qed.

Lemma store_container root p x :
  scalar_or_undefined root = false -> p <> [] -> scalar_or_undefined (store root p x) = false.
Proof.
  destruct p as [|seg rest]; [congruence|]. intros Hroot _.
  destruct root; try discriminate; simpl; [|reflexivity].
  now destruct (array_index _).
Qed.

Lemma locate_container root p old :
  locate root p = Some old -> p <> [] -> scalar_or_undefined root = false.
Proof.
  destruct p as [|seg rest]; [congruence|]. destruct root; simpl; congruence.
Qed.

Lemma container_of_child parent last old :
  locate parent [last] = Some old -> scalar_or_undefined parent = false.
Proof. destruct parent; simpl; congruence. Qed.

(** An assignment to an existing property or element is a store one level
    down. *)
Lemma set_existing parent last old x :
  locate parent [last] = Some old ->
  set parent (property_key last) x = Ret (store parent [last] x).
Proof.
  destruct parent; simpl; try discriminate.
  - destruct (array_index _) as [i|]; [|discriminate].
    destruct (nth_error _ _) as [c|] eqn:Hc; [|discriminate]. intros _.
    rewrite array_store_existing; [reflexivity|].
    apply nth_error_Some. congruence.
  - destruct (lookup _ _) as [c|]; [|discriminate]. intros _.
    now rewrite store_property_replace.
Qed.

Lemma applyEdit_existing rawJson root pp last old x :
  JSON_parse rawJson = Ret root ->
  locate root (pp ++ [last])%list = Some old ->
  applyEdit rawJson (Some (pp ++ [last])%list) x =
  JSON_stringify 2 (store root (pp ++ [last])%list x).
Proof.
  intros Hparse Hloc. rewrite (applyEdit_steps _ _ _ _ _ Hparse).
  rewrite locate_app in Hloc.
  destruct (locate root pp) as [parent|] eqn:Hp; [|discriminate].
  rewrite (locate_walk _ _ _ Hp). simpl bind.
  rewrite (container_typeof _ (container_of_child _ _ _ Hloc)). simpl.
  rewrite (set_existing _ _ _ x Hloc). simpl bind.
  now rewrite (store_app _ _ _ _ _ Hp).
Qed.

Lemma path_snoc p : p <> [] -> exists pp last, p = (pp ++ [last])%list.
Proof.
  intros H. destruct (exists_last H) as (pp & last & ->). eauto.
Qed.

(** What is not undefined passes the check of line 91. *)
Lemma takes_new_typeof parent k : takes_new parent k = true -> typeof parent = "object".
Proof. destruct parent; simpl; congruence. Qed.

(** An assignment that creates a property or an element. *)
Lemma set_new parent last x :
  takes_new parent (property_key last) = true ->
  exists parent',
    set parent (property_key last) x = Ret parent' /\
    locate parent' [last] = Some x /\
    forall t o w,
      property_key t <> property_key last ->
      locate parent (t :: o) = Some w -> locate parent' (t :: o) = Some w.
Proof.
  destruct parent; simpl; try discriminate.
  - destruct (array_index (property_key last)) as [i|] eqn:Hi; [|discriminate]. intros _.
    eexists. split; [reflexivity|]. split.
    + simpl. rewrite ?Hi. now rewrite nth_error_array_store_same.
    + intros t o w Hne. simpl.
      destruct (array_index (property_key t)) as [j|] eqn:Hj; [|discriminate].
      destruct (nth_error elements (N.to_nat j)) as [c|] eqn:Hc; [|discriminate].
      rewrite (nth_error_array_store_other _ _ _ _ c); auto.
      intros E. apply N2Nat.inj in E. subst j. apply Hne. eapply array_index_inj; eauto.
  - destruct (lookup (property_key last) props) as [c|] eqn:Hc; [discriminate|].
    assert (Hdef : forall t o w,
               property_key t <> property_key last ->
               locate (VObject proto props) (t :: o) = Some w ->
               locate (VObject proto (define (property_key last) x props)) (t :: o) = Some w).
    { intros t o w Hne. simpl. rewrite lookup_define.
      destruct (String.eqb_spec (property_key last) (property_key t)); [congruence|auto]. }
    assert (Hnew : locate (VObject proto (define (property_key last) x props)) [last] = Some x).
    { simpl. now rewrite lookup_define, String.eqb_refl. }
    destruct proto.
    + destruct (property_key last =? "__proto__") eqn:E; [discriminate|]. intros _. eauto.
    + intros _. eauto.
Qed.

(** Frame for a change confined to the properties of [parent] other than
    [last]: what was located apart from [pp ++ [last]] stays. *)
Lemma store_parent_frame root pp last parent parent' o w :
  locate root pp = Some parent ->
  (forall t o' w',
      property_key t <> property_key last ->
      locate parent (t :: o') = Some w' -> locate parent' (t :: o') = Some w') ->
  apart (pp ++ [last])%list o = true ->
  locate root o = Some w ->
  locate (store root pp parent') o = Some w.
Proof.
  intros Hp Hframe. revert root o Hp. induction pp as [|seg rest IH]; intros root o Hp Ha Ho.
  - simpl in Hp. injection Hp as ->. simpl in *.
    destruct o as [|t o']; [discriminate|].
    destruct (String.eqb_spec (property_key last) (property_key t)) as [E|Hne].
    + now destruct o'.
    + apply Hframe; auto.
  - destruct o as [|t o']; [discriminate|].
    simpl in Ha.
    destruct (String.eqb_spec (property_key seg) (property_key t)) as [E|Hne].
    + simpl in Hp, Ho |- *. destruct root; try discriminate.
      * rewrite E in *. destruct (array_index (property_key t)) as [i|]; [|discriminate].
        rewrite nth_error_store_element, Nat.eqb_refl.
        destruct (nth_error _ _) as [c|]; [|discriminate]. simpl. now apply IH.
      * rewrite lookup_store_property, E, String.eqb_refl. rewrite E in Hp.
        destruct (lookup _ _) as [c|]; [|discriminate]. simpl. now apply IH.
    + rewrite locate_store_apart; [assumption|].
      simpl. destruct (String.eqb_spec (property_key seg) (property_key t)); [contradiction|reflexivity].
Qed.

Lemma applyEdit_new rawJson root pp last parent x :
  JSON_parse rawJson = Ret root ->
  locate root pp = Some parent ->
  takes_new parent (property_key last) = true ->
  exists root' text,
    applyEdit rawJson (Some (pp ++ [last])%list) x = Ret (Some text) /\
    JSON_stringify 2 root' = Ret (Some text) /\
    locate root' (pp ++ [last])%list = Some x /\
    forall o w, apart (pp ++ [last])%list o = true ->
                locate root o = Some w -> locate root' o = Some w.
Proof.
  intros Hparse Hp Hnew.
  destruct (set_new _ _ x Hnew) as (parent' & Hset & Hx & Hframe).
  assert (Hrun : applyEdit rawJson (Some (pp ++ [last])%list) x
                 = JSON_stringify 2 (store root pp parent')).
  { rewrite (applyEdit_steps _ _ _ _ _ Hparse), (locate_walk _ _ _ Hp). simpl bind.
    rewrite (takes_new_typeof _ _ Hnew). simpl. now rewrite Hset. }
  assert (Hroot' : scalar_or_undefined (store root pp parent') = false).
  { destruct pp as [|seg rest].
    - simpl. eapply container_of_child; eauto.
    - apply store_container; [|discriminate]. eapply locate_container; eauto. discriminate. }
  destruct (JSON_stringify_container 2 _ Hroot') as (text & Htext).
  exists (store root pp parent'), text. split; [|split; [|split]].
  - now rewrite Hrun.
  - exact Htext.
  - rewrite locate_app, (locate_store_same _ _ _ _ Hp). exact Hx.
  - intros o w. eapply store_parent_frame; eauto.
Qed.

End PathEditor.

(** * Loops *)

Section Loops.

Context {A S : Type}.
Implicit Types (l : list A) (body : A -> S -> outcome S) (s : S).

(** A loop whose every round completes and keeps [P] completes and keeps [P]. *)
Lemma forEach_invariant (P : S -> Prop) l body s :
  P s ->
  (forall a s0, In a l -> P s0 -> exists s1, body a s0 = Ret s1 /\ P s1) ->
  exists s', forEach l body s = Ret s' /\ P s'.
Proof.
  revert s. induction l as [|a r IH]; intros s Hs Hbody; simpl.
  - eauto.
  - destruct (Hbody a s (or_introl eq_refl) Hs) as (s1 & -> & Hs1). simpl.
    apply IH; auto. intros a0 s0 Hin. apply Hbody. now right.
Qed.

(** Rounds that change nothing can be left out. *)
Lemma forEach_filter (keep : A -> bool) l body s :
  (forall a s0, keep a = false -> body a s0 = Ret s0) ->
  forEach (filter keep l) body s = forEach l body s.
Proof.
  intros Hskip. revert s. induction l as [|a r IH]; intros s; simpl; [reflexivity|].
  destruct (keep a) eqn:E; simpl.
  - destruct (body a s); simpl; auto.
  - rewrite (Hskip _ _ E). simpl. apply IH.
Qed.

Lemma forEach_ext l body body' s :
  (forall a s0, In a l -> body a s0 = body' a s0) ->
  forEach l body s = forEach l body' s.
Proof.
  revert s. induction l as [|a r IH]; intros s H; simpl; [reflexivity|].
  rewrite (H a s (or_introl eq_refl)). destruct (body' a s); simpl; auto.
  apply IH. intros; apply H; now right.
Qed.

(** A loop of total, pure rounds is a fold. *)
Lemma forEach_fold l (step : S -> A -> S) s :
  forEach l (fun a s0 => Ret (step s0 a)) s = Ret (fold_left step l s).
Proof. revert s. induction l as [|a r IH]; intros s; simpl; auto. Qed.

End Loops.

(** * The objects built from rows and fields *)

Section Builders.

Lemma scalar_value_scalar s : scalar_or_undefined (scalar_value s) = true.
Proof. now destruct s. Qed.

Lemma coerce_scalar f : scalar_or_undefined (coerce f) = true.
Proof.
  unfold coerce.
  destruct (Field.type f =? "number"); [now destruct (Number_isNaN _)|].
  destruct (Field.type f =? "boolean").
  - destruct (_ =? "true"); [reflexivity|]. now destruct (_ =? "false").
  - now destruct (Field.type f =? "null").
Qed.

(** Assigning a primitive to a property of an object completes, whatever the
    key; the properties afterwards are the old ones, or the old ones with the
    key defined. *)
Lemma set_object_scalar p ps k x :
  scalar_or_undefined x = true ->
  exists p' ps',
    set (VObject p ps) k x = Ret (VObject p' ps') /\
    (ps' = ps \/ ps' = define k x ps).
Proof.
  intros Hx. simpl. destruct (lookup k ps) as [y|] eqn:Hk.
  - do 2 eexists. split; [reflexivity|]. right. unfold define. now rewrite Hk.
  - destruct p.
    + destruct (k =? "__proto__").
      * unfold set_prototype. destruct x; try discriminate; simpl; eauto.
      * eauto.
    + eauto.
Qed.

Lemma set_object_define p ps k x :
  (k =? "__proto__") = false ->
  set (VObject p ps) k x = Ret (VObject p (define k x ps)).
Proof.
  intros Hk. simpl. unfold define. destruct (lookup k ps); [reflexivity|].
  rewrite Hk. now destruct p.
Qed.

(** The object built from the fields exists, and each of its keys is the
    key of a field. *)
Lemma updatedObj_total fields :
  exists p ps,
    updatedObj fields = Ret (VObject p ps) /\
    forall k x, lookup k ps = Some x -> some_field_has_key fields k = true.
Proof.
  unfold updatedObj.
  destruct (forEach_invariant
              (fun obj => is_object obj /\
                          forall k x, lookup k (own_properties obj) = Some x ->
                                      some_field_has_key fields k = true)
              fields
              (fun f obj =>
                 match Field.key f with
                 | Some k => if k =? "" then Ret obj else set obj k (coerce f)
                 | None => Ret obj
                 end)
              empty_object) as (obj & Hrun & Hobj & Hkeys).
  - split; [exact I|]. simpl. discriminate.
  - intros f obj Hin [Hobj Hkeys].
    destruct (Field.key f) as [k|] eqn:Hk; [|eauto].
    destruct (k =? ""); [eauto|].
    destruct obj as [| | | | | |p ps]; try contradiction.
    destruct (set_object_scalar p ps k (coerce f) (coerce_scalar f)) as (p' & ps' & -> & Hps).
    eexists. split; [reflexivity|]. split; [exact I|].
    simpl. intros k0 x0. destruct Hps as [->| ->]; [apply Hkeys|].
    rewrite lookup_define. destruct (String.eqb_spec k k0) as [<-|]; [|apply Hkeys].
    intros _. unfold some_field_has_key. apply existsb_exists.
    exists f. split; [assumption|]. now rewrite Hk, String.eqb_refl.
  - destruct obj; try contradiction. eauto.
Qed.

(** The object built from the rows exists. *)
Lemma rowsObject_total rows : exists p ps, rowsObject rows = Ret (VObject p ps).
Proof.
  unfold rowsObject.
  destruct (forEach_invariant is_object rows
              (fun row obj =>
                 if negb (Row.type row =? "array") && negb (Row.type row =? "object") then
                   match Row.key row with
                   | Some k => if k =? "" then Ret obj
                               else set obj k (scalar_value (Row.value row))
                   | None => Ret obj
                   end
                 else Ret obj)
              empty_object) as (obj & Hrun & Hobj).
  - exact I.
  - intros row obj _ Hobj.
    destruct (negb _ && negb _); [|eauto].
    destruct (Row.key row) as [k|]; [|eauto].
    destruct (k =? ""); [eauto|].
    destruct obj as [| | | | | |p ps]; try contradiction.
    destruct (set_object_scalar p ps k _ (scalar_value_scalar (Row.value row)))
      as (p' & ps' & -> & _).
    eexists. split; [reflexivity|exact I].
  - destruct obj; try contradiction. eauto.
Qed.

End Builders.

(** * Field sync on an object target *)

Section FieldSync.

Variable fields : list Field.t.
Implicit Types (ps ops t : properties) (k : string).

Lemma existsb_eqb_In k ks : existsb (String.eqb k) ks = true <-> In k ks.
Proof.
  rewrite existsb_exists. split.
  - intros (k' & Hin & E). apply String.eqb_eq in E. now subst.
  - intros Hin. exists k. split; [assumption|apply String.eqb_refl].
Qed.

Lemma get_own pr ps k v : lookup k ps = Some v -> get (VObject pr ps) k = Ret v.
Proof. intros H. simpl. now rewrite H. Qed.

(** Lines 145-151. *)
Lemma keysToDelete_run pr ps ks acc :
  incl ks (map fst ps) ->
  forEach ks
    (fun k acc =>
       val <- get (VObject pr ps) k ;;
       if primitive_valued val then
         if negb (some_field_has_key fields k) then Ret (acc ++ [k])%list else Ret acc
       else Ret acc)
    acc
  = Ret (acc ++ filter (to_delete fields ps) ks)%list.
Proof.
  revert acc. induction ks as [|k r IH]; intros acc Hin; cbn [forEach].
  - simpl. now rewrite app_nil_r.
  - destruct (In_lookup k ps (Hin k (or_introl eq_refl))) as (v & Hv).
    assert (Hr : incl r (map fst ps)) by (intros a Ha; apply Hin; now right).
    assert (Hd : to_delete fields ps k
                 = primitive_valued v && negb (some_field_has_key fields k))
      by (unfold to_delete; now rewrite Hv).
    rewrite (get_own pr ps k v Hv). cbn [bind]. simpl filter. rewrite Hd.
    destruct (primitive_valued v); simpl andb.
    + destruct (negb (some_field_has_key fields k)).
      * cbn [bind]. rewrite (IH _ Hr). now rewrite <- app_assoc.
      * cbn [bind]. apply (IH _ Hr).
    + cbn [bind]. apply (IH _ Hr).
Qed.

(** Line 153. *)
Lemma delete_run pr ps kd :
  forEach kd (fun k tgt => delete tgt k) (VObject pr ps)
  = Ret (VObject pr (fold_left (fun t k => remove k t) kd ps)).
Proof. revert ps. induction kd as [|k r IH]; intros ps; simpl; auto. Qed.

Lemma lookup_fold_remove k kd ps :
  lookup k (fold_left (fun t k => remove k t) kd ps) =
  if existsb (String.eqb k) kd then None else lookup k ps.
Proof.
  revert ps. induction kd as [|a r IH]; intros ps; simpl; [reflexivity|].
  rewrite IH. destruct (String.eqb_spec k a) as [->|Hne]; simpl.
  - rewrite lookup_remove_same. now destruct (existsb _ r).
  - now rewrite lookup_remove_other.
Qed.

(** Line 154. *)
Lemma set_run pr opr ops uks t :
  (forall k, In k uks -> (k =? "__proto__") = false) ->
  incl uks (map fst ops) ->
  forEach uks (fun k tgt => x <- get (VObject opr ops) k ;; set tgt k x) (VObject pr t)
  = Ret (VObject pr
           (fold_left (fun t k => match lookup k ops with
                                  | Some x => define k x t
                                  | None => t
                                  end) uks t)).
Proof.
  revert t. induction uks as [|k r IH]; intros t Hk Hin; cbn [forEach]; [reflexivity|].
  destruct (In_lookup k ops (Hin k (or_introl eq_refl))) as (x & Hx).
  rewrite (get_own opr ops k x Hx). cbn [bind].
  rewrite (set_object_define pr t k x (Hk k (or_introl eq_refl))). cbn [bind].
  simpl fold_left. rewrite Hx. apply IH.
  - intros a Ha. apply Hk. now right.
  - intros a Ha. apply Hin. now right.
Qed.

Lemma lookup_fold_define k ops uks t :
  lookup k (fold_left (fun t k => match lookup k ops with
                                  | Some x => define k x t
                                  | None => t
                                  end) uks t) =
  match (if existsb (String.eqb k) uks then lookup k ops else None) with
  | Some x => Some x
  | None => lookup k t
  end.
Proof.
  revert t. induction uks as [|a r IH]; intros t; simpl; [reflexivity|].
  rewrite IH. destruct (String.eqb_spec k a) as [->|Hne]; simpl.
  - destruct (lookup a ops) as [x|] eqn:Hx.
    + rewrite lookup_define, String.eqb_refl. now destruct (existsb _ r).
    + now destruct (existsb _ r).
  - destruct (if existsb (String.eqb k) r then lookup k ops else None); [reflexivity|].
    destruct (lookup a ops); [|reflexivity].
    rewrite lookup_define. destruct (String.eqb_spec a k); [congruence|reflexivity].
Qed.

Lemma existsb_filter_to_delete ps k :
  existsb (String.eqb k) (filter (to_delete fields ps) (map fst ps)) = to_delete fields ps k.
Proof.
  destruct (to_delete fields ps k) eqn:E.
  - apply existsb_eqb_In, filter_In. split; [|assumption].
    unfold to_delete in E. destruct (lookup k ps) eqn:Hk; [|discriminate].
    eapply lookup_In; eauto.
  - destruct (existsb _ _) eqn:E'; [|reflexivity].
    apply existsb_eqb_In, filter_In in E'. destruct E' as [_ E']. congruence.
Qed.

(** The keyed branch on an object target: the document returned is the old
    one with the target's properties merged. *)
Lemma syncFields_object currentJson path root pr ps opr ops :
  JSON_parse currentJson = Ret root ->
  walk root (path_or_root path) = Ret (VObject pr ps) ->
  updatedObj fields = Ret (VObject opr ops) ->
  lookup "__proto__" ops = None ->
  exists ps',
    syncFields currentJson path fields
      = JSON_stringify 2 (store root (path_or_root path) (VObject pr ps')) /\
    locate (store root (path_or_root path) (VObject pr ps')) (path_or_root path)
      = Some (VObject pr ps') /\
    forall k, lookup k ps' = merged fields ps ops k.
Proof.
  intros Hparse Hwalk Hobj Hproto.
  eexists. split; [|split].
  - unfold syncFields. rewrite Hobj. cbn [bind]. rewrite Hparse. cbn [bind].
    rewrite Hwalk. cbn [bind]. simpl typeof. simpl negb. simpl orb. cbv iota.
    simpl Object_keys. cbn [bind].
    rewrite (keysToDelete_run pr ps (map fst ps) [] (incl_refl _)). cbn [bind]. simpl app.
    rewrite delete_run. cbn [bind].
    rewrite set_run.
    + cbn [bind]. reflexivity.
    + intros k Hin. destruct (String.eqb_spec k "__proto__") as [->|]; [|reflexivity].
      apply In_lookup in Hin. destruct Hin as (x & Hx). congruence.
    + apply incl_refl.
  - eapply locate_store_same. apply walk_container_locate; eauto.
  - intros k. rewrite lookup_fold_define, lookup_fold_remove, existsb_filter_to_delete.
    unfold merged. destruct (existsb (String.eqb k) (map fst ops)) eqn:E.
    + reflexivity.
    + destruct (lookup k ops) as [x|] eqn:Hx; [|reflexivity].
      apply lookup_In, existsb_eqb_In in Hx. congruence.
Qed.

End FieldSync.

(** * Texts: case and white space *)

Section Texts.

Lemma code_bound c : (code c < 256)%N.
Proof. apply N_ascii_bounded. Qed.







End Texts.

(** * Failures of a save do not come from the fields *)

Section Safety.

Context {A B : Type}.

Lemma safe_bind (P : A -> Prop) (Q : B -> Prop) (c : outcome A) (k : A -> outcome B) :
  safe P c -> (forall a, P a -> safe Q (k a)) -> safe Q (bind c k).
Proof. destruct c; simpl; auto. Qed.

Lemma safe_weaken (P P' : A -> Prop) (c : outcome A) :
  safe P c -> (forall a, P a -> P' a) -> safe P' c.
Proof. destruct c; simpl; auto. Qed.

Lemma safe_not_throw (P : A -> Prop) (c : outcome A) e : safe P c -> c <> Throw e.
Proof. destruct c; simpl; congruence. Qed.

End Safety.

Section LoopSafety.

Context {A S : Type}.

(** A loop whose rounds are safe and keep [P] is safe and keeps [P]. *)
Lemma forEach_safe (P : S -> Prop) (Q : A -> Prop) (l : list A)
    (body : A -> S -> outcome S) (s : S) :
  P s ->
  (forall a, In a l -> Q a) ->
  (forall a s0, Q a -> P s0 -> safe P (body a s0)) ->
  safe P (forEach l body s).
Proof.
  revert s. induction l as [|a r IH]; intros s Hs HQ Hbody; simpl; [assumption|].
  apply safe_bind with P.
  - apply Hbody; auto. apply HQ. now left.
  - intros s1 Hs1. apply IH; auto. intros a0 H0. apply HQ. now right.
Qed.

End LoopSafety.

Section SaveFailures.

Implicit Types (v x : value) (k : string).

Lemma set_prototype_safe v x : safe (fun v' => container v -> container v') (set_prototype v x).
Proof. unfold set_prototype. destruct v; simpl; auto; destruct x; simpl; auto. Qed.

(** Whether an assignment throws does not depend on the value assigned,
    the length of an array apart. *)
Lemma set_throw_independent v k x x' e :
  k <> "length" -> set v k x = Throw e -> set v k x' = Throw e.
Proof.
  intros Hk.
  assert (Hproto : set_prototype v x = Throw e -> set_prototype v x' = Throw e).
  { intros H. exfalso. revert H. eapply safe_not_throw, set_prototype_safe. }
  destruct v; simpl; try congruence.
  - destruct (k =? "__proto__"); [exact Hproto|congruence].
  - destruct (k =? "__proto__"); [exact Hproto|congruence].
  - destruct (k =? "__proto__"); [exact Hproto|congruence].
  - destruct (array_index k); [discriminate|].
    destruct (String.eqb_spec k "length"); [contradiction|].
    destruct (k =? "__proto__"); [exact Hproto|discriminate].
  - destruct (lookup k props); [discriminate|].
    destruct proto; [|discriminate].
    destruct (k =? "__proto__"); [exact Hproto|discriminate].
Qed.

Lemma missing_safe k : safe (fun _ => True) (missing k).
Proof. unfold missing. now destruct (inherited k). Qed.

Lemma get_container_safe v k : container v -> safe (fun _ => True) (get v k).
Proof.
  destruct v; simpl; try discriminate; intros _.
  - destruct (array_index k); [exact I|].
    destruct (k =? "length"); [exact I|apply missing_safe].
  - destruct (lookup k props); [exact I|].
    destruct proto; [apply missing_safe|exact I].
Qed.

Lemma set_prototype_kind v x :
  safe (fun v' => container v -> container v' /\ (is_object v -> is_object v'))
       (set_prototype v x).
Proof. unfold set_prototype. destruct v; simpl; auto; destruct x; simpl; auto. Qed.

(** An assignment to a property of an object, or of an array for a key other
    than [length], does not throw and keeps the kind of the value. *)
Lemma set_container_safe v k x :
  container v -> (is_object v \/ k <> "length") ->
  safe (fun v' => container v' /\ (is_object v -> is_object v')) (set v k x).
Proof.
  intros Hv Hk.
  assert (Hproto : safe (fun v' => container v' /\ (is_object v -> is_object v'))
                        (set_prototype v x)).
  { eapply safe_weaken; [apply set_prototype_kind|auto]. }
  destruct v; try discriminate; simpl.
  - destruct (array_index k); [split; [reflexivity|contradiction]|].
    destruct (String.eqb_spec k "length"); [destruct Hk; contradiction|].
    destruct (k =? "__proto__"); [exact Hproto|split; [reflexivity|contradiction]].
  - destruct (lookup k props); [split; [reflexivity|auto]|].
    destruct proto; [|split; [reflexivity|auto]].
    destruct (k =? "__proto__"); [exact Hproto|split; [reflexivity|auto]].
Qed.

Lemma string_of_N_not_length n : string_of_N n <> "length".
Proof. unfold string_of_N. destruct (N.to_uint n); discriminate. Qed.

Lemma element_keys_not_length i l k : In k (element_keys i l) -> k <> "length".
Proof.
  revert i. induction l as [|y r IH]; intros i; simpl; [contradiction|].
  destruct y; simpl; try (intros [<-|H]; [apply string_of_N_not_length|eauto]).
  eauto.
Qed.

(** The keys that line 153 deletes are among those gathered from the
    target. *)
Lemma keysToDelete_subset (fields : list Field.t) (target : value) ks acc kd :
  forEach ks
    (fun k acc =>
       val <- get target k ;;
       if primitive_valued val then
         if negb (some_field_has_key fields k) then Ret (acc ++ [k])%list else Ret acc
       else Ret acc)
    acc = Ret kd ->
  forall k, In k kd -> In k acc \/ In k ks.
Proof.
  revert acc. induction ks as [|k0 r IH]; intros acc; cbn [forEach].
  - intros [= <-]. auto.
  - destruct (get target k0) as [val| |]; cbn [bind]; try discriminate.
    destruct (primitive_valued val); [destruct (negb _)|]; cbn [bind];
      intros H k Hin; destruct (IH _ H k Hin) as [Ha|Hr]; simpl; auto.
    apply in_app_or in Ha. destruct Ha as [Ha|[<-|[]]]; auto.
Qed.

(** [delete] on an object, or on an array for a key other than [length],
    does not throw and keeps the kind of the value. *)
Lemma delete_container_safe v k :
  container v -> (is_object v \/ k <> "length") ->
  safe (fun v' => container v' /\ (is_object v -> is_object v')) (delete v k).
Proof.
  destruct v; try discriminate; simpl; intros _ Hk.
  - destruct (array_index k).
    + destruct (_ <? _)%nat; simpl; split; auto; reflexivity.
    + destruct (String.eqb_spec k "length"); [|simpl; split; auto; reflexivity].
      destruct Hk; contradiction.
  - split; auto; reflexivity.
Qed.

Lemma Object_keys_container target :
  container target ->
  exists ks, Object_keys target = Ret ks /\
             forall k, In k ks -> is_object target \/ k <> "length".
Proof.
  destruct target; try discriminate; intros _; simpl; eexists; (split; [reflexivity|]).
  - intros k Hin. right. eapply element_keys_not_length; eauto.
  - intros k _. now left.
Qed.

(** Lines 144-156 do not throw on an object, nor on an array when no key
    of the coerced mapping is [length]. *)
Lemma merge_safe (fields : list Field.t) (root target obj : value) p :
  container target ->
  is_object obj ->
  is_object target \/ lookup "length" (own_properties obj) = None ->
  safe (fun _ => True)
    (ks <- Object_keys target ;;
     keysToDelete <-
       forEach ks
         (fun k acc =>
            val <- get target k ;;
            if primitive_valued val then
              if negb (some_field_has_key fields k) then Ret (acc ++ [k])%list else Ret acc
            else Ret acc)
         [] ;;
     target <- forEach keysToDelete (fun k t => delete t k) target ;;
     uks <- Object_keys obj ;;
     target <- forEach uks (fun k t => x <- get obj k ;; set t k x) target ;;
     JSON_stringify 2 (store root p target)).
Proof.
  intros Htarget Hobj Hlength.
  destruct (Object_keys_container target Htarget) as (ks & -> & Hks). cbn [bind].
  destruct (forEach ks _ []) as [kd| |] eqn:Hkd.
  - cbn [bind].
    pose proof (keysToDelete_subset fields target ks [] kd Hkd) as Hsub.
    apply safe_bind with (fun t => container t /\ (is_object target -> is_object t)).
    + apply forEach_safe with (Q := fun k => is_object target \/ k <> "length").
      * auto.
      * intros k Hin. destruct (Hsub k Hin) as [[]|Hin']. auto.
      * intros k t0 Hk [Hc Ho].
        eapply safe_weaken; [apply delete_container_safe|]; auto.
        -- destruct Hk; auto.
        -- intros v' [Hc' Ho']. auto.
    + intros t1 [Ht1 Ho1].
      destruct obj as [| | | | | |opr ops]; try contradiction. simpl Object_keys. cbn [bind].
      apply safe_bind with (fun t => container t /\ (is_object target -> is_object t));
        [|intros; exact I].
      apply forEach_safe with (Q := fun k => is_object target \/ k <> "length").
      * auto.
      * intros k Hin. destruct Hlength as [Ho|Hnone]; [now left|right].
        intros ->. destruct (In_lookup _ _ Hin) as (x & Hx). simpl in Hnone. congruence.
      * intros k t0 Hk [Hc Ho].
        apply safe_bind with (fun _ => True); [now apply get_container_safe|].
        intros x _. eapply safe_weaken; [apply set_container_safe|]; auto.
        -- destruct Hk; auto.
        -- intros v' [Hc' Ho']. auto.
  - pose proof (forEach_safe (fun _ => True) (fun _ => True) ks
                  (fun k acc =>
                     val <- get target k ;;
                     if primitive_valued val then
                       if negb (some_field_has_key fields k)
                       then Ret (acc ++ [k])%list else Ret acc
                     else Ret acc) []) as Hloop.
    rewrite Hkd in Hloop. apply Hloop; auto.
    intros k acc _ _. apply safe_bind with (fun _ => True); [now apply get_container_safe|].
    intros val _. destruct (primitive_valued val); [destruct (negb _)|]; exact I.
  - exact I.
Qed.

(** Whether [applyEdit] throws does not depend on the value written, when
    no segment of the path is named [length]. *)
Lemma applyEdit_throw_independent rawJson path x x' e :
  ~ In "length" (map property_key (path_or_root path)) ->
  applyEdit rawJson path x = Throw e -> applyEdit rawJson path x' = Throw e.
Proof.
  intros Hpath.
  unfold applyEdit. destruct (JSON_parse rawJson) as [root| |]; cbn [bind]; try congruence.
  destruct path as [[|seg0 more]|]; try discriminate. cbv beta iota zeta.
  assert (Hlast : property_key (List.last (seg0 :: more) seg0) <> "length").
  { intros E. apply Hpath. rewrite <- E. apply in_map.
    destruct (exists_last (l := seg0 :: more)) as (pp & last & Hsplit); [discriminate|].
    simpl path_or_root. rewrite Hsplit, last_last. apply in_or_app. right. now left. }
  destruct (walk root _) as [parent| |]; cbn [bind]; try congruence.
  destruct (typeof parent =? "undefined"); [congruence|].
  destruct (set parent _ x) as [parent'| |] eqn:Hset; cbn [bind]; try discriminate.
  intros [= ->]. now rewrite (set_throw_independent _ _ _ x' _ Hlast Hset).
Qed.

(** A keyed save that throws, throws whatever the fields are, when neither
    a segment of the path nor a field is named [length]: the failure is the
    document's or the path's, not a field's. *)
Lemma syncFields_throw_independent currentJson path fields fields' e :
  ~ In "length" (map property_key (path_or_root path)) ->
  some_field_has_key fields "length" = false ->
  syncFields currentJson path fields = Throw e ->
  syncFields currentJson path fields' = Throw e.
Proof.
  intros Hpath Hfields. unfold syncFields.
  destruct (updatedObj_total fields) as (opr & ops & -> & Hkeys).
  destruct (updatedObj_total fields') as (opr' & ops' & -> & _). cbn [bind].
  destruct (JSON_parse currentJson) as [root| |] eqn:Hparse; cbn [bind]; try congruence.
  destruct (walk root (path_or_root path)) as [target| |]; cbn [bind]; try congruence.
  destruct (scalar_or_undefined target) eqn:Hkind.
  - assert (Hguard : negb (typeof target =? "object")
                     || match target with VNull => true | _ => false end = true)
      by (destruct target; try reflexivity; discriminate).
    rewrite Hguard. now apply applyEdit_throw_independent.
  - assert (Hguard : negb (typeof target =? "object")
                     || match target with VNull => true | _ => false end = false)
      by (destruct target; try reflexivity; discriminate).
    rewrite Hguard. intros H. exfalso. revert H.
    eapply safe_not_throw. apply merge_safe; [assumption|exact I|].
    right. simpl. destruct (lookup "length" ops) as [x|] eqn:E; [|reflexivity].
    rewrite (Hkeys _ _ E) in Hfields. discriminate.
Qed.

End SaveFailures.

(** * The round trip of JSON texts *)

Section RoundTripTexts.

Lemma append_assoc (a b c : string) : (a ++ b) ++ c = a ++ (b ++ c).
Proof. induction a; simpl; congruence. Qed.

Lemma append_nil_r (a : string) : a ++ "" = a.
Proof. induction a; simpl; congruence. Qed.

Lemma length_append (a b : string) :
  String.length (a ++ b) = (String.length a + String.length b)%nat.
Proof. induction a; simpl; congruence. Qed.

Lemma parse_string_quote_char c text t rest :
  parse_string text = Ret (t, rest) ->
  parse_string (quote_char c ++ text) = Ret (String c t, rest).
Proof.
  intros H.
  destruct c as [[] [] [] [] [] [] [] []]; simpl; rewrite H; reflexivity.
Qed.

(** A quoted string parses back to the string. *)
Lemma parse_string_quote s rest :
  parse_string (quote_chars s ++ String dquote rest) = Ret (s, rest).
Proof.
  induction s as [|c s IH]; simpl.
  - reflexivity.
  - rewrite append_assoc. now apply parse_string_quote_char.
Qed.

Lemma skip_ws_spaces n t : skip_ws (repeat_char " " n ++ t) = skip_ws t.
Proof. induction n; simpl; auto. Qed.

Lemma span_all p a r :
  all_chars p a = true ->
  match r with EmptyString => True | String c _ => p c = false end ->
  span p (a ++ r) = (a, r).
Proof.
  intros Ha Hr. induction a as [|c a IH]; simpl.
  - destruct r as [|c r]; [reflexivity|]. simpl. now rewrite Hr.
  - simpl in Ha. apply andb_prop in Ha. destruct Ha as [Hc Ha].
    rewrite Hc, (IH Ha). reflexivity.
Qed.

Lemma all_chars_app p a b : all_chars p (a ++ b) = all_chars p a && all_chars p b.
Proof. induction a as [|c a IH]; simpl; [reflexivity|]. now rewrite IH, andb_assoc. Qed.

Lemma all_chars_repeat p c n : p c = true -> all_chars p (repeat_char c n) = true.
Proof. intros H. induction n; simpl; [reflexivity|]. now rewrite H. Qed.

Lemma length_repeat_char c n : String.length (repeat_char c n) = n.
Proof. induction n; simpl; congruence. Qed.

Lemma strip_trailing_zeros_app ds n :
  strip_trailing_zeros (ds ++ repeat_char "0" n) = strip_trailing_zeros ds.
Proof.
  induction ds as [|c ds IH]; simpl.
  - induction n as [|n IHn]; simpl; [reflexivity|]. now rewrite IHn.
  - now rewrite IH.
Qed.

Lemma strip_leading_zeros_repeat n ds p :
  strip_leading_zeros (repeat_char "0" n ++ ds) p
  = strip_leading_zeros ds (p - Z.of_nat n).
Proof.
  revert p. induction n as [|n IH]; intros p.
  - simpl. f_equal. lia.
  - cbn [repeat_char append strip_leading_zeros]. simpl Ascii.eqb. cbv iota.
    rewrite IH. f_equal. lia.
Qed.

Lemma number_end_not_digit r :
  number_end r = true -> match r with EmptyString => True | String c _ => is_digit c = false end.
Proof.
  destruct r as [|c r]; simpl; [trivial|]. intros H.
  repeat (apply andb_prop in H; destruct H as [H ?]). now apply negb_true_iff.
Qed.

(** What follows the fraction: no exponent when the text stops the number. *)
Lemma parse_unsigned_int neg d more rest :
  all_chars is_digit (String d more) = true ->
  (d =? "0")%char && negb (more =? "") = false ->
  number_end rest = true ->
  parse_unsigned_number neg (String d more ++ rest)
  = Ret (decimal neg (String d more) (Z.of_nat (String.length (String d more))), rest).
Proof.
  intros Hd Hz Hrest. unfold parse_unsigned_number.
  rewrite (span_all is_digit _ _ Hd (number_end_not_digit _ Hrest)). rewrite Hz.
  destruct rest as [|c r]; simpl in Hrest |- *.
  - now rewrite append_nil_r.
  - repeat (apply andb_prop in Hrest; destruct Hrest as [Hrest ?]).
    repeat match goal with H : negb _ = true |- _ => apply negb_true_iff in H end.
    repeat match goal with H : (c =? _)%char = false |- _ => rewrite H end.
    simpl. now rewrite append_nil_r.
Qed.

Lemma parse_unsigned_frac neg d more fp rest :
  all_chars is_digit (String d more) = true ->
  (d =? "0")%char && negb (more =? "") = false ->
  all_chars is_digit fp = true -> fp <> "" ->
  number_end rest = true ->
  parse_unsigned_number neg (String d more ++ String "." (fp ++ rest))
  = Ret (decimal neg (String d more ++ fp) (Z.of_nat (String.length (String d more))), rest).
Proof.
  intros Hd Hz Hf Hne Hrest. unfold parse_unsigned_number.
  rewrite (span_all is_digit (String d more) (String "." (fp ++ rest)) Hd eq_refl).
  rewrite Hz. simpl Ascii.eqb. cbv iota.
  rewrite (span_all is_digit _ _ Hf (number_end_not_digit _ Hrest)).
  destruct fp as [|f0 fp]; [congruence|]. simpl negb. cbv iota.
  destruct rest as [|c r]; simpl in Hrest |- *; [reflexivity|].
  repeat (apply andb_prop in Hrest; destruct Hrest as [Hrest ?]).
  repeat match goal with H : negb _ = true |- _ => apply negb_true_iff in H end.
  repeat match goal with H : (c =? _)%char = false |- _ => rewrite H end.
  reflexivity.
Qed.

Lemma canonical_parts d r :
  canonical (String d r) = true ->
  all_chars is_digit (String d r) = true /\ (d =? "0")%char = false /\
  strip_trailing_zeros (String d r) = String d r.
Proof.
  unfold canonical. intros H.
  apply andb_prop in H. destruct H as [H Ht]. apply andb_prop in H. destruct H as [Ha Hd].
  apply negb_true_iff in Hd. apply String.eqb_eq in Ht. auto.
Qed.

Lemma decimal_zeros neg d r m p :
  canonical (String d r) = true ->
  decimal neg (String d r ++ repeat_char "0" m) p = Finite neg (String d r) p.
Proof.
  intros H. destruct (canonical_parts d r H) as (_ & Hd & Ht).
  unfold decimal. cbn [append strip_leading_zeros]. rewrite Hd.
  change (String d (r ++ repeat_char "0" m)) with (String d r ++ repeat_char "0" m).
  now rewrite strip_trailing_zeros_app, Ht.
Qed.

Lemma decimal_canonical neg d r p :
  canonical (String d r) = true -> decimal neg (String d r) p = Finite neg (String d r) p.
Proof.
  intros H. rewrite <- (append_nil_r (String d r)) at 1.
  exact (decimal_zeros neg d r 0 p H).
Qed.

Lemma decimal_leading neg m d r p :
  canonical (String d r) = true ->
  decimal neg (repeat_char "0" m ++ String d r) p = Finite neg (String d r) (p - Z.of_nat m).
Proof.
  intros H. unfold decimal. rewrite strip_leading_zeros_repeat.
  exact (decimal_canonical neg d r (p - Z.of_nat m) H).
Qed.

Lemma substring_whole s : substring 0 (String.length s) s = s.
Proof. induction s as [|c s IH]; simpl; congruence. Qed.

Lemma substring_0_app s n :
  (n <= String.length s)%nat ->
  substring 0 n s ++ substring n (String.length s - n) s = s.
Proof.
  revert n. induction s as [|c s IH]; intros [|n] H.
  - reflexivity.
  - simpl in H. lia.
  - rewrite Nat.sub_0_r, substring_whole. reflexivity.
  - simpl in H |- *. f_equal. apply IH. lia.
Qed.

Lemma length_substring s n m :
  (n + m <= String.length s)%nat -> String.length (substring n m s) = m.
Proof.
  revert n m. induction s as [|c s IH]; intros [|n] [|m] H; simpl in *; try lia; try reflexivity.
  - f_equal. apply (IH 0%nat). lia.
  - apply (IH n 0%nat). lia.
  - apply IH. lia.
Qed.

Lemma all_chars_substring p s n m :
  all_chars p s = true -> all_chars p (substring n m s) = true.
Proof.
  revert n m. induction s as [|c s IH]; intros [|n] [|m]; simpl; try reflexivity; intros H;
    apply andb_prop in H; destruct H as [Hc Hs]; auto.
  rewrite Hc. now apply IH.
Qed.

Lemma is_digit_not_zero_char : is_digit "0" = true.
Proof. reflexivity. Qed.

(** A plain number's text, after the sign, parses back to the number. *)
Lemma parse_plain_unsigned neg d r p rest :
  canonical (String d r) = true ->
  (-6 < p <= 21)%Z ->
  number_end rest = true ->
  parse_unsigned_number neg (number_to_string (Finite false (String d r) p) ++ rest)
  = Ret (Finite neg (String d r) p, rest).
Proof.
  intros Hc Hp Hrest. destruct (canonical_parts d r Hc) as (Hd & Hz & _).
  unfold number_to_string. cbn [append].
  set (ds := String d r) in *. set (k := Z.of_nat (String.length ds)).
  assert (Hk : (0 < k)%Z) by (unfold k, ds; simpl; lia).
  destruct ((k <=? p)%Z && (p <=? 21)%Z) eqn:Ea.
  - apply andb_prop in Ea. destruct Ea as [Ea _]. apply Z.leb_le in Ea.
    rewrite parse_unsigned_int; auto.
    + change (String d (r ++ repeat_char "0" (Z.to_nat (p - k))))
        with (ds ++ repeat_char "0" (Z.to_nat (p - k))).
      unfold ds. rewrite decimal_zeros by exact Hc. repeat f_equal.
      fold ds. rewrite length_append, length_repeat_char. fold k. lia.
    + change (String d (r ++ repeat_char "0" (Z.to_nat (p - k))))
        with (ds ++ repeat_char "0" (Z.to_nat (p - k))).
      rewrite all_chars_app, Hd. now rewrite all_chars_repeat.
    + now rewrite Hz.
  - assert (Hlt : (p < k)%Z).
    { destruct (Z.leb_spec k p) as [H|H]; [|assumption].
      destruct (Z.leb_spec p 21) as [H'|H']; [discriminate|lia]. }
    destruct ((0 <? p)%Z && (p <=? 21)%Z) eqn:Eb.
    + apply andb_prop in Eb. destruct Eb as [Eb _]. apply Z.ltb_lt in Eb.
      destruct (Z.to_nat p) as [|n] eqn:En; [lia|].
      assert (Hlen : (S n <= String.length ds)%nat) by (unfold k in Hlt; lia).
      assert (Hsplit : substring 0 (S n) ds ++ substring (S n) (Z.to_nat (k - p)) ds = ds).
      { replace (Z.to_nat (k - p)) with (String.length ds - S n)%nat by (unfold k; lia).
        now apply substring_0_app. }
      rewrite append_assoc. cbn [append].
      change (substring 0 (S n) ds) with (String d (substring 0 n r)) at 1.
      rewrite parse_unsigned_frac; auto.
      * change (String d (substring 0 n r)) with (substring 0 (S n) ds).
        rewrite Hsplit. unfold ds. rewrite decimal_canonical by exact Hc.
        repeat f_equal. simpl String.length.
        rewrite length_substring; [lia|]. unfold ds in Hlen. simpl in Hlen. lia.
      * change (String d (substring 0 n r)) with (substring 0 (S n) ds).
        now apply all_chars_substring.
      * now rewrite Hz.
      * now apply all_chars_substring.
      * intros E. apply (f_equal String.length) in E.
        rewrite length_substring in E by (unfold k; lia).
        change (String.length "") with 0%nat in E. unfold k in *. lia.
    + assert (Hle : (p <= 0)%Z).
      { destruct (Z.ltb_spec 0 p) as [H|H]; [|assumption].
        destruct (Z.leb_spec p 21) as [H'|H']; [discriminate|lia]. }
      assert (Ec : (-6 <? p)%Z && (p <=? 0)%Z = true).
      { apply andb_true_intro. split; [apply Z.ltb_lt|apply Z.leb_le]; lia. }
      rewrite Ec.
      pose proof (parse_unsigned_frac neg "0" "" (repeat_char "0" (Z.to_nat (- p)) ++ ds) rest)
        as Hfrac.
      cbn [append] in Hfrac |- *. rewrite Hfrac; auto.
      * change (String "0" (repeat_char "0" (Z.to_nat (- p)) ++ ds))
          with (repeat_char "0" (S (Z.to_nat (- p))) ++ ds).
        unfold ds. rewrite decimal_leading by exact Hc. repeat f_equal.
        change (String.length "0") with 1%nat. lia.
      * rewrite all_chars_app, Hd. now rewrite all_chars_repeat.
      * unfold ds. destruct (repeat_char "0" (Z.to_nat (- p))); discriminate.
Qed.

Lemma digit_facts c :
  is_digit c = true ->
  is_json_white_space c = false /\ (c =? "{")%char = false /\ (c =? "[")%char = false /\
  (c =? dquote)%char = false /\ (c =? "-")%char = false /\ (c =? "]")%char = false /\
  (c =? "}")%char = false.
Proof.
  destruct c as [[] [] [] [] [] [] [] []]; intros H; try discriminate H; repeat split.
Qed.

(** The text of a plain number starts with a digit. *)
Lemma plain_text_head d r p :
  canonical (String d r) = true ->
  (-6 < p <= 21)%Z ->
  exists c b, number_to_string (Finite false (String d r) p) = String c b /\ is_digit c = true.
Proof.
  intros Hc Hp. destruct (canonical_parts d r Hc) as (Hd & _ & _).
  assert (Hdd : is_digit d = true) by (simpl in Hd; now apply andb_prop in Hd).
  unfold number_to_string. cbn [append].
  destruct (_ && _).
  - eauto.
  - destruct ((0 <? p)%Z && (p <=? 21)%Z) eqn:Eb.
    + apply andb_prop in Eb. destruct Eb as [Eb _]. apply Z.ltb_lt in Eb.
      destruct (Z.to_nat p) as [|n] eqn:En; [lia|]. cbn [substring append]. eauto.
    + assert (Ec : (-6 <? p)%Z && (p <=? 0)%Z = true).
      { apply andb_true_intro. split; [apply Z.ltb_lt|apply Z.leb_le]; lia. }
      rewrite Ec. cbn [append]. eauto.
Qed.

Lemma plain_number_parts neg ds p :
  plain_number (Finite neg ds p) = true ->
  (ds = "" /\ neg = false /\ p = 0%Z) \/
  (exists d r, ds = String d r /\ canonical ds = true /\ (-6 < p <= 21)%Z).
Proof.
  destruct ds as [|d r]; simpl plain_number; intros H.
  - left. apply andb_prop in H. destruct H as [Hn Hp].
    apply negb_true_iff in Hn. apply Z.eqb_eq in Hp. auto.
  - right. exists d, r. apply andb_prop in H. destruct H as [H H21].
    apply andb_prop in H. destruct H as [Hc H6].
    apply Z.ltb_lt in H6. apply Z.leb_le in H21. auto.
Qed.

(** A plain number's text parses back to the number. *)
Lemma parse_number_plain n rest :
  plain_number n = true ->
  number_end rest = true ->
  parse_number (number_to_string n ++ rest) = Ret (n, rest).
Proof.
  destruct n as [| |neg ds p]; try discriminate. intros Hn Hrest.
  destruct (plain_number_parts neg ds p Hn) as [(-> & -> & ->)|(d & r & -> & Hc & Hp)].
  - change (number_to_string (Finite false "" 0) ++ rest) with (String "0" "" ++ rest).
    unfold parse_number. cbn [append]. simpl Ascii.eqb. cbv iota.
    change (String "0" rest) with (String "0" "" ++ rest).
    now rewrite parse_unsigned_int.
  - destruct (plain_text_head d r p Hc Hp) as (c & b & Hhead & Hdigit).
    pose proof (parse_plain_unsigned neg d r p rest Hc Hp Hrest) as Hparse.
    destruct neg.
    + change (number_to_string (Finite true (String d r) p))
        with (String "-" (number_to_string (Finite false (String d r) p))).
      unfold parse_number. cbn [append]. simpl Ascii.eqb. cbv iota. exact Hparse.
    + rewrite Hhead in *. unfold parse_number. cbn [append] in *.
      destruct (digit_facts c Hdigit) as (_ & _ & _ & _ & -> & _). exact Hparse.
Qed.

End RoundTripTexts.

Lemma size_array l : size (VArray l) = (2 + sizes l)%nat.
Proof. simpl. do 2 apply f_equal. induction l; simpl; congruence. Qed.

Lemma size_object p ps : size (VObject p ps) = (2 + sizes (map snd ps))%nat.
Proof. simpl. do 2 apply f_equal. induction ps; simpl; congruence. Qed.

Lemma size_pos v : (1 <= size v)%nat.
Proof. destruct v; simpl; lia. Qed.

Lemma json_array l : json_value (VArray l) = forallb json_value l.
Proof. simpl. induction l; simpl; congruence. Qed.

Lemma json_object p ps :
  json_value (VObject p ps)
  = match p with ObjectPrototype => true | NullPrototype => false end
    && ordered (map fst ps) && forallb json_value (map snd ps).
Proof. simpl. apply f_equal. induction ps; simpl; congruence. Qed.

Lemma serialize_array gap indent l :
  serialize gap indent (VArray l)
  = Some (brackets "[" "]" gap indent (indent ++ gap) (map (text_of gap (indent ++ gap)) l)).
Proof. reflexivity. Qed.

Lemma serialize_defined gap indent v :
  v <> VUndefined -> serialize gap indent v = Some (text_of gap indent v).
Proof. unfold text_of. destruct v; simpl; congruence. Qed.

Lemma json_defined v : json_value v = true -> v <> VUndefined.
Proof. intros H ->. discriminate. Qed.

Lemma serialize_object gap indent p ps :
  forallb json_value (map snd ps) = true ->
  serialize gap indent (VObject p ps)
  = Some (brackets "{" "}" gap indent (indent ++ gap) (map (member_text gap (indent ++ gap)) ps)).
Proof.
  intros H. simpl. apply f_equal. f_equal. induction ps as [|[k x] r IH]; simpl; [reflexivity|].
  simpl in H. apply andb_prop in H. destruct H as [Hx Hr].
  rewrite (serialize_defined gap (indent ++ gap) x (json_defined x Hx)).
  unfold member_text at 1. simpl fst. simpl snd. f_equal. now apply IH.
Qed.

Section Ordering.

Lemma precedes_neq k' k : precedes k' k = true -> k' <> k.
Proof.
  unfold precedes. intros H ->. destruct (array_index k).
  - apply N.ltb_lt in H. lia.
  - now rewrite String.eqb_refl in H.
Qed.

Lemma ordered_app_precedes acc k r :
  ordered (acc ++ k :: r) = true -> forall k', In k' acc -> precedes k' k = true.
Proof.
  induction acc as [|a acc IH]; simpl; [contradiction|].
  intros H k' [<-|Hin].
  - apply andb_prop in H. destruct H as [H _].
    rewrite forallb_forall in H. apply H. apply in_or_app. right. now left.
  - apply andb_prop in H. destruct H as [_ H]. now apply IH.
Qed.

Lemma lookup_not_in k ps : ~ In k (map fst ps) -> lookup k ps = None.
Proof.
  intros H. destruct (lookup k ps) eqn:E; [|reflexivity].
  elim H. eapply lookup_In; eauto.
Qed.

Lemma insert_index_append i k x ps :
  array_index k = Some i ->
  (forall k', In k' (map fst ps) -> precedes k' k = true) ->
  insert_index i k x ps = (ps ++ [(k, x)])%list.
Proof.
  intros Hk. induction ps as [|[k0 x0] r IH]; simpl; [reflexivity|].
  intros H. pose proof (H k0 (or_introl eq_refl)) as H0. unfold precedes in H0.
  rewrite Hk in H0. destruct (array_index k0) as [j|]; [|discriminate].
  rewrite H0. f_equal. apply IH. intros k' Hin. apply H. now right.
Qed.

(** Defining a key that comes after all present keys appends it. *)
Lemma define_append k x ps :
  (forall k', In k' (map fst ps) -> precedes k' k = true) ->
  define k x ps = (ps ++ [(k, x)])%list.
Proof.
  intros H. unfold define. rewrite lookup_not_in.
  - destruct (array_index k) as [i|] eqn:Hk; [|reflexivity].
    now apply insert_index_append.
  - intros Hin. now apply (precedes_neq k k (H k Hin)).
Qed.

End Ordering.

Section RoundTrip.

Lemma skip_ws_blank ws t : blank ws -> skip_ws (ws ++ t) = skip_ws t.
Proof.
  unfold blank. induction ws as [|c ws IH]; simpl; [reflexivity|].
  intros H. apply andb_prop in H. destruct H as [Hc Hws]. rewrite Hc. now apply IH.
Qed.

Lemma blank_app a b : blank a -> blank b -> blank (a ++ b).
Proof. unfold blank. intros Ha Hb. now rewrite all_chars_app, Ha, Hb. Qed.

Lemma blank_newline : blank newline.
Proof. reflexivity. Qed.

Lemma parse_value_skip fuel ws t : blank ws -> parse_value fuel (ws ++ t) = parse_value fuel t.
Proof.
  intros H. destruct fuel; [reflexivity|]. cbn [parse_value].
  now rewrite (skip_ws_blank ws t H).
Qed.

Lemma parse_elements_skip fuel acc ws t :
  blank ws -> parse_elements fuel acc (ws ++ t) = parse_elements fuel acc t.
Proof.
  intros H. destruct fuel; [reflexivity|]. cbn [parse_elements].
  now rewrite (parse_value_skip fuel ws t H).
Qed.

Lemma parse_members_skip fuel acc ws t :
  blank ws -> parse_members fuel acc (ws ++ t) = parse_members fuel acc t.
Proof.
  intros H. destruct fuel; [reflexivity|]. cbn [parse_members].
  now rewrite (skip_ws_blank ws t H).
Qed.

Lemma number_text_head n :
  plain_number n = true ->
  exists h b, number_to_string n = String h b /\
              is_json_white_space h = false /\ (h =? "]")%char = false /\
              (h =? "{")%char = false /\ (h =? "[")%char = false /\
              (h =? dquote)%char = false /\
              ((h =? "-")%char || is_digit h) = true.
Proof.
  destruct n as [| |neg ds p]; try discriminate. intros Hn.
  destruct (plain_number_parts neg ds p Hn) as [(-> & -> & ->)|(d & r & -> & Hc & Hp)].
  - exists "0"%char, "". repeat split.
  - destruct (plain_text_head d r p Hc Hp) as (c & b & Hhead & Hdigit).
    destruct neg.
    + exists "-"%char, (number_to_string (Finite false (String d r) p)). repeat split.
    + exists c, b. destruct (digit_facts c Hdigit) as (? & ? & ? & ? & ? & ? & ?).
      rewrite Hdigit, orb_true_r. repeat split; assumption.
Qed.

Lemma text_head ind v :
  json_value v = true ->
  exists h b, text_of gap2 ind v = String h b /\
              is_json_white_space h = false /\ (h =? "]")%char = false.
Proof.
  destruct v; try discriminate; intros Hv.
  - exists "n"%char, "ull". repeat split.
  - destruct b; [exists "t"%char, "rue"|exists "f"%char, "alse"]; repeat split.
  - destruct n as [| |neg ds p]; try discriminate.
    destruct (number_text_head _ Hv) as (h & b & Hh & Hws & Hb & _).
    exists h, b. unfold text_of. simpl serialize. cbv iota. auto.
  - exists dquote, (quote_chars s ++ String dquote ""). repeat split.
  - unfold text_of. rewrite serialize_array. unfold brackets.
    destruct (map _ elements); [exists "["%char, "]"|]; repeat split.
    simpl. eexists _, _. repeat split.
  - unfold text_of. simpl serialize. cbv iota. unfold brackets.
    match goal with |- context [match ?l with [] => _ | _ => _ end] => destruct l end.
    + exists "{"%char, "}". repeat split.
    + simpl. eexists _, _. repeat split.
Qed.

Lemma round_trip_null : round_trip VNull.
Proof.
  intros _ fuel ind rest Hf _ _. destruct fuel; [simpl in Hf; lia|]. reflexivity.
Qed.

Lemma round_trip_bool b : round_trip (VBool b).
Proof.
  intros _ fuel ind rest Hf _ _. destruct fuel; [simpl in Hf; lia|]. now destruct b.
Qed.

Lemma round_trip_string s : round_trip (VString s).
Proof.
  intros _ fuel ind rest Hf _ _. destruct fuel; [simpl in Hf; lia|].
  unfold text_of. simpl serialize. cbv iota. unfold Quote.
  cbn [append]. rewrite append_assoc. cbn [append parse_value skip_ws].
  change (is_json_white_space dquote) with false. cbv iota.
  change ((dquote =? "{")%char) with false. change ((dquote =? "[")%char) with false.
  rewrite Ascii.eqb_refl. cbv iota.
  now rewrite parse_string_quote.
Qed.

Lemma round_trip_number n : round_trip (VNumber n).
Proof.
  intros Hn fuel ind rest Hf _ Hrest. destruct fuel; [simpl in Hf; lia|].
  simpl in Hn. pose proof (parse_number_plain n rest Hn Hrest) as Hparse.
  destruct (number_text_head n Hn) as (h & b & Hh & Hws & _ & H1 & H2 & H3 & H4).
  assert (Htext : text_of gap2 ind (VNumber n) = number_to_string n).
  { destruct n; try discriminate. reflexivity. }
  rewrite Htext. rewrite Hh in *. cbn [append parse_value skip_ws].
  rewrite Hws. cbv iota. rewrite H1, H2, H3, H4. cbv iota.
  cbn [append] in Hparse. now rewrite Hparse.
Qed.

Lemma concat_cons sep t u us :
  String.concat sep (t :: u :: us) = t ++ sep ++ String.concat sep (u :: us).
Proof. reflexivity. Qed.

Lemma number_end_newline t : number_end (newline ++ t) = true.
Proof. reflexivity. Qed.

Lemma number_end_comma t : number_end (String "," t) = true.
Proof. reflexivity. Qed.

(** The elements of an array, as [SerializeJSONArray] lays them out, parse
    back to the elements. *)
Lemma parse_elements_text l :
  Forall round_trip l ->
  forallb json_value l = true ->
  l <> [] ->
  forall acc fuel ind inner rest,
    (sizes l + 1 <= fuel)%nat -> blank ind -> blank inner ->
    parse_elements fuel acc
      (String.concat ("," ++ newline ++ inner) (map (text_of gap2 inner) l)
       ++ newline ++ ind ++ String "]" rest)
    = Ret (VArray (acc ++ l), rest).
Proof.
  induction l as [|x r IH]; [congruence|].
  intros Hrt Hjson _ acc fuel ind inner rest Hfuel Hind Hinner.
  inversion Hrt as [|? ? Hx Hr]; subst.
  simpl in Hjson. apply andb_prop in Hjson. destruct Hjson as [Hjx Hjr].
  destruct fuel as [|fuel]; [lia|]. simpl sizes in Hfuel.
  destruct r as [|y r'].
  - cbn [map String.concat parse_elements].
    rewrite (Hx Hjx fuel inner _ ltac:(simpl in Hfuel; lia) Hinner (number_end_newline _)).
    cbn [bind]. rewrite (skip_ws_blank newline _ blank_newline).
    rewrite (skip_ws_blank ind _ Hind). cbn [skip_ws].
    change (is_json_white_space "]") with false. cbv iota.
    change (("]" =? ",")%char) with false. rewrite Ascii.eqb_refl. reflexivity.
  - cbn [map]. rewrite concat_cons. rewrite !append_assoc.
    cbn [parse_elements append].
    rewrite (Hx Hjx fuel inner _ ltac:(simpl in Hfuel |- *; pose proof (size_pos y); lia)
               Hinner (number_end_comma _)).
    cbn [bind skip_ws]. change (is_json_white_space ",") with false. cbv iota.
    rewrite Ascii.eqb_refl.
    rewrite (parse_elements_skip fuel _ newline _ blank_newline).
    rewrite (parse_elements_skip fuel _ inner _ Hinner).
    specialize (IH Hr Hjr ltac:(discriminate) (acc ++ [x])%list fuel ind inner rest).
    cbn [map append] in IH. rewrite IH; auto.
    + now rewrite <- app_assoc.
    + simpl in Hfuel |- *. pose proof (size_pos x). lia.
Qed.

Lemma member_text_app inner k x tail :
  member_text gap2 inner (k, x) ++ tail
  = String dquote (quote_chars k ++ String dquote
                     (String ":" (String " " (text_of gap2 inner x ++ tail)))).
Proof.
  unfold member_text, Quote. simpl fst. simpl snd. cbn [gap2 String.eqb append].
  rewrite !append_assoc. reflexivity.
Qed.

Lemma blank_space : blank " ".
Proof. reflexivity. Qed.

(** The members of an object, as [SerializeJSONObject] lays them out, parse
    back to the members, in order. *)
Lemma parse_members_text rem :
  Forall (fun kv => round_trip (snd kv)) rem ->
  forallb json_value (map snd rem) = true ->
  rem <> [] ->
  forall acc fuel ind inner rest,
    ordered (map fst (acc ++ rem)) = true ->
    (sizes (map snd rem) + 1 <= fuel)%nat -> blank ind -> blank inner ->
    parse_members fuel acc
      (String.concat ("," ++ newline ++ inner) (map (member_text gap2 inner) rem)
       ++ newline ++ ind ++ String "}" rest)
    = Ret (VObject ObjectPrototype (acc ++ rem), rest).
Proof.
  induction rem as [|[k x] r IH]; [congruence|].
  intros Hrt Hjson _ acc fuel ind inner rest Hord Hfuel Hind Hinner.
  inversion Hrt as [|? ? Hx Hr]; subst. simpl snd in Hx.
  simpl in Hjson. apply andb_prop in Hjson. destruct Hjson as [Hjx Hjr].
  destruct fuel as [|fuel]; [lia|]. simpl sizes in Hfuel.
  assert (Hdef : define k x acc = (acc ++ [(k, x)])%list).
  { apply define_append. rewrite map_app in Hord. simpl in Hord.
    now apply ordered_app_precedes with (r := map fst r). }
  destruct r as [|y r'].
  - cbn [map String.concat]. rewrite member_text_app.
    cbn [parse_members skip_ws]. change (is_json_white_space dquote) with false. cbv iota.
    rewrite Ascii.eqb_refl. rewrite parse_string_quote. cbn [bind skip_ws].
    change (is_json_white_space ":") with false. cbv iota. rewrite Ascii.eqb_refl.
    change (String " " (text_of gap2 inner x ++ newline ++ ind ++ String "}" rest))
      with (" " ++ text_of gap2 inner x ++ newline ++ ind ++ String "}" rest).
    rewrite (parse_value_skip fuel " " _ blank_space).
    rewrite (Hx Hjx fuel inner _ ltac:(simpl in Hfuel; lia) Hinner (number_end_newline _)).
    cbn [bind]. rewrite (skip_ws_blank newline _ blank_newline).
    rewrite (skip_ws_blank ind _ Hind). cbn [skip_ws].
    change (is_json_white_space "}") with false. cbv iota.
    change (("}" =? ",")%char) with false. rewrite Ascii.eqb_refl. now rewrite Hdef.
  - cbn [map]. rewrite concat_cons. rewrite !append_assoc. rewrite member_text_app.
    cbn [parse_members skip_ws]. change (is_json_white_space dquote) with false. cbv iota.
    rewrite Ascii.eqb_refl. rewrite parse_string_quote. cbn [bind skip_ws].
    change (is_json_white_space ":") with false. cbv iota. rewrite Ascii.eqb_refl.
    match goal with
    | |- context [parse_value fuel (String " " ?t)] =>
        change (String " " t) with (" " ++ t)
    end.
    rewrite (parse_value_skip fuel " " _ blank_space).
    cbn [append].
    rewrite (Hx Hjx fuel inner _ ltac:(simpl in Hfuel |- *; pose proof (size_pos (snd y)); lia)
               Hinner (number_end_comma _)).
    cbn [bind skip_ws]. change (is_json_white_space ",") with false. cbv iota.
    rewrite Ascii.eqb_refl. rewrite Hdef.
    rewrite (parse_members_skip fuel _ newline _ blank_newline).
    rewrite (parse_members_skip fuel _ inner _ Hinner).
    specialize (IH Hr Hjr ltac:(discriminate) (acc ++ [(k, x)])%list fuel ind inner rest).
    cbn [map append] in IH. rewrite IH; auto.
    + now rewrite <- app_assoc.
    + now rewrite <- app_assoc.
    + simpl in Hfuel |- *. pose proof (size_pos x). lia.
Qed.

Lemma concat_head sep h b us :
  exists b', String.concat sep (String h b :: us) = String h b'.
Proof. destruct us; simpl; eauto. Qed.

Lemma round_trip_array l : Forall round_trip l -> round_trip (VArray l).
Proof.
  intros Hrt Hjson fuel ind rest Hfuel Hind _.
  rewrite json_array in Hjson. rewrite size_array in Hfuel.
  destruct fuel as [|fuel]; [lia|].
  unfold text_of. rewrite serialize_array. unfold brackets.
  destruct l as [|x r].
  - reflexivity.
  - set (inner := ind ++ gap2).
    assert (Hinner : blank inner) by (apply blank_app; [assumption|reflexivity]).
    set (texts := map (text_of gap2 inner) (x :: r)).
    assert (Hne : texts <> []) by discriminate.
    destruct texts as [|t ts] eqn:Et; [congruence|].
    change (gap2 =? "") with false. cbv iota.
    set (T := String.concat ("," ++ newline ++ inner) (t :: ts)
              ++ newline ++ ind ++ String "]" rest).
    assert (HT : exists h b, T = String h b /\ is_json_white_space h = false /\
                             (h =? "]")%char = false).
    { assert (Hjx : json_value x = true) by (simpl in Hjson; now apply andb_prop in Hjson).
      destruct (text_head inner x Hjx) as (h & b & Hh & Hws & Hb).
      assert (Ht : t = String h b) by (unfold texts in Et; simpl in Et; congruence).
      destruct (concat_head ("," ++ newline ++ inner) h b ts) as (b' & Hc).
      exists h, (b' ++ newline ++ ind ++ String "]" rest). unfold T. rewrite Ht, Hc. auto. }
    destruct HT as (h & b & HT & Hws & Hb).
    replace (("[" ++ newline ++ inner ++ String.concat ("," ++ newline ++ inner) (t :: ts)
              ++ newline ++ ind ++ "]") ++ rest)
      with (String "[" (newline ++ inner ++ T)).
    2:{ unfold T. rewrite !append_assoc. reflexivity. }
    cbn [parse_value skip_ws]. change (is_json_white_space "[") with false. cbv iota.
    change (("[" =? "{")%char) with false. rewrite Ascii.eqb_refl. cbv iota.
    rewrite (skip_ws_blank newline _ blank_newline), (skip_ws_blank inner _ Hinner).
    rewrite HT. cbn [skip_ws]. rewrite Hws, Hb. rewrite <- HT. unfold T.
    rewrite <- Et. unfold texts.
    apply (parse_elements_text (x :: r) Hrt Hjson ltac:(discriminate) []); auto. lia.
Qed.

Lemma round_trip_object p ps :
  Forall (fun kv => round_trip (snd kv)) ps -> round_trip (VObject p ps).
Proof.
  intros Hrt Hjson fuel ind rest Hfuel Hind _.
  rewrite json_object in Hjson. rewrite size_object in Hfuel.
  apply andb_prop in Hjson. destruct Hjson as [Hjson Hvalues].
  apply andb_prop in Hjson. destruct Hjson as [Hp Hord].
  destruct p; [|discriminate].
  destruct fuel as [|fuel]; [lia|].
  unfold text_of. rewrite (serialize_object gap2 ind ObjectPrototype ps Hvalues). unfold brackets.
  destruct ps as [|[k x] r].
  - reflexivity.
  - set (inner := ind ++ gap2).
    assert (Hinner : blank inner) by (apply blank_app; [assumption|reflexivity]).
    cbn [map]. change (gap2 =? "") with false. cbv iota.
    set (T := String.concat ("," ++ newline ++ inner)
                (member_text gap2 inner (k, x) :: map (member_text gap2 inner) r)
              ++ newline ++ ind ++ String "}" rest).
    assert (HT : exists b, T = String dquote b).
    { assert (Hm : exists b0, member_text gap2 inner (k, x) = String dquote b0).
      { change (member_text gap2 inner (k, x))
          with (Quote k ++ ":" ++ " " ++ text_of gap2 inner x).
        unfold Quote. cbn [append]. eauto. }
      destruct Hm as (b0 & Hm). unfold T. rewrite Hm.
      destruct (concat_head ("," ++ newline ++ inner) dquote b0
                  (map (member_text gap2 inner) r)) as (b' & Hc).
      rewrite Hc. cbn [append]. eauto. }
    destruct HT as (b & HT).
    replace (("{" ++ newline ++ inner
              ++ String.concat ("," ++ newline ++ inner)
                   (member_text gap2 inner (k, x) :: map (member_text gap2 inner) r)
              ++ newline ++ ind ++ "}") ++ rest)
      with (String "{" (newline ++ inner ++ T)).
    2:{ unfold T. rewrite !append_assoc. reflexivity. }
    cbn [parse_value skip_ws]. change (is_json_white_space "{") with false. cbv iota.
    rewrite Ascii.eqb_refl. cbv iota.
    rewrite (skip_ws_blank newline _ blank_newline), (skip_ws_blank inner _ Hinner).
    rewrite HT. cbn [skip_ws]. change (is_json_white_space dquote) with false. cbv iota.
    change ((dquote =? "}")%char) with false. cbv iota. rewrite <- HT. unfold T.
    apply (parse_members_text ((k, x) :: r) Hrt Hvalues ltac:(discriminate) []); auto. lia.
Qed.

(** Every JSON value's pretty-printed text parses back to the value. *)
Theorem round_trip_value v : round_trip v.
Proof.
  induction v using value_ind.
  - intros H. discriminate.
  - apply round_trip_null.
  - apply round_trip_bool.
  - apply round_trip_number.
  - apply round_trip_string.
  - now apply round_trip_array.
  - now apply round_trip_object.
Qed.

Lemma length_concat sep l :
  (fold_right (fun t n => String.length t + n) 0 l <= String.length (String.concat sep l))%nat.
Proof.
  induction l as [|t [|u us] IH]; simpl in *; [lia|lia|].
  rewrite !length_append. lia.
Qed.

Lemma length_member_text gap inner kv :
  (String.length (text_of gap inner (snd kv)) <= String.length (member_text gap inner kv))%nat.
Proof. unfold member_text. rewrite !length_append. lia. Qed.

Lemma size_le_length v :
  json_value v = true -> forall ind, (size v <= String.length (text_of gap2 ind v))%nat.
Proof.
  induction v as [| | | | |l IH|p ps IH] using value_ind; intros Hv ind.
  - discriminate.
  - simpl; lia.
  - destruct b; simpl; lia.
  - destruct (text_head ind _ Hv) as (h & b & -> & _). simpl; lia.
  - simpl; lia.
  - rewrite json_array in Hv. rewrite size_array.
    unfold text_of. rewrite serialize_array. unfold brackets.
    set (inner := ind ++ gap2).
    assert (H : (sizes l
                 <= String.length (String.concat ("," ++ newline ++ inner)
                                     (map (text_of gap2 inner) l)))%nat).
    { etransitivity; [|apply length_concat].
      induction IH as [|y r Hy _ IHr]; [simpl; lia|].
      simpl in Hv. apply andb_prop in Hv. destruct Hv as [Hy' Hr].
      simpl. specialize (Hy Hy' inner). specialize (IHr Hr). unfold sizes in *. lia. }
    destruct l as [|x r]; [simpl; lia|].
    destruct (map (text_of gap2 inner) (x :: r)) eqn:E; [discriminate|]. rewrite <- E in H |- *.
    change (gap2 =? "") with false. cbv iota. rewrite !length_append.
    change (String.length "[") with 1%nat. change (String.length "]") with 1%nat. lia.
  - rewrite json_object in Hv. rewrite size_object.
    apply andb_prop in Hv. destruct Hv as [_ Hv].
    unfold text_of. rewrite (serialize_object gap2 ind p ps Hv). unfold brackets.
    set (inner := ind ++ gap2).
    assert (H : (sizes (map snd ps)
                 <= String.length (String.concat ("," ++ newline ++ inner)
                                     (map (member_text gap2 inner) ps)))%nat).
    { etransitivity; [|apply length_concat].
      induction IH as [|y r Hy _ IHr]; [simpl; lia|].
      simpl in Hv. apply andb_prop in Hv. destruct Hv as [Hy' Hr].
      specialize (Hy Hy' inner). specialize (IHr Hr). unfold sizes in *.
      cbn [map fold_right]. pose proof (length_member_text gap2 inner y). lia. }
    destruct ps as [|kx r]; [simpl; lia|].
    destruct (map (member_text gap2 inner) (kx :: r)) eqn:E; [discriminate|]. rewrite <- E in H |- *.
    change (gap2 =? "") with false. cbv iota. rewrite !length_append.
    change (String.length "{") with 1%nat. change (String.length "}") with 1%nat. lia.
Qed.

(** A JSON value pretty-printed with two spaces is a text, and parsing the
    text gives the value back. *)
Theorem JSON_parse_stringify v :
  json_value v = true ->
  exists text, JSON_stringify 2 v = Ret (Some text) /\ JSON_parse text = Ret v.
Proof.
  intros Hv. exists (text_of gap2 "" v). split.
  - unfold JSON_stringify. change (repeat_char " " (Nat.min 10 2)) with gap2.
    now rewrite (serialize_defined gap2 "" v (json_defined v Hv)).
  - unfold JSON_parse.
    pose proof (round_trip_value v Hv (2 * String.length (text_of gap2 "" v) + 2)%nat "" "") as H.
    rewrite append_nil_r in H. rewrite H; [reflexivity| |reflexivity|reflexivity].
    pose proof (size_le_length v Hv ""). lia.
Qed.

End RoundTrip.

Section EditedTexts.

Lemma map_fst_store_property k f ps : map fst (store_property k f ps) = map fst ps.
Proof.
  induction ps as [|[k' x] r IH]; simpl; [reflexivity|].
  destruct (k' =? k); simpl; congruence.
Qed.

Lemma forallb_store_property (P : value -> bool) k f ps :
  (forall c, P c = true -> P (f c) = true) ->
  forallb P (map snd ps) = true -> forallb P (map snd (store_property k f ps)) = true.
Proof.
  intros Hf. induction ps as [|[k' x] r IH]; simpl; [reflexivity|].
  intros H. apply andb_prop in H. destruct H as [Hx Hr].
  destruct (k' =? k); simpl; apply andb_true_intro; auto.
Qed.

Lemma forallb_store_element (P : value -> bool) i f l :
  (forall c, P c = true -> P (f c) = true) ->
  forallb P l = true -> forallb P (store_element i f l) = true.
Proof.
  intros Hf. revert i. induction l as [|x r IH]; intros [|i]; simpl; try reflexivity;
    intros H; apply andb_prop in H; destruct H as [Hx Hr]; apply andb_true_intro; auto.
Qed.

(** Storing a JSON value in a JSON document gives a JSON document. *)
Lemma json_value_store root path x :
  json_value root = true -> json_value x = true -> json_value (store root path x) = true.
Proof.
  intros Hroot Hx. revert root Hroot.
  induction path as [|seg rest IH]; intros root Hroot; [exact Hx|].
  destruct root as [| | | | |l|p ps]; try exact Hroot.
  - cbn [store]. destruct (array_index (property_key seg)); [|exact Hroot].
    rewrite json_array in *. now apply forallb_store_element.
  - cbn [store]. rewrite json_object in *. rewrite map_fst_store_property.
    apply andb_prop in Hroot. destruct Hroot as [Hroot Hvalues]. rewrite Hroot.
    now apply forallb_store_property.
Qed.

Lemma store_property_twice k f g ps :
  store_property k g (store_property k f ps) = store_property k (fun c => g (f c)) ps.
Proof.
  induction ps as [|[k' x] r IH]; simpl; [reflexivity|].
  destruct (k' =? k) eqn:E; simpl; rewrite E; [reflexivity|]. now rewrite IH.
Qed.

Lemma store_element_twice i f g l :
  store_element i g (store_element i f l) = store_element i (fun c => g (f c)) l.
Proof.
  revert i. induction l as [|x r IH]; intros [|i]; simpl; try reflexivity. now rewrite IH.
Qed.

Lemma store_property_pointwise k f g ps :
  (forall c, f c = g c) -> store_property k f ps = store_property k g ps.
Proof.
  intros H. induction ps as [|[k' x] r IH]; simpl; [reflexivity|].
  destruct (k' =? k); [now rewrite H|now rewrite IH].
Qed.

Lemma store_element_pointwise i f g l :
  (forall c, f c = g c) -> store_element i f l = store_element i g l.
Proof.
  intros H. revert i. induction l as [|x r IH]; intros [|i]; simpl; try reflexivity.
  - now rewrite H.
  - now rewrite IH.
Qed.

Lemma store_property_id k f ps c :
  lookup k ps = Some c -> f c = c -> store_property k f ps = ps.
Proof.
  induction ps as [|[k' x] r IH]; simpl; [discriminate|].
  destruct (k' =? k).
  - intros [= ->] ->. reflexivity.
  - intros H E. f_equal. now apply IH.
Qed.

Lemma store_element_id i f l c :
  nth_error l i = Some c -> f c = c -> store_element i f l = l.
Proof.
  revert i. induction l as [|x r IH]; intros [|i]; simpl; try discriminate.
  - intros [= ->] ->. reflexivity.
  - intros H E. f_equal. now apply IH.
Qed.

(** A second store at the same path overwrites the first. *)
Lemma store_store root p x y : store (store root p x) p y = store root p y.
Proof.
  revert root. induction p as [|seg rest IH]; intros root; [reflexivity|].
  destruct root as [| | | | |l|pr ps]; try reflexivity.
  - cbn [store]. destruct (array_index (property_key seg)) as [i|] eqn:Hi.
    + rewrite store_element_twice. f_equal.
      now apply store_element_pointwise.
    + reflexivity.
  - cbn [store]. rewrite store_property_twice. f_equal.
    now apply store_property_pointwise.
Qed.

(** Storing at a location the value it holds changes nothing. *)
Lemma store_same root p old : locate root p = Some old -> store root p old = root.
Proof.
  revert root. induction p as [|seg rest IH]; intros root; simpl; [congruence|].
  destruct root as [| | | | |l|pr ps]; try discriminate.
  - destruct (array_index _) as [i|]; [|discriminate].
    destruct (nth_error _ _) as [c|] eqn:Hc; [|discriminate].
    intros H. f_equal. eapply store_element_id; eauto.
  - destruct (lookup _ _) as [c|] eqn:Hc; [|discriminate].
    intros H. f_equal. eapply store_property_id; eauto.
Qed.

(** The text [applyEdit] returns for a JSON document and a JSON value parses
    to the edited tree. *)
Lemma applyEdit_parses rawJson root path old newValue :
  JSON_parse rawJson = Ret root ->
  json_value root = true ->
  json_value newValue = true ->
  path <> [] ->
  locate root path = Some old ->
  exists text,
    applyEdit rawJson (Some path) newValue = Ret (Some text) /\
    JSON_parse text = Ret (store root path newValue).
Proof.
  intros Hparse Hroot Hnew Hne Hloc.
  destruct (path_snoc path Hne) as (pp & last & ->).
  rewrite (applyEdit_existing _ _ _ _ _ newValue Hparse Hloc).
  apply JSON_parse_stringify. now apply json_value_store.
Qed.

End EditedTexts.

(** * The claims *)

(** C1, as the code has it.  The claim: an undefined intermediate location
    makes [applyEdit] fail with [InvalidPath].  On a document without key
    [x] and the path [x, y, z], the walk of line 86 reads a property of
    [undefined] at [y], before the check of line 91 is reached, and the
    failure is a [TypeError]. *)
Theorem applyEdit_undefined_before_parent_is_TypeError (newValue : value) :
  applyEdit (q "{}") (Some [Key "x"; Key "y"; Key "z"]) newValue = Throw TypeError.
Proof. reflexivity. Qed.

(** X6.  The part of C1 that holds: when the walk over all segments but the
    last ends at [undefined], the failure is [InvalidPath]. *)
Lemma applyEdit_undefined_parent rawJson root pp last newValue :
  JSON_parse rawJson = Ret root ->
  walk root pp = Ret VUndefined ->
  applyEdit rawJson (Some (pp ++ [last])%list) newValue = Throw InvalidPath.
Proof.
  intros Hparse Hwalk. rewrite (applyEdit_steps _ _ _ _ _ Hparse), Hwalk. reflexivity.
Qed.

Lemma applyEdit_undefined_parent_witness :
  applyEdit (q "{}") (Some ([Key "x"] ++ [Key "y"])%list) (num "1") = Throw InvalidPath.
Proof. apply (applyEdit_undefined_parent _ (object []) [Key "x"] (Key "y")); reflexivity. Defined.

(** X7.  And where it does not: when the walk reaches [undefined] with
    segments still to read before the last, the failure is [TypeError]. *)
Lemma applyEdit_undefined_earlier rawJson root pp seg more last newValue :
  JSON_parse rawJson = Ret root ->
  walk root pp = Ret VUndefined ->
  applyEdit rawJson (Some (pp ++ seg :: more ++ [last])%list) newValue = Throw TypeError.
Proof.
  intros Hparse Hwalk.
  replace (pp ++ seg :: more ++ [last])%list with ((pp ++ seg :: more) ++ [last])%list
    by now rewrite <- app_assoc.
  rewrite (applyEdit_steps _ _ _ _ _ Hparse).
  assert (Hthrow : forall v p, walk v pp = Ret VUndefined ->
                               walk v (pp ++ seg :: p)%list = Throw TypeError).
  { clear. induction pp as [|s r IH]; intros v p; simpl.
    - intros [= ->]. reflexivity.
    - destruct (get v (property_key s)); simpl; try discriminate. apply IH. }
  now rewrite (Hthrow root more Hwalk).
Qed.

Lemma applyEdit_undefined_earlier_witness :
  applyEdit (q "{'a':{}}") (Some ([Key "a"; Key "x"] ++ Key "y" :: [] ++ [Key "z"])%list)
            (num "1")
    = Throw TypeError.
Proof.
  apply (applyEdit_undefined_earlier _ (object [("a", object [])]) [Key "a"; Key "x"]);
    reflexivity.
Defined.




(** C3, as the code has it.  The claim: a key of the target whose value is an
    object or an array keeps its value whatever the fields are.  Line 154
    assigns every key of the coerced mapping without looking at the value it
    overwrites: a field named [d] replaces the nested object at [d]. *)
Theorem syncFields_overwrites_nested_key :
  syncFields (q "{'a':{'d':{'e':1}}}") (Some [Key "a"]) [field "d" "5" "number"]
    = pretty "{'a':{'d':5}}".
Proof. vm_compute. reflexivity. Qed.

(** C4.  [normalizeNodeData] returns a string for every list of rows (it
    neither throws nor returns [undefined]), and when the serialiser of its
    first branch throws, the result is the text form of the value. *)
Theorem normalizeNodeData_returns_string :
  (forall rows, exists text, normalizeNodeData rows = Ret (Some text)) /\
  (forall stringify row e,
      no_key (Row.key row) = true ->
      stringify 0%nat (scalar_value (Row.value row)) = Throw e ->
      exists text,
        ToString (scalar_value (Row.value row)) = Ret text /\
        normalizeNodeData_with stringify [row] = Ret (Some text)).
Proof.
  split.
  - intros [|row0 more]; [now exists "{}"|].
    unfold normalizeNodeData, normalizeNodeData_with.
    destruct ((List.length (row0 :: more) =? 1)%nat && no_key (Row.key row0)).
    + destruct (Row.value row0); eexists; reflexivity.
    + destruct (rowsObject_total (row0 :: more)) as (p & ps & ->). eexists; reflexivity.
  - intros stringify row e Hkey Hthrow.
    unfold normalizeNodeData_with. simpl. rewrite Hkey, Hthrow. simpl.
    destruct (Row.value row); simpl; eauto.
Qed.

Lemma normalizeNodeData_returns_string_witness :
  normalizeNodeData_with (fun _ _ => Throw TypeError) [Row.make None (SNumber (Number "42")) "number"]
    = Ret (Some "42").
Proof.
  destruct (proj2 normalizeNodeData_returns_string
              (fun _ _ => Throw TypeError)
              (Row.make None (SNumber (Number "42")) "number")
              TypeError eq_refl eq_refl) as (text & Htext & Hrun).
  injection Htext as <-. exact Hrun.
Defined.





(** The example of C6, evaluated. *)
Example syncFields_example :
  syncFields (q "{'a':{'b':1,'c':'keep','d':{'e':1}}}") (Some [Key "a"])
             [field "b" "99" "number"]
    = pretty "{'a':{'b':99,'d':{'e':1}}}".
Proof. vm_compute. reflexivity. Qed.

(** C7.  On a document that parses: with no path or the empty path, the
    result is [newValue] pretty-printed; with a path that resolves to a
    location, the result is the pretty-printed tree in which that location
    holds [newValue] and every location apart from the path holds what it
    held; and when the document and [newValue] are JSON values, the text
    returned parses to that tree. *)
Theorem applyEdit_replaces_location rawJson root :
  JSON_parse rawJson = Ret root ->
  (forall newValue,
      applyEdit rawJson None newValue = JSON_stringify 2 newValue /\
      applyEdit rawJson (Some []) newValue = JSON_stringify 2 newValue) /\
  (forall path old newValue,
      path <> [] ->
      locate root path = Some old ->
      (exists text, applyEdit rawJson (Some path) newValue = Ret (Some text)) /\
      applyEdit rawJson (Some path) newValue
        = JSON_stringify 2 (store root path newValue) /\
      locate (store root path newValue) path = Some newValue /\
      (forall other,
          apart path other = true ->
          locate (store root path newValue) other = locate root other) /\
      (json_value root = true -> json_value newValue = true ->
       exists text,
         applyEdit rawJson (Some path) newValue = Ret (Some text) /\
         JSON_parse text = Ret (store root path newValue))).
Proof.
  intros Hparse. split.
  - intros newValue. now apply applyEdit_root with root.
  - intros path old newValue Hne Hloc.
    assert (Hrun : applyEdit rawJson (Some path) newValue
                   = JSON_stringify 2 (store root path newValue)).
    { destruct (path_snoc path Hne) as (pp & last & ->).
      eapply applyEdit_existing; eauto. }
    split; [|split; [|split; [|split]]].
    + rewrite Hrun. apply JSON_stringify_container, store_container; auto.
      eapply locate_container; eauto.
    + exact Hrun.
    + eapply locate_store_same; eauto.
    + intros other. apply locate_store_apart.
    + intros Hroot Hnew. eapply applyEdit_parses; eauto.
Qed.

Lemma applyEdit_replaces_location_witness :
  applyEdit (q "{'a':{'b':1,'c':[1,2]}}") (Some [Key "a"; Key "b"]) (num "99")
    = pretty "{'a':{'b':99,'c':[1,2]}}" /\
  locate (store (object [("a", object [("b", num "1"); ("c", VArray [num "1"; num "2"])])])
                [Key "a"; Key "b"] (num "99"))
         [Key "a"; Key "c"]
    = Some (VArray [num "1"; num "2"]) /\
  exists text,
    applyEdit (q "{'a':{'b':1,'c':[1,2]}}") (Some [Key "a"; Key "b"]) (num "99")
      = Ret (Some text) /\
    JSON_parse text
      = Ret (object [("a", object [("b", num "99"); ("c", VArray [num "1"; num "2"])])]).
Proof.
  destruct (applyEdit_replaces_location
              (q "{'a':{'b':1,'c':[1,2]}}")
              (object [("a", object [("b", num "1"); ("c", VArray [num "1"; num "2"])])])
              eq_refl) as [_ H].
  destruct (H [Key "a"; Key "b"] (num "1") (num "99")) as (_ & Hrun & _ & Hframe & Htext).
  - discriminate.
  - reflexivity.
  - split; [|split].
    + rewrite Hrun. reflexivity.
    + rewrite (Hframe [Key "a"; Key "c"] eq_refl). reflexivity.
    + exact (Htext eq_refl eq_refl).
Defined.

(** The example of C7: the text returned parses to the edited document. *)
Example applyEdit_example :
  (text <- applyEdit (q "{'a':{'b':1,'c':[1,2]}}") (Some [Key "a"; Key "b"]) (num "99") ;;
   match text with Some t => JSON_parse t | None => Ret VUndefined end)
  = Ret (object [("a", object [("b", num "99"); ("c", VArray [num "1"; num "2"])])]).
Proof. vm_compute. reflexivity. Qed.

(** C8, amended.  A row or a field whose key is the empty string sets no
    key: [normalizeNodeData] renders a single such row as the bare value,
    the object built from rows is the one built from the keyed rows, and the
    object built from fields is the one built from the keyed fields. *)
Theorem empty_key_sets_no_key :
  (forall v t,
      normalizeNodeData [Row.make (Some "") v t] = normalizeNodeData [Row.make None v t] /\
      normalizeNodeData [Row.make (Some "") v t] = JSON_stringify 0 (scalar_value v)) /\
  (forall rows, rowsObject rows = rowsObject (filter (fun r => keyed (Row.key r)) rows)) /\
  (forall fields, updatedObj fields = updatedObj (filter (fun f => keyed (Field.key f)) fields)).
Proof.
  repeat split.
  - intros rows. unfold rowsObject. symmetry. apply forEach_filter.
    intros row obj Hkey. unfold keyed, no_key in Hkey. apply negb_false_iff in Hkey.
    destruct (negb _ && negb _); [|reflexivity].
    destruct (Row.key row) as [k|]; [|reflexivity]. now rewrite Hkey.
  - intros fields. unfold updatedObj. symmetry. apply forEach_filter.
    intros f obj Hkey. unfold keyed, no_key in Hkey. apply negb_false_iff in Hkey.
    destruct (Field.key f) as [k|]; [|reflexivity]. now rewrite Hkey.
Qed.

(** C8 as stated fails for the deletion of line 149, which compares keys
    with [===]: a field whose key is the empty string keeps the target's
    property of that name, which is deleted when the field is absent. *)
Lemma empty_key_field_keeps_property :
  syncFields (q "{'':1}") None [field "" "1" "number"] = pretty "{'':1}" /\
  syncFields (q "{'':1}") None [] = pretty "{}" /\
  syncFields (q "{'':1}") None [field "" "1" "number"]
    <> syncFields (q "{'':1}") None
         (filter (fun f => keyed (Field.key f)) [field "" "1" "number"]).
Proof.
  repeat split; try (vm_compute; reflexivity).
  vm_compute. discriminate.
Qed.

(** C9, amended.  When the segments before the last resolve to an object
    that has no property of the last segment's name (the accessor
    [__proto__] apart), or to an array shorter than the last segment's index,
    [applyEdit] returns a document: the new location holds [newValue], and
    every location apart from the path holds what it held. *)
Theorem applyEdit_inserts_into_container rawJson root parentPath last parent newValue :
  JSON_parse rawJson = Ret root ->
  locate root parentPath = Some parent ->
  takes_new parent (property_key last) = true ->
  exists root' text,
    applyEdit rawJson (Some (parentPath ++ [last])%list) newValue = Ret (Some text) /\
    JSON_stringify 2 root' = Ret (Some text) /\
    locate root' (parentPath ++ [last])%list = Some newValue /\
    forall other w,
      apart (parentPath ++ [last])%list other = true ->
      locate root other = Some w -> locate root' other = Some w.
Proof. apply applyEdit_new. Qed.

Lemma applyEdit_inserts_into_container_witness :
  exists root' text,
    applyEdit (q "{'a':{'c':[1]}}") (Some ([Key "a"] ++ [Key "b"])%list) (num "1")
      = Ret (Some text) /\
    JSON_stringify 2 root' = Ret (Some text) /\
    locate root' ([Key "a"] ++ [Key "b"])%list = Some (num "1") /\
    forall other w,
      apart ([Key "a"] ++ [Key "b"])%list other = true ->
      locate (object [("a", object [("c", VArray [num "1"])])]) other = Some w ->
      locate root' other = Some w.
Proof.
  apply (applyEdit_inserts_into_container
           (q "{'a':{'c':[1]}}") (object [("a", object [("c", VArray [num "1"])])])
           [Key "a"] (Key "b") (object [("c", VArray [num "1"])]) (num "1"));
    reflexivity.
Defined.

(** C9 as stated fails when the segments before the last resolve to
    [null]: the assignment of line 94 throws [TypeError]. *)
Lemma applyEdit_null_parent_throws :
  walk (object [("a", VNull)]) [Key "a"] = Ret VNull /\
  applyEdit (q "{'a':null}") (Some [Key "a"; Key "b"]) (num "1") = Throw TypeError.
Proof. split; reflexivity. Qed.



(** * Further properties *)




(** The path formatter on the examples of its contract. *)
Example jsonPathToString_examples :
  jsonPathToString None = "$" /\
  jsonPathToString (Some []) = "$" /\
  jsonPathToString (Some [Key "a"; Index 0; Key "b"]) = q "$['a'][0]['b']" /\
  jsonPathToString (Some [Key "customer"; Index 0; Key "id"]) = q "$['customer'][0]['id']".
Proof. repeat split. Qed.

(** The normaliser on the examples of its contract: no rows, a bare
    scalar, and keyed rows among which the nested ones are left out. *)
Example normalizeNodeData_examples :
  normalizeNodeData [] = Ret (Some "{}") /\
  normalizeNodeData [Row.make None (SNumber (Number "42")) "number"] = Ret (Some "42") /\
  normalizeNodeData [Row.make None (SString "hi") "string"] = Ret (Some (q "'hi'")) /\
  normalizeNodeData [Row.make (Some "id") (SNumber (Number "7")) "number";
                     Row.make (Some "tags") (SString "[2 items]") "array";
                     Row.make (Some "ok") (SBool true) "boolean"]
    = pretty "{'id':7,'ok':true}".
Proof. repeat split. Qed.

(** X5.  On an object target, a key whose value is an object or an array
    and which no field names keeps its value. *)
Theorem syncFields_keeps_unnamed_nested currentJson path fields root pr ps :
  JSON_parse currentJson = Ret root ->
  walk root (path_or_root path) = Ret (VObject pr ps) ->
  some_field_has_key fields "__proto__" = false ->
  exists ps',
    syncFields currentJson path fields
      = JSON_stringify 2 (store root (path_or_root path) (VObject pr ps')) /\
    forall k val,
      lookup k ps = Some val -> primitive_valued val = false ->
      some_field_has_key fields k = false ->
      lookup k ps' = Some val.
Proof.
  intros Hparse Hwalk Hproto.
  destruct (updatedObj_total fields) as (opr & ops & Hobj & Hkeys).
  assert (Hnone : lookup "__proto__" ops = None).
  { destruct (lookup "__proto__" ops) as [x|] eqn:E; [|reflexivity].
    rewrite (Hkeys _ _ E) in Hproto. discriminate. }
  destruct (syncFields_object fields currentJson path root pr ps opr ops
              Hparse Hwalk Hobj Hnone) as (ps' & Hrun & _ & Hmerged).
  exists ps'. split; [assumption|].
  intros k val Hk Hnested Hfield. rewrite Hmerged. unfold merged, to_delete.
  destruct (lookup k ops) as [x|] eqn:E.
  - rewrite (Hkeys _ _ E) in Hfield. discriminate.
  - now rewrite Hk, Hnested.
Qed.

Lemma syncFields_keeps_unnamed_nested_witness :
  exists ps',
    syncFields (q "{'a':{'b':1,'d':{'e':1}}}") (Some [Key "a"]) [field "b" "2" "number"]
      = JSON_stringify 2
          (store (object [("a", object [("b", num "1"); ("d", object [("e", num "1")])])])
                 (path_or_root (Some [Key "a"])) (VObject ObjectPrototype ps')) /\
    forall k val,
      lookup k [("b", num "1"); ("d", object [("e", num "1")])] = Some val ->
      primitive_valued val = false ->
      some_field_has_key [field "b" "2" "number"] k = false ->
      lookup k ps' = Some val.
Proof.
  apply (syncFields_keeps_unnamed_nested
           (q "{'a':{'b':1,'d':{'e':1}}}") (Some [Key "a"]) [field "b" "2" "number"]
           (object [("a", object [("b", num "1"); ("d", object [("e", num "1")])])]));
    reflexivity.
Defined.

(** X8.  An edit is undone by an edit: on a JSON document, writing back the old
    value at the path of an edit returns the pretty-printed original tree;
    and the edit made twice returns the text of the edit made once. *)
Theorem applyEdit_undo rawJson root path old newValue :
  JSON_parse rawJson = Ret root ->
  json_value root = true ->
  json_value newValue = true ->
  path <> [] ->
  locate root path = Some old ->
  exists text,
    applyEdit rawJson (Some path) newValue = Ret (Some text) /\
    applyEdit text (Some path) old = JSON_stringify 2 root /\
    applyEdit text (Some path) newValue = Ret (Some text).
Proof.
  intros Hparse Hroot Hnew Hne Hloc.
  destruct (applyEdit_parses _ _ _ _ _ Hparse Hroot Hnew Hne Hloc) as (text & Hrun & Htext).
  exists text. split; [exact Hrun|].
  pose proof (locate_store_same root path old newValue Hloc) as Hloc'.
  destruct (path_snoc path Hne) as (pp & last & ->).
  rewrite (applyEdit_existing _ _ _ _ _ old Htext Hloc').
  rewrite (applyEdit_existing _ _ _ _ _ newValue Htext Hloc').
  rewrite !store_store, (store_same _ _ _ Hloc). split; [reflexivity|].
  now rewrite <- (applyEdit_existing _ _ _ _ _ newValue Hparse Hloc).
Qed.

Lemma applyEdit_undo_witness :
  exists text,
    applyEdit (q "{'a':{'b':1,'c':[1,2]}}") (Some [Key "a"; Key "b"]) (num "99")
      = Ret (Some text) /\
    applyEdit text (Some [Key "a"; Key "b"]) (num "1")
      = pretty "{'a':{'b':1,'c':[1,2]}}" /\
    applyEdit text (Some [Key "a"; Key "b"]) (num "99") = Ret (Some text).
Proof.
  apply (applyEdit_undo
           (q "{'a':{'b':1,'c':[1,2]}}")
           (object [("a", object [("b", num "1"); ("c", VArray [num "1"; num "2"])])])
           [Key "a"; Key "b"] (num "1") (num "99"));
    [reflexivity|reflexivity|reflexivity|discriminate|reflexivity].
Defined.

(** X9.  A keyed save that throws, throws the same error whatever the fields
    are, when no segment of the path and no field is named [length]: the
    failure is the document's or the path's. *)
Theorem syncFields_failure_not_from_fields currentJson path fields fields' e :
  ~ In "length" (map property_key (path_or_root path)) ->
  some_field_has_key fields "length" = false ->
  syncFields currentJson path fields = Throw e ->
  syncFields currentJson path fields' = Throw e.
Proof. apply syncFields_throw_independent. Qed.

Lemma syncFields_failure_not_from_fields_witness :
  syncFields (q "{}") (Some [Key "x"; Key "y"]) [field "n" "12" "number"] = Throw TypeError.
Proof.
  apply (syncFields_failure_not_from_fields
           (q "{}") (Some [Key "x"; Key "y"]) [field "n" "abc" "number"]).
  - simpl. intros [H|[H|[]]]; discriminate.
  - reflexivity.
  - reflexivity.
Defined.

(** The length of an array is the exception: on an array target, a
    field named [length] whose value is no array length is rejected by the
    runtime with a [RangeError], whether the value is the fallback text of a
    number or a text of type string; a numeric length is taken. *)
Example syncFields_array_length :
  coerce (field "length" "abc" "number") = VString "abc" /\
  syncFields (q "[1]") None [field "length" "abc" "number"] = Throw RangeError /\
  syncFields (q "[1]") None [field "length" "abc" "string"] = Throw RangeError /\
  syncFields (q "[1]") None [field "length" "1" "number"] = pretty "[null]".
Proof. repeat split; vm_compute; reflexivity. Qed.

(** * The path formatter *)

Section PathTexts.

Lemma concat_brackets segs :
  segs <> [] ->
  "[" ++ String.concat "][" (map segment_text segs) ++ "]"
  = String.concat "" (map bracketed segs).
Proof.
  induction segs as [|a [|b r] IH]; intros H; [congruence| |].
  - reflexivity.
  - specialize (IH ltac:(discriminate)).
    change (map bracketed (a :: b :: r)) with (bracketed a :: map bracketed (b :: r)).
    change (String.concat "" (bracketed a :: map bracketed (b :: r)))
      with (bracketed a ++ "" ++ String.concat "" (map bracketed (b :: r))).
    rewrite <- IH.
    change (map segment_text (a :: b :: r)) with (segment_text a :: map segment_text (b :: r)).
    change (String.concat "][" (segment_text a :: map segment_text (b :: r)))
      with (segment_text a ++ "][" ++ String.concat "][" (map segment_text (b :: r))).
    unfold bracketed. cbn [append]. rewrite !append_assoc. reflexivity.
Qed.

Lemma jsonPathToString_concat path :
  jsonPathToString (Some path) = "$" ++ String.concat "" (map bracketed path).
Proof.
  destruct path as [|a r]; [reflexivity|].
  change (jsonPathToString (Some (a :: r)))
    with ("$[" ++ String.concat "][" (map segment_text (a :: r)) ++ "]").
  rewrite <- concat_brackets by discriminate. reflexivity.
Qed.

Lemma concat_empty_cons x r : String.concat "" (x :: r) = x ++ String.concat "" r.
Proof. destruct r; simpl; [now rewrite append_nil_r|reflexivity]. Qed.

(** Two texts that stop at the first [c] are equal when what they start are. *)
Lemma stop_split (p : ascii -> bool) c s s' a a' :
  p c = false ->
  all_chars p s = true -> all_chars p s' = true ->
  s ++ String c a = s' ++ String c a' -> s = s' /\ a = a'.
Proof.
  intros Hc. revert s'. induction s as [|x s IH]; intros [|y s']; simpl.
  - intros _ _ [= ->]. auto.
  - intros _ H [= <- _]. rewrite Hc in H. discriminate.
  - intros H _ [= -> _]. rewrite Hc in H. discriminate.
  - intros H H' [= -> E].
    apply andb_prop in H, H'. destruct (IH s' (proj2 H) (proj2 H') E) as [-> ->]. auto.
Qed.

Lemma to_uint_nonnil n : N.to_uint n <> Decimal.Nil.
Proof. destruct n; [discriminate|apply DecimalPos.Unsigned.to_uint_nonnil]. Qed.

Lemma string_of_N_inj n m : string_of_N n = string_of_N m -> n = m.
Proof.
  unfold string_of_N. intros E. apply (f_equal NilZero.uint_of_string) in E.
  rewrite !NilZero.usu in E by apply to_uint_nonnil.
  apply DecimalN.Unsigned.to_uint_inj. congruence.
Qed.

Lemma index_text n :
  plain_segment (Index n) = true ->
  property_key (Index n) = string_of_N n /\
  all_chars is_digit (string_of_N n) = true /\
  exists d r, string_of_N n = String d r /\ is_digit d = true.
Proof.
  unfold plain_segment. destruct (array_index _) as [m|] eqn:E; [|discriminate].
  intros H. apply N.eqb_eq in H. subst m.
  pose proof (array_index_key _ _ E) as Hk. rewrite <- Hk.
  unfold array_index in E.
  destruct (property_key (Index n)) as [|d r] eqn:Ek; [discriminate|].
  destruct (all_chars is_digit (String d r)) eqn:Hd; [|discriminate].
  repeat split; auto. exists d, r. split; [reflexivity|].
  simpl in Hd. now apply andb_prop in Hd.
Qed.

Lemma bracketed_inj a b R R' :
  plain_segment a = true -> plain_segment b = true ->
  bracketed a ++ R = bracketed b ++ R' -> a = b /\ R = R'.
Proof.
  intros Ha Hb. unfold bracketed, segment_text.
  destruct a as [k|n], b as [k'|m].
  - cbn [append]. rewrite !append_assoc. cbn [append]. intros [= E].
    destruct (stop_split _ dquote _ _ _ _ eq_refl Ha Hb E) as [-> [= ->]]. auto.
  - destruct (index_text m Hb) as (-> & _ & d & r & -> & Hd).
    cbn [append]. intros [= <- _]. discriminate.
  - destruct (index_text n Ha) as (-> & _ & d & r & -> & Hd).
    cbn [append]. intros [= -> _]. discriminate.
  - destruct (index_text n Ha) as (-> & Hn & _).
    destruct (index_text m Hb) as (-> & Hm & _).
    cbn [append]. rewrite !append_assoc. cbn [append]. intros [= E].
    destruct (stop_split _ "]"%char _ _ _ _ eq_refl Hn Hm E) as [E' ->].
    apply string_of_N_inj in E'. subst. auto.
Qed.

(** X3.  The text of a path is [$] followed by each segment in brackets, a
    key quoted and an index bare. *)
Theorem jsonPathToString_brackets path :
  jsonPathToString path = "$" ++ String.concat "" (map bracketed (path_or_root path)).
Proof. destruct path as [p|]; [apply jsonPathToString_concat|reflexivity]. Qed.

(** X11.  Paths whose keys have no double quote and whose indices are array
    indices have different texts; a key is not escaped, so a key with a
    double quote can give the text of another path. *)
Theorem jsonPathToString_unambiguous :
  (forall p o,
      forallb plain_segment p = true -> forallb plain_segment o = true ->
      jsonPathToString (Some p) = jsonPathToString (Some o) -> p = o) /\
  (jsonPathToString (Some [Key (q "a']['b")]) = jsonPathToString (Some [Key "a"; Key "b"]) /\
   [Key (q "a']['b")] <> [Key "a"; Key "b"]).
Proof.
  split; [|split; [reflexivity|discriminate]].
  intros p o Hp Ho. rewrite !jsonPathToString_concat. intros [= E]. revert o Ho E.
  induction p as [|a p IH]; intros [|b o] Ho; simpl map; rewrite ?concat_empty_cons.
  - reflexivity.
  - unfold bracketed. discriminate.
  - unfold bracketed. discriminate.
  - simpl in Hp, Ho. apply andb_prop in Hp, Ho. intros E.
    destruct (bracketed_inj a b _ _ (proj1 Hp) (proj1 Ho) E) as [-> E'].
    f_equal. apply IH; tauto.
Qed.

End PathTexts.

(** * Property order *)

Section OrderedKeys.

Lemma map_fst_replace k x ps : map fst (replace k x ps) = map fst ps.
Proof.
  induction ps as [|[k' x'] r IH]; simpl; [reflexivity|].
  destruct (k' =? k) eqn:E; simpl; [|now rewrite IH].
  reflexivity.
Qed.

Lemma replace_same k x ps : lookup k ps = Some x -> replace k x ps = ps.
Proof.
  induction ps as [|[k' x'] r IH]; simpl; [reflexivity|].
  destruct (k' =? k); [now intros [= ->]|]. intros H. now rewrite IH.
Qed.

Lemma ordered_app ks k :
  ordered ks = true -> (forall k', In k' ks -> precedes k' k = true) ->
  ordered (ks ++ [k]) = true.
Proof.
  induction ks as [|a r IH]; simpl; [reflexivity|].
  intros H Hk. apply andb_prop in H. destruct H as [Ha Hr].
  apply andb_true_intro. split.
  - rewrite forallb_app, Ha. simpl. now rewrite (Hk a (or_introl eq_refl)).
  - apply IH; auto.
Qed.

Lemma In_insert_index a i k x ps :
  In a (map fst (insert_index i k x ps)) -> a = k \/ In a (map fst ps).
Proof.
  induction ps as [|[k' x'] r IH]; simpl.
  - intros [<-|[]]. now left.
  - destruct (array_index k') as [j|].
    + destruct (j <? i)%N; simpl.
      * intros [<-|H]; [now right; left|]. destruct (IH H); auto.
      * intros [<-|H]; auto.
    + simpl. intros [<-|H]; auto.
Qed.

Lemma precedes_trans_index k' k'' k i :
  array_index k = Some i ->
  precedes k k' = true -> precedes k' k'' = true -> precedes k k'' = true.
Proof.
  unfold precedes. intros ->.
  destruct (array_index k') as [j|], (array_index k'') as [j'|]; try discriminate; auto.
  rewrite !N.ltb_lt. lia.
Qed.

Lemma ordered_insert_index i k x ps :
  array_index k = Some i ->
  lookup k ps = None ->
  ordered (map fst ps) = true ->
  ordered (map fst (insert_index i k x ps)) = true.
Proof.
  intros Hk. induction ps as [|[k' x'] r IH]; simpl; [reflexivity|].
  destruct (String.eqb_spec k' k) as [->|Hne]; [discriminate|].
  intros Hnone H. apply andb_prop in H. destruct H as [Hall Hr].
  assert (Hfirst : forall j, array_index k' = Some j -> (j <? i)%N = false ->
                             precedes k k' = true).
  { intros j Hj Hlt. unfold precedes. rewrite Hk, Hj. apply N.ltb_lt.
    apply N.ltb_ge in Hlt. assert (j <> i); [|lia].
    intros ->. apply Hne. eapply array_index_inj; eauto. }
  assert (Hhead : precedes k k' = true ->
                  forallb (precedes k) (k' :: map fst r) && (forallb (precedes k') (map fst r) && ordered (map fst r)) = true).
  { intros Hp. rewrite Hall, Hr. simpl. rewrite Hp. simpl. rewrite andb_true_r.
    apply forallb_forall. intros a Ha. rewrite forallb_forall in Hall.
    eapply precedes_trans_index; eauto. }
  destruct (array_index k') as [j|] eqn:Hj.
  - destruct (j <? i)%N eqn:Hlt; simpl.
    + apply andb_true_intro. split; [|now apply IH].
      apply forallb_forall. intros a Ha. destruct (In_insert_index _ _ _ _ _ Ha) as [->|Hin].
      * unfold precedes. now rewrite Hj, Hk.
      * rewrite forallb_forall in Hall. now apply Hall.
    + apply Hhead. eapply Hfirst; eauto.
  - simpl. apply Hhead. unfold precedes. now rewrite Hk, Hj.
Qed.

(** Defining a property keeps the keys in property order. *)
Lemma ordered_define k x ps :
  ordered (map fst ps) = true -> ordered (map fst (define k x ps)) = true.
Proof.
  intros H. unfold define. destruct (lookup k ps) as [y|] eqn:Hl.
  - now rewrite map_fst_replace.
  - destruct (array_index k) as [i|] eqn:Hk; [now apply ordered_insert_index|].
    rewrite map_app. simpl. apply ordered_app; [assumption|].
    intros k' Hin. unfold precedes. rewrite Hk. destruct (array_index k'); [reflexivity|].
    apply negb_true_iff. apply String.eqb_neq. intros ->.
    destruct (In_lookup _ _ Hin) as (y & Hy). congruence.
Qed.

Lemma forallb_precedes_filter (keep : string -> bool) k ks :
  forallb (precedes k) ks = true -> forallb (precedes k) (filter keep ks) = true.
Proof.
  rewrite !forallb_forall. intros H a Ha. apply filter_In in Ha. now apply H.
Qed.

Lemma map_fst_remove k ps :
  map fst (remove k ps) = filter (fun a => negb (a =? k)) (map fst ps).
Proof.
  unfold remove. induction ps as [|[k' x'] r IH]; simpl; [reflexivity|].
  destruct (negb (k' =? k)); simpl; now rewrite IH.
Qed.

(** Removing a property keeps the keys in property order. *)
Lemma ordered_remove k ps :
  ordered (map fst ps) = true -> ordered (map fst (remove k ps)) = true.
Proof.
  rewrite map_fst_remove. generalize (map fst ps). intros ks.
  induction ks as [|a r IH]; simpl; [reflexivity|].
  intros H. apply andb_prop in H. destruct H as [Ha Hr].
  destruct (negb (a =? k)); simpl; [|now apply IH].
  rewrite IH by assumption. now rewrite forallb_precedes_filter.
Qed.

Lemma values_define (P : value -> bool) k x ps :
  P x = true -> forallb P (map snd ps) = true -> forallb P (map snd (define k x ps)) = true.
Proof.
  intros Hx H. unfold define. destruct (lookup k ps).
  - induction ps as [|[k' x'] r IH]; simpl in *; [reflexivity|].
    apply andb_prop in H. destruct H as [H1 H2].
    destruct (k' =? k); simpl; [now rewrite Hx, H2|]. now rewrite H1, IH.
  - destruct (array_index k) as [i|].
    + induction ps as [|[k' x'] r IH]; simpl in *; [now rewrite Hx|].
      apply andb_prop in H. destruct H as [H1 H2].
      destruct (array_index k') as [j|]; [destruct (j <? i)%N|]; simpl;
        rewrite ?Hx, ?H1, ?H2, ?IH; auto.
    + rewrite map_app, forallb_app, H. simpl. now rewrite Hx.
Qed.

Lemma values_remove (P : value -> bool) k ps :
  forallb P (map snd ps) = true -> forallb P (map snd (remove k ps)) = true.
Proof.
  unfold remove. induction ps as [|[k' x'] r IH]; simpl; [reflexivity|].
  intros H. apply andb_prop in H. destruct H as [H1 H2].
  destruct (negb (k' =? k)); simpl; [now rewrite H1, IH|auto].
Qed.

(** An ordinary object stays a JSON value when a JSON value is defined in
    it, and when a property is removed. *)
Lemma json_value_define k x ps :
  json_value (VObject ObjectPrototype ps) = true -> json_value x = true ->
  json_value (VObject ObjectPrototype (define k x ps)) = true.
Proof.
  rewrite !json_object. intros H Hx. apply andb_prop in H. destruct H as [H Hv].
  simpl in H. simpl. rewrite ordered_define by assumption. now apply values_define.
Qed.

Lemma json_value_remove k ps :
  json_value (VObject ObjectPrototype ps) = true ->
  json_value (VObject ObjectPrototype (remove k ps)) = true.
Proof.
  rewrite !json_object. intros H. apply andb_prop in H. destruct H as [H Hv].
  simpl in H. simpl. rewrite ordered_remove by assumption. now apply values_remove.
Qed.

End OrderedKeys.

(** * The text of the normaliser *)

Section NormalizerTexts.

Lemma rowsObject_fold rows ps :
  forallb json_row rows = true ->
  forEach rows
    (fun row obj =>
       if negb (Row.type row =? "array") && negb (Row.type row =? "object") then
         match Row.key row with
         | Some k => if k =? "" then Ret obj else set obj k (scalar_value (Row.value row))
         | None => Ret obj
         end
       else Ret obj)
    (VObject ObjectPrototype ps)
  = Ret (VObject ObjectPrototype (fold_left rows_step rows ps)).
Proof.
  revert ps. induction rows as [|r rows IH]; intros ps H; [reflexivity|].
  simpl in H. apply andb_prop in H. destruct H as [Hr Hrows].
  cbn [forEach fold_left]. unfold rows_step at 2, is_primitive_row.
  destruct (negb (Row.type r =? "array") && negb (Row.type r =? "object")); cbn [bind]; auto.
  unfold json_row in Hr. apply andb_prop in Hr. destruct Hr as [_ Hk].
  destruct (Row.key r) as [k|]; cbn [bind]; auto.
  destruct (k =? ""); cbn [bind]; auto.
  apply negb_true_iff in Hk. rewrite (set_object_define _ _ _ _ Hk). cbn [bind]. auto.
Qed.

Lemma json_value_rows rows ps :
  forallb json_row rows = true ->
  json_value (VObject ObjectPrototype ps) = true ->
  json_value (VObject ObjectPrototype (fold_left rows_step rows ps)) = true.
Proof.
  revert ps. induction rows as [|r rows IH]; intros ps H Hps; [exact Hps|].
  simpl in H. apply andb_prop in H. destruct H as [Hr Hrows].
  cbn [fold_left]. apply IH; [assumption|]. unfold rows_step.
  destruct (is_primitive_row r); [|assumption].
  destruct (Row.key r) as [k|]; [|assumption].
  destruct (k =? ""); [assumption|].
  apply json_value_define; [assumption|].
  unfold json_row in Hr. now apply andb_prop in Hr.
Qed.

Lemma lookup_rows k rows ps :
  lookup k (fold_left rows_step rows ps)
  = fold_left (fun acc r => if sets_key r k then Some (scalar_value (Row.value r)) else acc)
              rows (lookup k ps).
Proof.
  revert ps. induction rows as [|r rows IH]; intros ps; [reflexivity|].
  cbn [fold_left]. rewrite IH. f_equal. unfold rows_step, sets_key.
  destruct (is_primitive_row r); [|reflexivity]. simpl andb.
  destruct (Row.key r) as [s|]; [|reflexivity].
  destruct (s =? ""); [reflexivity|].
  rewrite lookup_define. simpl. now destruct (s =? k).
Qed.

Lemma scalar_text space v :
  JSON_stringify space (scalar_value v) = JSON_stringify 2 (scalar_value v).
Proof. now destruct v. Qed.

End NormalizerTexts.

(** X4.  The text of [normalizeNodeData] parses back to what the rows show: the
    value of a single row without a key, and otherwise the object of the
    rows of primitive type that have a key, each key with the value of the
    last row that has it. *)
Theorem normalizeNodeData_parses rows :
  forallb json_row rows = true ->
  exists text,
    normalizeNodeData rows = Ret (Some text) /\
    match rows with
    | [row] =>
        if no_key (Row.key row) then JSON_parse text = Ret (scalar_value (Row.value row))
        else exists ps, JSON_parse text = Ret (VObject ObjectPrototype ps) /\
                        forall k, lookup k ps = shown rows k
    | _ => exists ps, JSON_parse text = Ret (VObject ObjectPrototype ps) /\
                      forall k, lookup k ps = shown rows k
    end.
Proof.
  intros Hrows.
  assert (Hobject : forall row0 more,
             rows = row0 :: more ->
             (List.length rows =? 1)%nat && no_key (Row.key row0) = false ->
             exists text,
               normalizeNodeData rows = Ret (Some text) /\
               exists ps, JSON_parse text = Ret (VObject ObjectPrototype ps) /\
                          forall k, lookup k ps = shown rows k).
  { intros row0 more E Hcase.
    unfold normalizeNodeData, normalizeNodeData_with. rewrite E in *. rewrite Hcase.
    unfold rowsObject, empty_object. rewrite (rowsObject_fold _ [] Hrows). cbn [bind].
    destruct (JSON_parse_stringify _ (json_value_rows _ [] Hrows eq_refl)) as (text & -> & Hp).
    exists text. split; [reflexivity|]. eexists. split; [exact Hp|].
    intros k. apply lookup_rows. }
  destruct rows as [|row0 [|row1 more]].
  - exists "{}". split; [reflexivity|]. exists []. split; reflexivity.
  - destruct (no_key (Row.key row0)) eqn:Hkey.
    + unfold normalizeNodeData, normalizeNodeData_with. simpl List.length. simpl andb.
      rewrite Hkey. cbv iota. rewrite scalar_text.
      simpl in Hrows. rewrite andb_true_r in Hrows. unfold json_row in Hrows.
      apply andb_prop in Hrows. destruct Hrows as [Hv _].
      destruct (JSON_parse_stringify _ Hv) as (text & -> & Hp).
      exists text. split; [reflexivity|exact Hp].
    + apply (Hobject row0 []); [reflexivity|]. simpl. now rewrite Hkey.
  - apply (Hobject row0 (row1 :: more)); reflexivity.
Qed.

Lemma normalizeNodeData_parses_witness :
  exists text,
    normalizeNodeData [Row.make (Some "id") (SNumber (Number "7")) "number";
                       Row.make (Some "tags") (SString "[2 items]") "array";
                       Row.make (Some "id") (SString "x") "string"]
      = Ret (Some text) /\
    exists ps, JSON_parse text = Ret (VObject ObjectPrototype ps) /\
               forall k, lookup k ps
                         = shown [Row.make (Some "id") (SNumber (Number "7")) "number";
                                  Row.make (Some "tags") (SString "[2 items]") "array";
                                  Row.make (Some "id") (SString "x") "string"] k.
Proof.
  apply (normalizeNodeData_parses
           [Row.make (Some "id") (SNumber (Number "7")) "number";
            Row.make (Some "tags") (SString "[2 items]") "array";
            Row.make (Some "id") (SString "x") "string"]).
  reflexivity.
Defined.

(** * Numbers and their texts *)

Section NumberTexts.

Lemma unsigned_decimal_int neg ip :
  all_chars is_digit ip = true -> ip <> "" ->
  unsigned_decimal neg ip = decimal neg ip (Z.of_nat (String.length ip)).
Proof.
  intros Hd Hne. unfold unsigned_decimal.
  rewrite <- (append_nil_r ip) at 1. rewrite (span_all is_digit ip "" Hd I).
  rewrite append_nil_r. destruct ip; [congruence|]. cbn [exponent_part].
  now rewrite Z.add_0_r.
Qed.

Lemma unsigned_decimal_frac neg ip fp :
  all_chars is_digit ip = true -> all_chars is_digit fp = true -> (ip ++ fp) <> "" ->
  unsigned_decimal neg (ip ++ String "." fp)
  = decimal neg (ip ++ fp) (Z.of_nat (String.length ip)).
Proof.
  intros Hi Hf Hne. unfold unsigned_decimal.
  rewrite (span_all is_digit ip (String "." fp) Hi eq_refl).
  rewrite <- (append_nil_r fp) at 1. rewrite (span_all is_digit fp "" Hf I).
  destruct (ip ++ fp); [congruence|]. cbn [exponent_part].
  now rewrite Z.add_0_r.
Qed.

(** The text of a plain number, read as an unsigned decimal literal. *)
Lemma unsigned_decimal_plain neg d r p :
  canonical (String d r) = true ->
  (-6 < p <= 21)%Z ->
  unsigned_decimal neg (number_to_string (Finite false (String d r) p))
  = Finite neg (String d r) p.
Proof.
  intros Hc Hp. destruct (canonical_parts d r Hc) as (Hd & Hz & _).
  unfold number_to_string. cbn [append].
  set (ds := String d r) in *. set (k := Z.of_nat (String.length ds)).
  assert (Hk : (0 < k)%Z) by (unfold k, ds; simpl; lia).
  destruct ((k <=? p)%Z && (p <=? 21)%Z) eqn:Ea.
  - apply andb_prop in Ea. destruct Ea as [Ea _]. apply Z.leb_le in Ea.
    change (String d (r ++ repeat_char "0" (Z.to_nat (p - k))))
      with (ds ++ repeat_char "0" (Z.to_nat (p - k))).
    rewrite unsigned_decimal_int.
    + unfold ds. rewrite decimal_zeros by exact Hc. f_equal.
      fold ds. rewrite length_append, length_repeat_char. fold k. lia.
    + rewrite all_chars_app, Hd. now rewrite all_chars_repeat.
    + discriminate.
  - assert (Hlt : (p < k)%Z).
    { destruct (Z.leb_spec k p) as [H|H]; [|assumption].
      destruct (Z.leb_spec p 21) as [H'|H']; [discriminate|lia]. }
    destruct ((0 <? p)%Z && (p <=? 21)%Z) eqn:Eb.
    + apply andb_prop in Eb. destruct Eb as [Eb _]. apply Z.ltb_lt in Eb.
      assert (Hlen : (Z.to_nat p <= String.length ds)%nat) by (unfold k in Hlt; lia).
      assert (Hsplit : substring 0 (Z.to_nat p) ds
                       ++ substring (Z.to_nat p) (Z.to_nat (k - p)) ds = ds).
      { replace (Z.to_nat (k - p)) with (String.length ds - Z.to_nat p)%nat by (unfold k; lia).
        now apply substring_0_app. }
      rewrite unsigned_decimal_frac.
      * rewrite Hsplit. unfold ds. rewrite decimal_canonical by exact Hc.
        f_equal. fold ds. rewrite length_substring; lia.
      * now apply all_chars_substring.
      * now apply all_chars_substring.
      * rewrite Hsplit. discriminate.
    + assert (Hle : (p <= 0)%Z).
      { destruct (Z.ltb_spec 0 p) as [H|H]; [|assumption].
        destruct (Z.leb_spec p 21) as [H'|H']; [discriminate|lia]. }
      assert (Ec : (-6 <? p)%Z && (p <=? 0)%Z = true).
      { apply andb_true_intro. split; [apply Z.ltb_lt|apply Z.leb_le]; lia. }
      rewrite Ec.
      change (String "0" (String "." (repeat_char "0" (Z.to_nat (- p)) ++ ds)))
        with ("0" ++ String "." (repeat_char "0" (Z.to_nat (- p)) ++ ds)).
      rewrite unsigned_decimal_frac.
      * change ("0" ++ repeat_char "0" (Z.to_nat (- p)) ++ ds)
          with (repeat_char "0" (S (Z.to_nat (- p))) ++ ds).
        unfold ds. rewrite decimal_leading by exact Hc. f_equal.
        change (String.length "0") with 1%nat. lia.
      * reflexivity.
      * rewrite all_chars_app, Hd. now rewrite all_chars_repeat.
      * discriminate.
Qed.

Lemma all_chars_weaken (p p' : ascii -> bool) s :
  (forall c, p c = true -> p' c = true) -> all_chars p s = true -> all_chars p' s = true.
Proof.
  intros H. induction s as [|c s IH]; simpl; [reflexivity|].
  intros E. apply andb_prop in E. destruct E as [Ec Es]. now rewrite (H c Ec), IH.
Qed.

Lemma plain_text_chars d r p :
  canonical (String d r) = true ->
  (-6 < p <= 21)%Z ->
  all_chars numeric_char (number_to_string (Finite false (String d r) p)) = true.
Proof.
  intros Hc Hp. destruct (canonical_parts d r Hc) as (Hd & _ & _).
  assert (Hn : all_chars numeric_char (String d r) = true).
  { revert Hd. apply all_chars_weaken. intros c H. unfold numeric_char. now rewrite H. }
  assert (Hsub : forall n m, all_chars numeric_char (substring n m (String d r)) = true)
    by (intros; now apply all_chars_substring).
  assert (Hzeros : forall m, all_chars numeric_char (repeat_char "0" m) = true)
    by (intros; now apply all_chars_repeat).
  unfold number_to_string. cbv beta iota zeta. change ("" ++ ?x) with x.
  destruct ((Z.of_nat (String.length (String d r)) <=? p)%Z && (p <=? 21)%Z).
  - now rewrite all_chars_app, Hn, Hzeros.
  - destruct ((0 <? p)%Z && (p <=? 21)%Z) eqn:Eb.
    + now rewrite !all_chars_app, !Hsub.
    + destruct ((-6 <? p)%Z && (p <=? 0)%Z) eqn:Ec.
      * now rewrite !all_chars_app, Hzeros, Hn.
      * exfalso. apply andb_false_iff in Ec. apply andb_false_iff in Eb.
        rewrite Z.ltb_ge, Z.leb_gt in Ec, Eb. lia.
Qed.

Lemma trim_end_id s :
  all_chars (fun c => negb (is_white_space c)) s = true -> trim_end s = s.
Proof.
  induction s as [|c s IH]; simpl; [reflexivity|].
  intros H. apply andb_prop in H. destruct H as [Hc Hs]. rewrite (IH Hs).
  apply negb_true_iff in Hc. rewrite Hc. now destruct s.
Qed.

Lemma trim_id s :
  all_chars (fun c => negb (is_white_space c)) s = true -> trim s = s.
Proof.
  intros H. unfold trim.
  assert (Hs : trim_start s = s).
  { destruct s as [|c s]; [reflexivity|]. simpl in *.
    apply andb_prop in H. destruct H as [Hc _]. apply negb_true_iff in Hc. now rewrite Hc. }
  rewrite Hs. now apply trim_end_id.
Qed.

Lemma numeric_char_not_white c :
  numeric_char c = true -> negb (is_white_space c) = true.
Proof.
  destruct c as [[] [] [] [] [] [] [] []]; intros H; try discriminate H; reflexivity.
Qed.

(** [Number] on a text that starts with a digit and is no prefixed
    literal. *)
Lemma Number_digits c b :
  is_digit c = true ->
  ((c =? "0")%char = true -> b = "" \/ exists b', b = String "." b') ->
  all_chars numeric_char (String c b) = true ->
  Number (String c b) = unsigned_decimal false (String c b).
Proof.
  intros Hd Hz Hn. unfold Number.
  rewrite trim_id by (revert Hn; apply all_chars_weaken, numeric_char_not_white).
  destruct c as [[] [] [] [] [] [] [] []]; try discriminate Hd; try reflexivity.
  destruct (Hz eq_refl) as [->|(b' & ->)]; reflexivity.
Qed.

Lemma Number_minus c b :
  is_digit c = true ->
  all_chars numeric_char (String c b) = true ->
  Number (String "-" (String c b)) = unsigned_decimal true (String c b).
Proof.
  intros Hd Hn. unfold Number.
  rewrite trim_id.
  - destruct c as [[] [] [] [] [] [] [] []]; try discriminate Hd; reflexivity.
  - change (all_chars (fun c0 => negb (is_white_space c0)) (String c b) = true).
    revert Hn. apply all_chars_weaken, numeric_char_not_white.
Qed.

Lemma plain_text_zero d r p b :
  canonical (String d r) = true ->
  (-6 < p <= 21)%Z ->
  number_to_string (Finite false (String d r) p) = String "0" b ->
  b = "" \/ exists b', b = String "." b'.
Proof.
  intros Hc Hp. destruct (canonical_parts d r Hc) as (_ & Hz & _).
  unfold number_to_string. cbv beta iota zeta. change ("" ++ ?x) with x.
  destruct ((Z.of_nat (String.length (String d r)) <=? p)%Z && (p <=? 21)%Z).
  - cbn [append]. intros [= -> _]. discriminate.
  - destruct ((0 <? p)%Z && (p <=? 21)%Z) eqn:Eb.
    + apply andb_prop in Eb. destruct Eb as [Eb _]. apply Z.ltb_lt in Eb.
      destruct (Z.to_nat p) as [|n] eqn:En; [lia|]. cbn [substring append].
      intros [= -> _]. discriminate.
    + destruct ((-6 <? p)%Z && (p <=? 0)%Z) eqn:Ec.
      * cbn [append]. intros [= <-]. right. eauto.
      * exfalso. apply andb_false_iff in Ec. apply andb_false_iff in Eb.
        rewrite Z.ltb_ge, Z.leb_gt in Ec, Eb. lia.
Qed.

(** [Number(String(n))] is [n], for the numbers written without an
    exponent. *)
Lemma Number_number_to_string n :
  plain_number n = true -> Number (number_to_string n) = n.
Proof.
  destruct n as [| |neg ds p]; try discriminate. intros Hn.
  destruct (plain_number_parts neg ds p Hn) as [(-> & -> & ->)|(d & r & -> & Hc & Hp)].
  - reflexivity.
  - destruct (plain_text_head d r p Hc Hp) as (c & b & Hhead & Hdigit).
    pose proof (plain_text_chars d r p Hc Hp) as Hchars.
    pose proof (unsigned_decimal_plain neg d r p Hc Hp) as Hread.
    pose proof (plain_text_zero d r p) as Hzero.
    assert (Htext : number_to_string (Finite neg (String d r) p)
                    = (if neg then "-" else "") ++ number_to_string (Finite false (String d r) p))
      by reflexivity.
    rewrite Htext. rewrite Hhead in *. destruct neg; cbn [append].
    + rewrite Number_minus; auto.
    + rewrite Number_digits; auto.
      intros E. apply Ascii.eqb_eq in E. subst c. eapply Hzero; eauto.
Qed.

End NumberTexts.

(** * The editable fields *)

Section EditableFields.

Lemma forEach_map {A B S : Type} (g : A -> B) (l : list A) (body : B -> S -> outcome S) s :
  forEach (map g l) body s = forEach l (fun a => body (g a)) s.
Proof.
  revert s. induction l as [|a r IH]; intros s; simpl; [reflexivity|].
  destruct (body (g a) s); simpl; auto.
Qed.

(** The typed value of the field of a row is the value of the row. *)
Lemma coerce_value_text k (v : scalar) :
  json_value (scalar_value v) = true ->
  coerce (Field.make k (value_text v) (type_tag v)) = scalar_value v.
Proof.
  destruct v as [|b|n|s]; intros Hv; try reflexivity.
  - now destruct b.
  - unfold coerce. simpl. rewrite (Number_number_to_string n Hv).
    destruct n; try discriminate. reflexivity.
Qed.

End EditableFields.

(** X12.  The object a save builds from the fields of a node that were not edited
    is the object [normalizeNodeData] builds from the rows of the node. *)
Theorem updatedObj_initialFields rows :
  forallb typed_row rows = true ->
  forallb (fun r => json_value (scalar_value (Row.value r))) rows = true ->
  updatedObj (initialFields rows) = rowsObject rows.
Proof.
  intros Htyped Hjson.
  set (prim := fun r => negb (Row.type r =? "array") && negb (Row.type r =? "object")).
  set (row_body := fun (row : Row.t) (obj : value) =>
         if negb (Row.type row =? "array") && negb (Row.type row =? "object") then
           match Row.key row with
           | Some k => if k =? "" then Ret obj else set obj k (scalar_value (Row.value row))
           | None => Ret obj
           end
         else Ret obj).
  assert (Hrows : rowsObject rows = forEach (filter prim rows) row_body empty_object).
  { unfold rowsObject. symmetry. apply forEach_filter.
    intros r obj H. unfold prim in H. unfold row_body. now rewrite H. }
  assert (Hprims : forall r, In r (filter prim rows) ->
             prim r = true /\ Row.type r = type_tag (Row.value r) /\
             json_value (scalar_value (Row.value r)) = true).
  { intros r Hin. apply filter_In in Hin. destruct Hin as [Hin Hp].
    rewrite forallb_forall in Htyped, Hjson. specialize (Htyped r Hin).
    unfold typed_row, is_primitive_row in Htyped. fold (prim r) in Htyped.
    rewrite Hp in Htyped. simpl in Htyped. apply String.eqb_eq in Htyped. auto. }
  assert (Hmap : updatedObj (map (fun r => Field.make (Row.key r) (value_text (Row.value r))
                                                      (Row.type r)) (filter prim rows))
                 = forEach (filter prim rows) row_body empty_object).
  { unfold updatedObj. rewrite forEach_map. apply forEach_ext.
    intros r obj Hin. destruct (Hprims r Hin) as (Hp & Ht & Hv).
    unfold row_body. fold (prim r). rewrite Hp. simpl Field.key.
    destruct (Row.key r) as [k|]; [|reflexivity].
    destruct (k =? ""); [reflexivity|]. rewrite Ht. now rewrite coerce_value_text. }
  rewrite Hrows. unfold initialFields. fold prim.
  destruct (filter prim rows) as [|r0 more] eqn:E; [reflexivity|].
  destruct ((List.length (r0 :: more) =? 1)%nat && no_key (Row.key r0)) eqn:Hcase.
  - apply andb_prop in Hcase. destruct Hcase as [Hlen Hkey].
    destruct more; [|discriminate]. unfold updatedObj. cbn [forEach]. simpl Field.key.
    unfold row_body. destruct (Hprims r0 (or_introl eq_refl)) as (Hp & _). fold (prim r0).
    rewrite Hp. unfold no_key in Hkey. destruct (Row.key r0) as [k|]; [|reflexivity].
    now rewrite Hkey.
  - exact Hmap.
Qed.

Lemma updatedObj_initialFields_witness :
  updatedObj (initialFields [Row.make (Some "id") (SNumber (Number "7.5")) "number";
                             Row.make (Some "tags") (SString "[2 items]") "array";
                             Row.make (Some "ok") (SBool true) "boolean";
                             Row.make (Some "note") SNull "null"])
  = rowsObject [Row.make (Some "id") (SNumber (Number "7.5")) "number";
                Row.make (Some "tags") (SString "[2 items]") "array";
                Row.make (Some "ok") (SBool true) "boolean";
                Row.make (Some "note") SNull "null"].
Proof. apply updatedObj_initialFields; reflexivity. Defined.

(** * Saves that change nothing, and saves made twice *)

Section SavedTexts.

Lemma syncFields_object_run fields currentJson path root pr ps opr ops :
  JSON_parse currentJson = Ret root ->
  walk root (path_or_root path) = Ret (VObject pr ps) ->
  updatedObj fields = Ret (VObject opr ops) ->
  lookup "__proto__" ops = None ->
  syncFields currentJson path fields
  = JSON_stringify 2 (store root (path_or_root path)
                        (VObject pr (merge_properties fields ps ops))).
Proof.
  intros Hparse Hwalk Hobj Hproto.
  unfold syncFields. rewrite Hobj. cbn [bind]. rewrite Hparse. cbn [bind].
  rewrite Hwalk. cbn [bind]. simpl typeof. simpl negb. simpl orb. cbv iota.
  simpl Object_keys. cbn [bind].
  rewrite (keysToDelete_run fields pr ps (map fst ps) [] (incl_refl _)). cbn [bind]. simpl app.
  rewrite delete_run. cbn [bind].
  rewrite set_run.
  - cbn [bind]. reflexivity.
  - intros k Hin. destruct (String.eqb_spec k "__proto__") as [->|]; [|reflexivity].
    apply In_lookup in Hin. destruct Hin as (x & Hx). congruence.
  - apply incl_refl.
Qed.

Lemma lookup_merge_properties fields ps ops k :
  lookup k (merge_properties fields ps ops) = merged fields ps ops k.
Proof.
  unfold merge_properties.
  rewrite lookup_fold_define, lookup_fold_remove, existsb_filter_to_delete.
  unfold merged. destruct (existsb (String.eqb k) (map fst ops)) eqn:E.
  - reflexivity.
  - destruct (lookup k ops) as [x|] eqn:Hx; [|reflexivity].
    apply lookup_In, existsb_eqb_In in Hx. congruence.
Qed.

(** Assigning to each key the value it has changes nothing. *)
Lemma set_loop_same pr ps opr ops uks :
  (forall k, In k uks -> exists x, lookup k ops = Some x /\ lookup k ps = Some x) ->
  forEach uks (fun k tgt => x <- get (VObject opr ops) k ;; set tgt k x) (VObject pr ps)
  = Ret (VObject pr ps).
Proof.
  induction uks as [|k r IH]; intros H; cbn [forEach]; [reflexivity|].
  destruct (H k (or_introl eq_refl)) as (x & Hx & Hp).
  rewrite (get_own opr ops k x Hx). cbn [bind].
  assert (Hset : set (VObject pr ps) k x = Ret (VObject pr ps)).
  { simpl. rewrite Hp. now rewrite (replace_same k x ps Hp). }
  rewrite Hset. cbn [bind]. apply IH. intros k' Hin. apply H. now right.
Qed.

Lemma filter_nil {A : Type} (f : A -> bool) (l : list A) :
  (forall a, In a l -> f a = false) -> filter f l = [].
Proof.
  induction l as [|a r IH]; intros H; simpl; [reflexivity|].
  rewrite (H a (or_introl eq_refl)). apply IH. intros; apply H; now right.
Qed.

Lemma syncFields_same fields currentJson path root pr ps opr ops :
  JSON_parse currentJson = Ret root ->
  walk root (path_or_root path) = Ret (VObject pr ps) ->
  updatedObj fields = Ret (VObject opr ops) ->
  (forall k v, lookup k ps = Some v -> primitive_valued v = true ->
               some_field_has_key fields k = true) ->
  (forall k x, lookup k ops = Some x -> lookup k ps = Some x) ->
  syncFields currentJson path fields = JSON_stringify 2 root.
Proof.
  intros Hparse Hwalk Hobj Hall Hsame.
  unfold syncFields. rewrite Hobj. cbn [bind]. rewrite Hparse. cbn [bind].
  rewrite Hwalk. cbn [bind]. simpl typeof. simpl negb. simpl orb. cbv iota.
  simpl Object_keys. cbn [bind].
  rewrite (keysToDelete_run fields pr ps (map fst ps) [] (incl_refl _)). cbn [bind]. simpl app.
  rewrite filter_nil.
  - cbn [forEach bind]. rewrite set_loop_same.
    + cbn [bind]. rewrite store_same; [reflexivity|].
      now apply walk_container_locate.
    + intros k Hin. destruct (In_lookup _ _ Hin) as (x & Hx). eauto.
  - intros k Hin. unfold to_delete. destruct (lookup k ps) as [v|] eqn:Hv; [|reflexivity].
    destruct (primitive_valued v) eqn:Hprim; [|reflexivity].
    now rewrite (Hall k v Hv Hprim).
Qed.

End SavedTexts.

(** X13.  A keyed save whose fields name every primitive key of the target and
    give each key the value it has returns the document as it is,
    pretty-printed. *)
Theorem syncFields_unchanged currentJson path fields root pr ps opr ops :
  JSON_parse currentJson = Ret root ->
  walk root (path_or_root path) = Ret (VObject pr ps) ->
  updatedObj fields = Ret (VObject opr ops) ->
  (forall k v, lookup k ps = Some v -> primitive_valued v = true ->
               some_field_has_key fields k = true) ->
  (forall k x, lookup k ops = Some x -> lookup k ps = Some x) ->
  syncFields currentJson path fields = JSON_stringify 2 root.
Proof. apply syncFields_same. Qed.

Lemma syncFields_unchanged_witness :
  syncFields (q "{'a':{'b':1,'c':'keep','d':{'e':1}}}") (Some [Key "a"])
             [field "c" "keep" "string"; field "b" "1" "number"]
  = pretty "{'a':{'b':1,'c':'keep','d':{'e':1}}}".
Proof.
  apply (syncFields_unchanged
           (q "{'a':{'b':1,'c':'keep','d':{'e':1}}}") (Some [Key "a"])
           [field "c" "keep" "string"; field "b" "1" "number"]
           (object [("a", object [("b", num "1"); ("c", VString "keep");
                                  ("d", object [("e", num "1")])])])
           ObjectPrototype
           [("b", num "1"); ("c", VString "keep"); ("d", object [("e", num "1")])]
           ObjectPrototype
           [("c", VString "keep"); ("b", num "1")]).
  - reflexivity.
  - reflexivity.
  - reflexivity.
  - intros k v. cbn [lookup].
    destruct (String.eqb_spec "b" k) as [<-|_]; [reflexivity|].
    destruct (String.eqb_spec "c" k) as [<-|_]; [reflexivity|].
    destruct (String.eqb_spec "d" k) as [<-|_]; [|discriminate].
    intros [= <-] H. discriminate H.
  - intros k x. cbn [lookup].
    destruct (String.eqb_spec "c" k) as [<-|_]; [now intros [= <-]|].
    destruct (String.eqb_spec "b" k) as [<-|_]; [now intros [= <-]|discriminate].
Defined.

Section SavedTwice.

(** Each value of the object built from the fields is the typed value of a
    field. *)
Lemma updatedObj_values fields :
  exists p ps,
    updatedObj fields = Ret (VObject p ps) /\
    (forall k x, lookup k ps = Some x -> some_field_has_key fields k = true) /\
    (forall k x, lookup k ps = Some x -> exists f, In f fields /\ coerce f = x).
Proof.
  unfold updatedObj.
  destruct (forEach_invariant
              (fun obj => is_object obj /\
                          (forall k x, lookup k (own_properties obj) = Some x ->
                                       some_field_has_key fields k = true) /\
                          (forall k x, lookup k (own_properties obj) = Some x ->
                                       exists f, In f fields /\ coerce f = x))
              fields
              (fun f obj =>
                 match Field.key f with
                 | Some k => if k =? "" then Ret obj else set obj k (coerce f)
                 | None => Ret obj
                 end)
              empty_object) as (obj & Hrun & Hobj & Hkeys & Hvalues).
  - split; [exact I|]. split; simpl; discriminate.
  - intros f obj Hin (Hobj & Hkeys & Hvalues).
    destruct (Field.key f) as [k|] eqn:Hk; [|eauto].
    destruct (k =? ""); [eauto|].
    destruct obj as [| | | | | |p ps]; try contradiction.
    destruct (set_object_scalar p ps k (coerce f) (coerce_scalar f)) as (p' & ps' & -> & Hps).
    eexists. split; [reflexivity|]. split; [exact I|].
    simpl. destruct Hps as [->| ->]; [auto|]. split.
    + intros k0 x0. rewrite lookup_define. destruct (String.eqb_spec k k0) as [<-|]; [|apply Hkeys].
      intros _. unfold some_field_has_key. apply existsb_exists.
      exists f. split; [assumption|]. now rewrite Hk, String.eqb_refl.
    + intros k0 x0. rewrite lookup_define. destruct (String.eqb_spec k k0) as [<-|]; [|apply Hvalues].
      intros [= <-]. eauto.
  - destruct obj; try contradiction. eauto.
Qed.

Lemma forallb_nth_error {A : Type} (P : A -> bool) l i (c : A) :
  forallb P l = true -> nth_error l i = Some c -> P c = true.
Proof.
  intros H Hc. rewrite forallb_forall in H. apply H. eapply nth_error_In; eauto.
Qed.

Lemma forallb_lookup (P : value -> bool) ps k c :
  forallb P (map snd ps) = true -> lookup k ps = Some c -> P c = true.
Proof.
  induction ps as [|[k' x] r IH]; simpl; [discriminate|].
  intros H. apply andb_prop in H. destruct H as [Hx Hr].
  destruct (k' =? k); [now intros [= <-]|auto].
Qed.

(** The value at a location of a JSON document is a JSON value. *)
Lemma json_value_locate root p v :
  json_value root = true -> locate root p = Some v -> json_value v = true.
Proof.
  revert root. induction p as [|seg rest IH]; intros root Hroot; simpl; [congruence|].
  destruct root as [| | | | |l|pr ps]; try discriminate.
  - destruct (array_index _) as [i|]; [|discriminate].
    destruct (nth_error _ _) as [c|] eqn:Hc; [|discriminate].
    apply IH. rewrite json_array in Hroot. eapply forallb_nth_error; eauto.
  - destruct (lookup _ _) as [c|] eqn:Hc; [|discriminate].
    apply IH. rewrite json_object in Hroot. apply andb_prop in Hroot.
    destruct Hroot as [_ Hvalues]. eapply forallb_lookup; eauto.
Qed.

Lemma json_value_fold_remove kd ps :
  json_value (VObject ObjectPrototype ps) = true ->
  json_value (VObject ObjectPrototype (fold_left (fun t k => remove k t) kd ps)) = true.
Proof.
  revert ps. induction kd as [|k r IH]; intros ps H; simpl; [assumption|].
  apply IH. now apply json_value_remove.
Qed.

Lemma json_value_fold_define ops uks ps :
  (forall k x, lookup k ops = Some x -> json_value x = true) ->
  json_value (VObject ObjectPrototype ps) = true ->
  json_value (VObject ObjectPrototype
                (fold_left (fun t k => match lookup k ops with
                                       | Some x => define k x t
                                       | None => t
                                       end) uks ps)) = true.
Proof.
  intros Hops. revert ps. induction uks as [|k r IH]; intros ps H; simpl; [assumption|].
  apply IH. destruct (lookup k ops) as [x|] eqn:Hx; [|assumption].
  apply json_value_define; eauto.
Qed.

Lemma json_value_merge fields ps ops :
  (forall k x, lookup k ops = Some x -> json_value x = true) ->
  json_value (VObject ObjectPrototype ps) = true ->
  json_value (VObject ObjectPrototype (merge_properties fields ps ops)) = true.
Proof.
  intros Hops H. unfold merge_properties.
  now apply json_value_fold_define, json_value_fold_remove.
Qed.

End SavedTwice.

(** X14.  On a JSON document whose target is an object, a keyed save with fields
    whose typed values are JSON values (and none named [__proto__]) returns
    a text that parses to the document with the merged target, and saving
    the same fields on that text returns the same text. *)
Theorem syncFields_idempotent currentJson path fields root pr ps opr ops :
  JSON_parse currentJson = Ret root ->
  json_value root = true ->
  walk root (path_or_root path) = Ret (VObject pr ps) ->
  updatedObj fields = Ret (VObject opr ops) ->
  some_field_has_key fields "__proto__" = false ->
  (forall f, In f fields -> json_value (coerce f) = true) ->
  exists text ps',
    syncFields currentJson path fields = Ret (Some text) /\
    JSON_parse text = Ret (store root (path_or_root path) (VObject pr ps')) /\
    (forall k, lookup k ps' = merged fields ps ops k) /\
    syncFields text path fields = Ret (Some text).
Proof.
  intros Hparse Hroot Hwalk Hobj Hproto Hfields.
  destruct (updatedObj_values fields) as (opr' & ops' & Hobj' & Hkeys & Hvalues).
  rewrite Hobj in Hobj'. injection Hobj' as <- <-.
  assert (Hnone : lookup "__proto__" ops = None).
  { destruct (lookup "__proto__" ops) as [x|] eqn:E; [|reflexivity].
    rewrite (Hkeys _ _ E) in Hproto. discriminate. }
  assert (Hops : forall k x, lookup k ops = Some x -> json_value x = true).
  { intros k x Hx. destruct (Hvalues k x Hx) as (f & Hin & <-). auto. }
  pose proof (walk_container_locate _ _ _ Hwalk eq_refl) as Hloc.
  pose proof (json_value_locate _ _ _ Hroot Hloc) as Htarget.
  assert (Hpr : pr = ObjectPrototype).
  { rewrite json_object in Htarget. destruct pr; [reflexivity|discriminate]. }
  subst pr.
  set (ps' := merge_properties fields ps ops).
  set (root' := store root (path_or_root path) (VObject ObjectPrototype ps')).
  assert (Hroot' : json_value root' = true).
  { apply json_value_store; [assumption|]. now apply json_value_merge. }
  destruct (JSON_parse_stringify root' Hroot') as (text & Htext & Hback).
  exists text, ps'.
  assert (Hrun : syncFields currentJson path fields = Ret (Some text)).
  { rewrite (syncFields_object_run fields _ _ _ _ _ _ _ Hparse Hwalk Hobj Hnone). exact Htext. }
  split; [exact Hrun|]. split; [exact Hback|].
  split; [intros k; apply lookup_merge_properties|].
  rewrite <- Htext.
  apply (syncFields_same fields text path root' ObjectPrototype ps' opr ops Hback).
  - apply locate_walk. unfold root'. eapply locate_store_same; eauto.
  - exact Hobj.
  - intros k v Hv Hprim. unfold ps' in Hv. rewrite lookup_merge_properties in Hv.
    unfold merged in Hv. destruct (lookup k ops) as [x|] eqn:Hx; [eauto|].
    unfold to_delete in Hv. destruct (lookup k ps) as [w|] eqn:Hw; [|discriminate].
    destruct (primitive_valued w) eqn:Hpw.
    + destruct (some_field_has_key fields k); [reflexivity|]. discriminate.
    + injection Hv as ->. congruence.
  - intros k x Hx. unfold ps'. rewrite lookup_merge_properties. unfold merged. now rewrite Hx.
Qed.

Lemma syncFields_idempotent_witness :
  exists text ps',
    syncFields (q "{'a':{'b':1,'c':'keep','d':{'e':1}}}") (Some [Key "a"])
               [field "b" "99" "number"; field "n" "x" "string"]
      = Ret (Some text) /\
    JSON_parse text
      = Ret (store (object [("a", object [("b", num "1"); ("c", VString "keep");
                                          ("d", object [("e", num "1")])])])
                   (path_or_root (Some [Key "a"])) (VObject ObjectPrototype ps')) /\
    (forall k, lookup k ps'
               = merged [field "b" "99" "number"; field "n" "x" "string"]
                        [("b", num "1"); ("c", VString "keep"); ("d", object [("e", num "1")])]
                        [("b", num "99"); ("n", VString "x")] k) /\
    syncFields text (Some [Key "a"]) [field "b" "99" "number"; field "n" "x" "string"]
      = Ret (Some text).
Proof.
  apply (syncFields_idempotent
           (q "{'a':{'b':1,'c':'keep','d':{'e':1}}}") (Some [Key "a"])
           [field "b" "99" "number"; field "n" "x" "string"]
           (object [("a", object [("b", num "1"); ("c", VString "keep");
                                  ("d", object [("e", num "1")])])])
           ObjectPrototype
           [("b", num "1"); ("c", VString "keep"); ("d", object [("e", num "1")])]
           ObjectPrototype
           [("b", num "99"); ("n", VString "x")]);
    try reflexivity.
  intros f [<-|[<-|[]]]; reflexivity.
Defined.

(** * Edits at locations apart *)

Section EditsApart.

Lemma store_property_comm k k' f g ps :
  k <> k' ->
  store_property k f (store_property k' g ps) = store_property k' g (store_property k f ps).
Proof.
  intros Hne. induction ps as [|[k0 x0] r IH]; simpl; [reflexivity|].
  destruct (k0 =? k') eqn:E'; destruct (k0 =? k) eqn:E; simpl; rewrite ?E, ?E'.
  - apply String.eqb_eq in E, E'. congruence.
  - reflexivity.
  - reflexivity.
  - now rewrite IH.
Qed.

Lemma store_element_comm i j f g l :
  i <> j ->
  store_element i f (store_element j g l) = store_element j g (store_element i f l).
Proof.
  revert i j. induction l as [|x r IH]; intros [|i] [|j] Hne; simpl; try reflexivity.
  - congruence.
  - rewrite IH; [reflexivity|congruence].
Qed.

(** Stores at paths that part ways commute. *)
Lemma store_apart_comm root p o x y :
  apart p o = true -> store (store root p x) o y = store (store root o y) p x.
Proof.
  revert root o. induction p as [|s p' IH]; intros root [|t o']; simpl apart; try discriminate.
  destruct (String.eqb_spec (property_key s) (property_key t)) as [E|Hne]; intros Ha.
  - destruct root as [| | | | |l|pr ps]; try reflexivity.
    + cbn [store]. rewrite E. destruct (array_index (property_key t)) as [i|] eqn:Hi.
      * cbn [store]. rewrite ?E, ?Hi, !store_element_twice. f_equal.
        apply store_element_pointwise. intros c. now apply IH.
      * cbn [store]. now rewrite ?E, ?Hi.
    + cbn [store]. rewrite ?E, !store_property_twice. f_equal.
      apply store_property_pointwise. intros c. now apply IH.
  - destruct root as [| | | | |l|pr ps]; try reflexivity.
    + cbn [store].
      destruct (array_index (property_key s)) as [i|] eqn:Hi;
        destruct (array_index (property_key t)) as [j|] eqn:Hj; cbn [store];
        rewrite ?Hi, ?Hj; try reflexivity.
      f_equal. apply store_element_comm. intros Eij. apply N2Nat.inj in Eij. subst j.
      apply Hne. eapply array_index_inj; eauto.
    + cbn [store]. f_equal. apply store_property_comm. congruence.
Qed.

Lemma apart_nonempty p o : apart p o = true -> p <> [] /\ o <> [].
Proof. destruct p, o; simpl; try discriminate. split; discriminate. Qed.

End EditsApart.

(** X15.  Two edits at locations apart commute: on a JSON document, editing one
    location and then the other returns the same text in either order. *)
Theorem applyEdit_apart_commute rawJson root p o a b x y :
  JSON_parse rawJson = Ret root ->
  json_value root = true ->
  json_value x = true -> json_value y = true ->
  locate root p = Some a -> locate root o = Some b ->
  apart p o = true ->
  exists first second text,
    applyEdit rawJson (Some p) x = Ret (Some first) /\
    applyEdit first (Some o) y = Ret (Some text) /\
    applyEdit rawJson (Some o) y = Ret (Some second) /\
    applyEdit second (Some p) x = Ret (Some text) /\
    JSON_parse text = Ret (store (store root p x) o y).
Proof.
  intros Hparse Hroot Hx Hy Hp Ho Ha.
  destruct (apart_nonempty p o Ha) as [Hpne Hone].
  assert (Ha' : apart o p = true).
  { clear -Ha. revert o Ha. induction p as [|s p IH]; intros [|t o]; simpl; try discriminate.
    rewrite (String.eqb_sym (property_key t)). destruct (_ =? _); auto. }
  destruct (applyEdit_parses _ _ _ _ x Hparse Hroot Hx Hpne Hp) as (first & Hfirst & Hback1).
  destruct (applyEdit_parses _ _ _ _ y Hparse Hroot Hy Hone Ho) as (second & Hsecond & Hback2).
  assert (Ho' : locate (store root p x) o = Some b)
    by (now rewrite locate_store_apart).
  assert (Hp' : locate (store root o y) p = Some a)
    by (now rewrite locate_store_apart).
  destruct (applyEdit_parses _ _ _ _ y Hback1 (json_value_store _ _ _ Hroot Hx) Hy Hone Ho')
    as (text & Htext & Hback).
  destruct (applyEdit_parses _ _ _ _ x Hback2 (json_value_store _ _ _ Hroot Hy) Hx Hpne Hp')
    as (text' & Htext' & _).
  exists first, second, text. repeat (split; [assumption|]). split; [|assumption].
  rewrite Htext'. f_equal. f_equal.
  destruct (path_snoc o Hone) as (oo & lo & ->). destruct (path_snoc p Hpne) as (pp & lp & ->).
  rewrite (applyEdit_existing _ _ _ _ _ y Hback1 Ho') in Htext.
  rewrite (applyEdit_existing _ _ _ _ _ x Hback2 Hp') in Htext'.
  rewrite <- (store_apart_comm root _ _ x y Ha) in Htext'.
  rewrite Htext in Htext'. congruence.
Qed.

Lemma applyEdit_apart_commute_witness :
  exists first second text,
    applyEdit (q "{'a':{'b':1,'c':[1,2]}}") (Some [Key "a"; Key "b"]) (num "99")
      = Ret (Some first) /\
    applyEdit first (Some [Key "a"; Key "c"; Index 0]) (VString "x") = Ret (Some text) /\
    applyEdit (q "{'a':{'b':1,'c':[1,2]}}") (Some [Key "a"; Key "c"; Index 0]) (VString "x")
      = Ret (Some second) /\
    applyEdit second (Some [Key "a"; Key "b"]) (num "99") = Ret (Some text) /\
    JSON_parse text
      = Ret (store (store (object [("a", object [("b", num "1");
                                                 ("c", VArray [num "1"; num "2"])])])
                          [Key "a"; Key "b"] (num "99"))
                   [Key "a"; Key "c"; Index 0] (VString "x")).
Proof.
  apply (applyEdit_apart_commute
           (q "{'a':{'b':1,'c':[1,2]}}")
           (object [("a", object [("b", num "1"); ("c", VArray [num "1"; num "2"])])])
           [Key "a"; Key "b"] [Key "a"; Key "c"; Index 0] (num "1") (num "1")
           (num "99") (VString "x"));
    reflexivity.
Defined.

(** * The save of a bare scalar *)

(** X16.  A node that is a bare scalar, saved with the text the editor shows for
    it, leaves the document as it is; and a text that is no JSON is saved as
    a string. *)
Theorem save_single_unchanged row rawJson root p fields :
  Row.key row = None ->
  json_value (scalar_value (Row.value row)) = true ->
  JSON_parse rawJson = Ret root ->
  p <> [] ->
  locate root p = Some (scalar_value (Row.value row)) ->
  (exists editText,
      normalizeNodeData [row] = Ret (Some editText) /\
      save {| text := [row]; path := Some p |} rawJson fields editText
      = JSON_stringify 2 root) /\
  (forall editText e,
      JSON_parse editText = Throw e ->
      save {| text := [row]; path := Some p |} rawJson fields editText
      = applyEdit rawJson (Some p) (VString editText)).
Proof.
  intros Hkey Hv Hparse Hne Hloc.
  assert (Hbranch : forall editText,
             save {| text := [row]; path := Some p |} rawJson fields editText
             = (parsedValue <- try_catch (JSON_parse editText) (fun _ => Ret (VString editText)) ;;
                applyEdit rawJson (Some p) parsedValue)).
  { intros editText. unfold save. simpl. now rewrite Hkey. }
  split.
  - destruct (JSON_parse_stringify _ Hv) as (editText & Htext & Hback).
    exists editText. split.
    + unfold normalizeNodeData, normalizeNodeData_with. simpl. rewrite Hkey. simpl.
      rewrite scalar_text, Htext. reflexivity.
    + rewrite Hbranch, Hback. cbn [try_catch bind].
      destruct (path_snoc p Hne) as (pp & last & ->).
      rewrite (applyEdit_existing _ _ _ _ _ _ Hparse Hloc).
      now rewrite (store_same _ _ _ Hloc).
  - intros editText e Hthrow. rewrite Hbranch, Hthrow. reflexivity.
Qed.

Lemma save_single_unchanged_witness :
  (exists editText,
      normalizeNodeData [Row.make None (SNumber (Number "1")) "number"] = Ret (Some editText) /\
      save {| text := [Row.make None (SNumber (Number "1")) "number"];
              path := Some [Key "a"; Key "b"] |}
           (q "{'a':{'b':1,'c':[1,2]}}") [] editText
      = JSON_stringify 2 (object [("a", object [("b", num "1");
                                                ("c", VArray [num "1"; num "2"])])])) /\
  (forall editText e,
      JSON_parse editText = Throw e ->
      save {| text := [Row.make None (SNumber (Number "1")) "number"];
              path := Some [Key "a"; Key "b"] |}
           (q "{'a':{'b':1,'c':[1,2]}}") [] editText
      = applyEdit (q "{'a':{'b':1,'c':[1,2]}}") (Some [Key "a"; Key "b"]) (VString editText)).
Proof.
  apply (save_single_unchanged
           (Row.make None (SNumber (Number "1")) "number")
           (q "{'a':{'b':1,'c':[1,2]}}")
           (object [("a", object [("b", num "1"); ("c", VArray [num "1"; num "2"])])])
           [Key "a"; Key "b"] []);
    try reflexivity.
  discriminate.
Defined.

(** * The updaters of the field list *)

Section FieldUpdaters.

Lemma nth_error_map_index {A B : Type} (g : A -> nat -> B) i l j :
  nth_error (map_index g i l) j = option_map (fun a => g a (i + j)%nat) (nth_error l j).
Proof.
  revert i j. induction l as [|a r IH]; intros i [|j]; simpl; try reflexivity.
  - now rewrite Nat.add_0_r.
  - rewrite IH. now rewrite Nat.add_succ_comm.
Qed.

Lemma length_map_index {A B : Type} (g : A -> nat -> B) i l :
  List.length (map_index g i l) = List.length l.
Proof. revert i. induction l as [|a r IH]; intros i; simpl; auto. Qed.

Lemma filter_index_all {A : Type} (keep : A -> nat -> bool) i (l : list A) :
  (forall a j, keep a (i + j)%nat = true) -> filter_index keep i l = l.
Proof.
  revert i. induction l as [|a r IH]; intros i H; simpl; [reflexivity|].
  rewrite <- (Nat.add_0_r i) at 1. rewrite H. f_equal. apply IH.
  intros a0 j. rewrite Nat.add_succ_comm. apply H.
Qed.

Lemma nth_error_remove_index (l : list Field.t) i index j :
  (i <= index)%nat ->
  nth_error (filter_index (fun _ n => negb (n =? index)%nat) i l) j
  = if (i + j <? index)%nat then nth_error l j else nth_error l (S j).
Proof.
  revert i j. induction l as [|a r IH]; intros i j Hi.
  - simpl. destruct j; simpl; now destruct (_ <? _)%nat.
  - cbn [filter_index]. destruct (Nat.eqb_spec i index) as [->|Hne]; simpl negb; cbv iota.
    + rewrite filter_index_all.
      * destruct (Nat.ltb_spec (index + j) index); [lia|reflexivity].
      * intros _ n. apply negb_true_iff, Nat.eqb_neq. lia.
    + destruct j as [|j]; simpl nth_error.
      * rewrite Nat.add_0_r. destruct (Nat.ltb_spec i index); [reflexivity|lia].
      * rewrite IH by lia. now rewrite Nat.add_succ_comm.
Qed.

Lemma filter_index_app_last (l : list Field.t) i (a : Field.t) :
  filter_index (fun _ n => negb (n =? i + List.length l)%nat) i (l ++ [a]) = l.
Proof.
  revert i. induction l as [|b r IH]; intros i; simpl.
  - now rewrite Nat.add_0_r, Nat.eqb_refl.
  - destruct (Nat.eqb_spec i (i + S (List.length r))); [lia|]. simpl. f_equal.
    rewrite <- Nat.add_succ_comm. apply IH.
Qed.

End FieldUpdaters.

(** X17.  The updaters of the field list: [updateField] patches the field at the
    index and no other, and does nothing when there is none; [removeField]
    takes out the field at the index and shifts the later ones; a field
    added last is taken out by removing the last index. *)
Theorem field_updaters prev index :
  (forall p j,
      nth_error (updateField index p prev) j
      = if (j =? index)%nat then option_map (fun f => spread f p) (nth_error prev j)
        else nth_error prev j) /\
  (forall p, (List.length prev <= index)%nat -> updateField index p prev = prev) /\
  (forall j,
      nth_error (removeField index prev) j
      = if (j <? index)%nat then nth_error prev j else nth_error prev (S j)) /\
  ((List.length prev <= index)%nat -> removeField index prev = prev) /\
  removeField (List.length prev) (addField prev) = prev.
Proof.
  assert (Hupdate : forall p j,
      nth_error (updateField index p prev) j
      = if (j =? index)%nat then option_map (fun f => spread f p) (nth_error prev j)
        else nth_error prev j).
  { intros p j. unfold updateField. rewrite nth_error_map_index. simpl.
    destruct (j =? index)%nat; [reflexivity|]. now destruct (nth_error prev j). }
  assert (Hremove : forall j,
      nth_error (removeField index prev) j
      = if (j <? index)%nat then nth_error prev j else nth_error prev (S j)).
  { intros j. unfold removeField. now rewrite nth_error_remove_index by lia. }
  split; [exact Hupdate|]. split; [|split; [exact Hremove|split]].
  - intros p Hlen. apply nth_error_ext. intros j. rewrite Hupdate.
    destruct (Nat.eqb_spec j index) as [->|]; [|reflexivity].
    assert (H : nth_error prev index = None) by now apply nth_error_None.
    now rewrite H.
  - intros Hlen. apply nth_error_ext. intros j. rewrite Hremove.
    destruct (Nat.ltb_spec j index); [reflexivity|].
    assert (H1 : nth_error prev (S j) = None) by (apply nth_error_None; lia).
    assert (H2 : nth_error prev j = None) by (apply nth_error_None; lia).
    congruence.
  - unfold removeField, addField. apply (filter_index_app_last prev 0).
Qed.

Section AddedField.

Lemma forEach_app {A S : Type} (l l' : list A) (body : A -> S -> outcome S) s :
  forEach (l ++ l') body s = (s' <- forEach l body s ;; forEach l' body s').
Proof.
  revert s. induction l as [|a r IH]; intros s; simpl; [reflexivity|].
  destruct (body a s); simpl; auto.
Qed.

End AddedField.

(** X18.  The key of an added field is made from the number of fields alone: the
    save gives that key the empty string, whatever a field before it had
    under the same key. *)
Theorem addField_saved prev :
  exists p ps,
    updatedObj (addField prev) = Ret (VObject p ps) /\
    lookup ("key" ++ number_to_string (number_of_N (N.of_nat (List.length prev + 1)))) ps
    = Some (VString "").
Proof.
  destruct (updatedObj_total prev) as (p0 & ps0 & Hprev & _).
  unfold updatedObj, addField in *. rewrite forEach_app, Hprev. cbn [bind forEach].
  set (k := "key" ++ number_to_string (number_of_N (N.of_nat (List.length prev + 1)))).
  simpl Field.key. change (k =? "") with false. cbv iota.
  change (coerce (Field.make (Some k) "" "string")) with (VString "").
  rewrite set_object_define by reflexivity. cbn [bind].
  do 2 eexists. split; [reflexivity|]. now rewrite lookup_define, String.eqb_refl.
Qed.

(** * The length of an array target *)

Section ArrayTargets.

Lemma string_of_N_head n : exists d r, string_of_N n = String d r /\ is_digit d = true.
Proof.
  unfold string_of_N. destruct (N.to_uint n); simpl; eauto.
Qed.

Lemma digits_not_inherited d r : is_digit d = true -> inherited (String d r) = false.
Proof.
  destruct d as [[] [] [] [] [] [] [] []]; intros H; try discriminate H; reflexivity.
Qed.

Lemma element_keys_head i l k :
  In k (element_keys i l) -> exists d r, k = String d r /\ is_digit d = true.
Proof.
  revert i. induction l as [|y r IH]; intros i; simpl; [contradiction|].
  destruct y; simpl; try (intros [<-|H]; [apply string_of_N_head|eauto]).
  eauto.
Qed.

Lemma get_element_key l k :
  (exists d r, k = String d r /\ is_digit d = true) ->
  exists v, get (VArray l) k = Ret v.
Proof.
  intros (d & r & -> & Hd). cbn [get].
  destruct (array_index (String d r)); [eauto|].
  destruct (String d r =? "length"); [eauto|].
  unfold missing. rewrite (digits_not_inherited d r Hd). eauto.
Qed.

(** Lines 145-151 on an array: the keys to delete are gathered. *)
Lemma keysToDelete_array (fields : list Field.t) l ks acc :
  (forall k, In k ks -> exists d r, k = String d r /\ is_digit d = true) ->
  exists kd,
    forEach ks
      (fun k acc =>
         val <- get (VArray l) k ;;
         if primitive_valued val then
           if negb (some_field_has_key fields k) then Ret (acc ++ [k])%list else Ret acc
         else Ret acc)
      acc = Ret kd.
Proof.
  revert acc. induction ks as [|k r IH]; intros acc H; cbn [forEach]; [eauto|].
  destruct (get_element_key l k (H k (or_introl eq_refl))) as (v & ->). cbn [bind].
  destruct (primitive_valued v); [destruct (negb _)|]; cbn [bind];
    apply IH; intros k' Hin; apply H; now right.
Qed.

(** Line 153 on an array: deleting element keys leaves an array. *)
Lemma delete_array kd l :
  (forall k, In k kd -> k <> "length") ->
  exists l', forEach kd (fun k tgt => delete tgt k) (VArray l) = Ret (VArray l').
Proof.
  revert l. induction kd as [|k r IH]; intros l H; cbn [forEach]; [eauto|].
  assert (Hstep : exists l1, delete (VArray l) k = Ret (VArray l1)).
  { simpl. destruct (array_index k).
    - destruct (_ <? _)%nat; eauto.
    - destruct (String.eqb_spec k "length") as [E|]; [|eauto].
      elim (H k (or_introl eq_refl) E). }
  destruct Hstep as (l1 & ->). cbn [bind]. apply IH. intros k' Hin. apply H. now right.
Qed.

(** Line 154 on an array, when the coerced mapping has a [length] that is
    no array length: the assignment throws. *)
Lemma set_array_length opr ops uks x n :
  lookup "length" ops = Some x ->
  ToNumber x = Ret n ->
  array_length n = None ->
  (forall k, In k uks -> k <> "__proto__" /\ exists y, lookup k ops = Some y) ->
  In "length" uks ->
  forall l,
    forEach uks (fun k tgt => y <- get (VObject opr ops) k ;; set tgt k y) (VArray l)
    = Throw RangeError.
Proof.
  intros Hx Hn Hlen. induction uks as [|k r IH]; intros Hks Hin l; [contradiction|].
  cbn [forEach]. destruct (Hks k (or_introl eq_refl)) as (Hproto & y & Hy).
  rewrite (get_own opr ops k y Hy). cbn [bind].
  destruct (String.eqb_spec k "length") as [->|Hne].
  - assert (y = x) by congruence. subst y.
    change (set (VArray l) "length" x) with (set_length l x).
    unfold set_length. rewrite Hn. cbn [bind]. now rewrite Hlen.
  - assert (Hstep : exists l1, set (VArray l) k y = Ret (VArray l1)).
    { simpl. destruct (array_index k); [eauto|].
      destruct (String.eqb_spec k "length"); [contradiction|].
      destruct (String.eqb_spec k "__proto__"); [contradiction|eauto]. }
    destruct Hstep as (l1 & ->). cbn [bind]. apply IH.
    + intros k' Hk'. apply Hks. now right.
    + destruct Hin as [E|Hin]; [congruence|assumption].
Qed.

End ArrayTargets.

(** X10.  A keyed save on an array target whose fields give [length] a value that
    is no array length fails with a [RangeError], whatever the document. *)
Theorem syncFields_array_length_rejected currentJson path fields root l opr ops x n :
  JSON_parse currentJson = Ret root ->
  walk root (path_or_root path) = Ret (VArray l) ->
  updatedObj fields = Ret (VObject opr ops) ->
  some_field_has_key fields "__proto__" = false ->
  lookup "length" ops = Some x ->
  ToNumber x = Ret n ->
  array_length n = None ->
  syncFields currentJson path fields = Throw RangeError.
Proof.
  intros Hparse Hwalk Hobj Hproto Hx Hn Hlen.
  destruct (updatedObj_total fields) as (opr' & ops' & Hobj' & Hkeys).
  rewrite Hobj in Hobj'. injection Hobj' as <- <-.
  unfold syncFields. rewrite Hobj. cbn [bind]. rewrite Hparse. cbn [bind].
  rewrite Hwalk. cbn [bind]. simpl typeof. simpl negb. simpl orb. cbv iota.
  simpl Object_keys. cbn [bind].
  destruct (keysToDelete_array fields l (element_keys 0 l) [])
    as (kd & Hkd); [apply element_keys_head|].
  rewrite Hkd. cbn [bind].
  destruct (delete_array kd l) as (l' & Hdel).
  { intros k Hin. destruct (keysToDelete_subset fields (VArray l) _ _ _ Hkd k Hin) as [[]|Hk].
    eapply element_keys_not_length; eauto. }
  rewrite Hdel. cbn [bind].
  rewrite (set_array_length opr ops (map fst ops) x n Hx Hn Hlen); [reflexivity| |].
  - intros k Hin. split; [|now apply In_lookup].
    intros ->. destruct (In_lookup _ _ Hin) as (y & Hy).
    rewrite (Hkeys _ _ Hy) in Hproto. discriminate.
  - eapply lookup_In; eauto.
Qed.

Lemma syncFields_array_length_rejected_witness :
  syncFields (q "{'a':[1,2]}") (Some [Key "a"])
             [field "0" "7" "number"; field "length" "abc" "number"]
  = Throw RangeError.
Proof.
  apply (syncFields_array_length_rejected
           (q "{'a':[1,2]}") (Some [Key "a"])
           [field "0" "7" "number"; field "length" "abc" "number"]
           (object [("a", VArray [num "1"; num "2"])]) [num "1"; num "2"]
           ObjectPrototype [("0", num "7"); ("length", VString "abc")]
           (VString "abc") NaN);
    reflexivity.
Defined.

(** * The edit session *)

Section Sessions.

(** With a first field without a key, the user's controls leave the text
    the editor started with, and the first field without a key. *)
Lemma handle_first_unkeyed s e :
  offered s e = true ->
  first_unkeyed (State.fields s) ->
  State.editText (handle s e) = State.editText s /\
  first_unkeyed (State.fields (handle s e)).
Proof.
  destruct s as [ed text [|f r] err]; simpl State.fields; [contradiction|].
  intros Hoff Hf. simpl in Hf.
  destruct e as [| |i k|i v|i| |t]; simpl; try (split; [reflexivity|exact Hf]).
  - destruct i as [|i]; [|split; [reflexivity|exact Hf]].
    simpl in Hoff. rewrite Hf in Hoff. now rewrite andb_false_r in Hoff.
  - destruct i as [|i]; split; try reflexivity; exact Hf.
  - destruct i as [|i]; [|split; [reflexivity|exact Hf]].
    simpl in Hoff. rewrite Hf in Hoff. now rewrite andb_false_r in Hoff.
  - simpl in Hoff. now rewrite andb_false_r in Hoff.
Qed.

Lemma reaches_first_unkeyed s es s' :
  reaches s es s' ->
  first_unkeyed (State.fields s) ->
  State.editText s' = State.editText s /\ first_unkeyed (State.fields s').
Proof.
  induction 1 as [s|s e es s' Hoff _ IH]; intros Hf; [auto|].
  destruct (handle_first_unkeyed s e Hoff Hf) as [Ht Hf'].
  destruct (IH Hf') as [Ht' Hf'']. split; [congruence|assumption].
Qed.

(** Without fields, the user's controls make none. *)
Lemma reaches_no_fields s es s' :
  reaches s es s' -> State.fields s = [] -> State.fields s' = [].
Proof.
  induction 1 as [s|s e es s' Hoff _ IH]; intros Hf; [assumption|].
  apply IH. destruct s as [ed text l err]. simpl in Hf. subst l.
  destruct e as [| |i k|i v|i| |t]; try reflexivity.
  simpl in Hoff. now rewrite andb_false_r in Hoff.
Qed.

Lemma handle_fields_text s s' e :
  State.fields s = State.fields s' -> State.editText s = State.editText s' ->
  State.fields (handle s e) = State.fields (handle s' e) /\
  State.editText (handle s e) = State.editText (handle s' e).
Proof.
  destruct s, s'; simpl. intros -> ->. destruct e; simpl; auto.
Qed.

Lemma fold_handle_fields_text es s s' :
  State.fields s = State.fields s' -> State.editText s = State.editText s' ->
  State.fields (fold_left handle es s) = State.fields (fold_left handle es s') /\
  State.editText (fold_left handle es s) = State.editText (fold_left handle es s').
Proof.
  revert s s'. induction es as [|e es IH]; intros s s' Hf Ht; simpl; [auto|].
  destruct (handle_fields_text s s' e Hf Ht). now apply IH.
Qed.

Lemma reaches_fold s es s' : reaches s es s' -> s' = fold_left handle es s.
Proof. induction 1; simpl; congruence. Qed.

Lemma save_single_same row rawJson root p fields editText :
  Row.key row = None ->
  json_value (scalar_value (Row.value row)) = true ->
  JSON_parse rawJson = Ret root ->
  p <> [] ->
  locate root p = Some (scalar_value (Row.value row)) ->
  normalizeNodeData [row] = Ret (Some editText) ->
  save {| text := [row]; path := Some p |} rawJson fields editText = JSON_stringify 2 root.
Proof.
  intros Hkey Hv Hparse Hne Hloc Hshow.
  destruct (JSON_parse_stringify _ Hv) as (text & Htext & Hback).
  assert (E : editText = text).
  { unfold normalizeNodeData, normalizeNodeData_with in Hshow. simpl in Hshow.
    rewrite Hkey in Hshow. simpl in Hshow. rewrite scalar_text, Htext in Hshow.
    simpl in Hshow. congruence. }
  subst editText. unfold save. simpl. rewrite Hkey. simpl. rewrite Hback. cbn [try_catch bind].
  destruct (path_snoc p Hne) as (pp & last & ->).
  rewrite (applyEdit_existing _ _ _ _ _ _ Hparse Hloc).
  now rewrite (store_same _ _ _ Hloc).
Qed.

End Sessions.

(** X19.  What the user types for a node that is a bare scalar is not saved:
    the value input changes the field, the save reads the text the editor
    started with, and the text area that would change it is not rendered.
    Whatever the user did, Save hands [setContents] the document as it
    is. *)
Theorem scalar_edits_not_saved row p rawJson root s0 es s :
  Row.key row = None ->
  is_primitive_row row = true ->
  json_value (scalar_value (Row.value row)) = true ->
  JSON_parse rawJson = Ret root ->
  p <> [] ->
  locate root p = Some (scalar_value (Row.value row)) ->
  initial [row] s0 ->
  reaches s0 es s ->
  State.editText s = State.editText s0 /\
  handleSave (Some {| text := [row]; path := Some p |}) rawJson
             (State.fields s) (State.editText s)
  = (updated <- JSON_stringify 2 root ;; Ret (SetContents updated)).
Proof.
  intros Hkey Hprim Hv Hparse Hne Hloc (_ & Hshow & Hfields & _) Hreach.
  assert (Hfirst : first_unkeyed (State.fields s0)).
  { rewrite Hfields. unfold initialFields. simpl filter.
    unfold is_primitive_row in Hprim. rewrite Hprim. simpl.
    unfold no_key. rewrite Hkey. reflexivity. }
  destruct (reaches_first_unkeyed _ _ _ Hreach Hfirst) as [Htext _].
  split; [exact Htext|].
  unfold handleSave. rewrite Htext.
  rewrite (save_single_same row rawJson root p (State.fields s) _ Hkey Hv Hparse Hne Hloc Hshow).
  reflexivity.
Qed.

Lemma scalar_edits_not_saved_witness :
  State.editText
    (fold_left handle [EditClicked; ValueChanged 0 "2"; AddFieldClicked]
               (State.make false "1" [Field.make None "1" "number"] None))
  = "1" /\
  handleSave (Some {| text := [Row.make None (SNumber (Number "1")) "number"];
                      path := Some [Key "a"; Key "b"] |})
             (q "{'a':{'b':1}}")
             (State.fields
                (fold_left handle [EditClicked; ValueChanged 0 "2"; AddFieldClicked]
                           (State.make false "1" [Field.make None "1" "number"] None)))
             (State.editText
                (fold_left handle [EditClicked; ValueChanged 0 "2"; AddFieldClicked]
                           (State.make false "1" [Field.make None "1" "number"] None)))
  = (updated <- JSON_stringify 2 (object [("a", object [("b", num "1")])]) ;;
     Ret (SetContents updated)).
Proof.
  apply (scalar_edits_not_saved
           (Row.make None (SNumber (Number "1")) "number") [Key "a"; Key "b"]
           (q "{'a':{'b':1}}") (object [("a", object [("b", num "1")])])
           (State.make false "1" [Field.make None "1" "number"] None)
           [EditClicked; ValueChanged 0 "2"; AddFieldClicked]);
    try reflexivity.
  - discriminate.
  - repeat split.
  - repeat (apply reaches_cons; [reflexivity|]). apply reaches_nil.
Defined.

(** X20.  What the user types for a node that has keyed rows but none of
    primitive type is not saved either: the text area changes the text, the
    save reads the fields, and there are none. *)
Theorem nested_text_not_saved rows p rawJson s0 es s :
  existsb (fun r => match Row.key r with Some _ => true | None => false end) rows = true ->
  initialFields rows = [] ->
  initial rows s0 ->
  reaches s0 es s ->
  State.fields s = [] /\
  save {| text := rows; path := p |} rawJson (State.fields s) (State.editText s)
  = syncFields rawJson p [].
Proof.
  intros Hkeys Hnone (_ & _ & Hfields & _) Hreach.
  assert (Hs : State.fields s = []).
  { eapply reaches_no_fields; eauto. congruence. }
  split; [exact Hs|]. unfold save. simpl. now rewrite Hkeys, Hs.
Qed.

Lemma nested_text_not_saved_witness :
  State.fields
    (fold_left handle [EditClicked; TextChanged "{}"]
               (State.make false "{}" [] None)) = [] /\
  save {| text := [Row.make (Some "d") (SString "{1 key}") "object"]; path := Some [Key "a"] |}
       (q "{'a':{'d':{'e':1}}}")
       (State.fields (fold_left handle [EditClicked; TextChanged "{}"]
                                (State.make false "{}" [] None)))
       (State.editText (fold_left handle [EditClicked; TextChanged "{}"]
                                  (State.make false "{}" [] None)))
  = syncFields (q "{'a':{'d':{'e':1}}}") (Some [Key "a"]) [].
Proof.
  apply (nested_text_not_saved
           [Row.make (Some "d") (SString "{1 key}") "object"] (Some [Key "a"])
           (q "{'a':{'d':{'e':1}}}") (State.make false "{}" [] None)
           [EditClicked; TextChanged "{}"]);
    try reflexivity.
  - repeat split.
  - repeat (apply reaches_cons; [reflexivity|]). apply reaches_nil.
Defined.

(** X21.  Cancel does not discard what the user typed: the fields and the
    text a trace of the user's controls reaches are those of the trace
    without its Edit and Cancel clicks. *)
Theorem cancel_keeps_edits s es s' :
  reaches s es s' ->
  State.fields s' = State.fields (fold_left handle (filter is_input es) s) /\
  State.editText s' = State.editText (fold_left handle (filter is_input es) s).
Proof.
  intros Hreach. rewrite (reaches_fold _ _ _ Hreach). clear Hreach s'.
  revert s. induction es as [|e es IH]; intros s; [auto|].
  cbn [fold_left filter]. destruct (is_input e) eqn:E.
  - apply IH.
  - destruct (IH (handle s e)) as [Hf Ht]. rewrite Hf, Ht.
    apply fold_handle_fields_text; destruct s, e; try discriminate E; reflexivity.
Qed.

Lemma cancel_keeps_edits_witness :
  State.fields
    (fold_left handle [EditClicked; ValueChanged 0 "2"; CancelClicked; EditClicked]
               (State.make false "" [Field.make (Some "b") "1" "number"] None))
  = [Field.make (Some "b") "2" "number"].
Proof.
  destruct (cancel_keeps_edits
              (State.make false "" [Field.make (Some "b") "1" "number"] None)
              [EditClicked; ValueChanged 0 "2"; CancelClicked; EditClicked]
              (fold_left handle [EditClicked; ValueChanged 0 "2"; CancelClicked; EditClicked]
                         (State.make false "" [Field.make (Some "b") "1" "number"] None)))
    as [Hf _].
  - repeat (apply reaches_cons; [reflexivity|]). apply reaches_nil.
  - rewrite Hf. reflexivity.
Defined.
